(** * claw-readme: the analysis pipeline of [index.js]

    A shallow embedding of the README generator: the option parsing and the
    guards of the command line, the repository identifier, the parser of
    help texts, the static scanner of entry-point sources, the merge of the
    two findings and the Markdown renderer.

    Texts are [string]s whose characters stand for the code units of the
    JavaScript strings (the development covers the code units below 256).
    Regular-expression literals of the source are written as terms of
    [Regex.re] and run by a backtracking matcher with the priorities of the
    ECMAScript one (greedy quantifiers, left alternative first). *)

From Stdlib Require Import Bool Arith ZArith List String Ascii Lia.
From Stdlib Require Import Permutation Sorted DecimalString.
Import ListNotations.
Open Scope string_scope.
Open Scope list_scope.
Open Scope nat_scope.

(** ** Strings of the JavaScript runtime *)

Module JsString.

Definition code (a : ascii) : nat := nat_of_ascii a.

Definition in_range (lo hi : nat) (a : ascii) : bool :=
  (lo <=? code a) && (code a <=? hi).

Definition is_upper (a : ascii) : bool := in_range 65 90 a.
Definition is_lower (a : ascii) : bool := in_range 97 122 a.
Definition is_letter (a : ascii) : bool := is_upper a || is_lower a.
Definition is_digit (a : ascii) : bool := in_range 48 57 a.

(** White space and line terminators below 256: TAB, LF, VT, FF, CR, SP and
    NBSP. [String.prototype.trim] and the class [\s] share this set. *)
Definition is_space (a : ascii) : bool :=
  in_range 9 13 a || (code a =? 32) || (code a =? 160).

(** Line terminators, which [.] does not match. *)
Definition is_line_terminator (a : ascii) : bool :=
  (code a =? 10) || (code a =? 13).

(** [\w] *)
Definition is_word (a : ascii) : bool :=
  is_letter a || is_digit a || (code a =? 95).

(** [toLowerCase] on one code unit: A-Z and the Latin-1 capitals. *)
Definition lower_char (a : ascii) : ascii :=
  if is_upper a then ascii_of_nat (code a + 32)
  else if in_range 192 222 a && negb (code a =? 215)
       then ascii_of_nat (code a + 32)
       else a.

Fixpoint toLowerCase (s : string) : string :=
  match s with
  | EmptyString => EmptyString
  | String a s' => String (lower_char a) (toLowerCase s')
  end.

Fixpoint startsWith (p s : string) : bool :=
  match p, s with
  | EmptyString, _ => true
  | String a p', String b s' => Ascii.eqb a b && startsWith p' s'
  | String _ _, EmptyString => false
  end.

Fixpoint trimStart (s : string) : string :=
  match s with
  | String a s' => if is_space a then trimStart s' else s
  | EmptyString => EmptyString
  end.

(** [trimEnd]: a character is kept when something other than white space
    follows it or it is not white space itself. *)
Fixpoint trimEnd (s : string) : string :=
  match s with
  | EmptyString => EmptyString
  | String a s' =>
      match trimEnd s' with
      | EmptyString => if is_space a then EmptyString else String a EmptyString
      | t => String a t
      end
  end.

Definition trim (s : string) : string := trimEnd (trimStart s).

(** [s.split(sep)] for a one-character separator; the result always has at
    least one element. *)
Fixpoint split (sep : ascii) (s : string) : list string :=
  match s with
  | EmptyString => [EmptyString]
  | String a s' =>
      if Ascii.eqb a sep then EmptyString :: split sep s'
      else match split sep s' with
           | x :: xs => String a x :: xs
           | [] => [String a EmptyString]
           end
  end.

(** [arr.includes(x)] on an array of strings. *)
Definition includes (arr : list string) (x : string) : bool :=
  existsb (String.eqb x) arr.

(** [arr.find(p)] *)
Definition find {A} (p : A -> bool) (arr : list A) : option A := List.find p arr.

(** [arr.join(sep)] *)
Fixpoint join (sep : string) (arr : list string) : string :=
  match arr with
  | [] => EmptyString
  | [x] => x
  | x :: xs => x ++ sep ++ join sep xs
  end.

(** [s.includes(t)] on strings. *)
Fixpoint contains (t s : string) : bool :=
  startsWith t s ||
  match s with
  | EmptyString => false
  | String _ s' => contains t s'
  end.

(** Every character of [s] satisfies [p]. *)
Fixpoint all_chars (p : ascii -> bool) (s : string) : bool :=
  match s with
  | EmptyString => true
  | String a s' => p a && all_chars p s'
  end.

End JsString.

(** ** Regular expressions *)

Module Regex.
Import JsString.

Inductive re : Type :=
| Empty                          (* the empty pattern *)
| Class (p : ascii -> bool)      (* one code unit in a class *)
| Cat (r1 r2 : re)               (* r1 r2 *)
| Or (r1 r2 : re)                (* r1|r2 *)
| Star (r : re)                  (* r* (greedy) *)
| Group (n : nat) (r : re)       (* capturing group number n *)
| Bol                            (* ^ (no m flag) *)
| Eol.                           (* $ (no m flag) *)

(** Captures, most recent first. *)
Definition caps := list (nat * string).

Definition cont := nat -> string -> caps -> option (nat * caps).

(** The iterations of a greedy star whose body is matched by [body]: one
    more iteration is tried first, then the continuation. An iteration
    that consumes nothing is refused, as the ECMAScript matcher does; so
    the length of the rest bounds the number of iterations. *)
Definition star_loop (body : nat -> string -> caps -> cont -> option (nat * caps))
           (k : cont) : nat -> nat -> string -> caps -> option (nat * caps) :=
  fix loop (fuel : nat) (i : nat) (s : string) (c : caps) :=
    match fuel with
    | O => k i s c
    | S fuel' =>
        match body i s c
                   (fun i' s' c' =>
                      if i <? i' then loop fuel' i' s' c' else None) with
        | Some x => Some x
        | None => k i s c
        end
    end.

(** [m r i s c k]: match [r] against [s], the rest of the input from index
    [i]; [k] continues the match. *)
Fixpoint m (r : re) (i : nat) (s : string) (c : caps) (k : cont)
  : option (nat * caps) :=
  match r with
  | Empty => k i s c
  | Class p =>
      match s with
      | String a s' => if p a then k (S i) s' c else None
      | EmptyString => None
      end
  | Cat r1 r2 => m r1 i s c (fun i' s' c' => m r2 i' s' c' k)
  | Or r1 r2 =>
      match m r1 i s c k with
      | Some x => Some x
      | None => m r2 i s c k
      end
  | Star r1 => star_loop (m r1) k (String.length s) i s c
  | Group n r1 =>
      m r1 i s c (fun i' s' c' => k i' s' ((n, substring 0 (i' - i) s) :: c'))
  | Bol => if i =? 0 then k i s c else None
  | Eol =>
      match s with
      | EmptyString => k i s c
      | String _ _ => None
      end
  end.

(** What a successful match consumed: [derives r i p s c c'] when [r],
    started at index [i] with the captures [c], can consume [p] before
    the rest [s] and leave the captures [c']. (No pattern of the program
    has a group under a star, where the captures would be reset.) *)
Inductive derives : re -> nat -> string -> string -> caps -> caps -> Prop :=
| D_Empty i s c : derives Empty i EmptyString s c c
| D_Class (p : ascii -> bool) a i s c :
    p a = true -> derives (Class p) i (String a EmptyString) s c c
| D_Cat r1 r2 i p1 p2 s c c1 c2 :
    derives r1 i p1 (p2 ++ s) c c1 ->
    derives r2 (i + String.length p1) p2 s c1 c2 ->
    derives (Cat r1 r2) i (p1 ++ p2) s c c2
| D_Or_left r1 r2 i p s c c' :
    derives r1 i p s c c' -> derives (Or r1 r2) i p s c c'
| D_Or_right r1 r2 i p s c c' :
    derives r2 i p s c c' -> derives (Or r1 r2) i p s c c'
| D_Star_done r i s c : derives (Star r) i EmptyString s c c
| D_Star_more r i p1 p2 s c c1 c2 :
    derives r i p1 (p2 ++ s) c c1 ->
    p1 <> EmptyString ->
    derives (Star r) (i + String.length p1) p2 s c1 c2 ->
    derives (Star r) i (p1 ++ p2) s c c2
| D_Group n r i p s c c' :
    derives r i p s c c' -> derives (Group n r) i p s c ((n, p) :: c')
| D_Bol s c : derives Bol 0 EmptyString s c c
| D_Eol i c : derives Eol i EmptyString EmptyString c c.

(** What a continuation receives once [r] has consumed [p]. *)
Definition reaches (r : re) (i : nat) (s : string) (c : caps) (k : cont)
           (x : nat * caps) : Prop :=
  exists p s' c',
    s = (p ++ s')%string /\ derives r i p s' c c'
    /\ k (i + String.length p) s' c' = Some x.

(** A pattern without capturing groups. *)
Fixpoint groupless (r : re) : bool :=
  match r with
  | Group _ _ => false
  | Cat r1 r2 | Or r1 r2 => groupless r1 && groupless r2
  | Star r1 => groupless r1
  | Empty | Class _ | Bol | Eol => true
  end.

(** The least number of code units a match consumes. *)
Fixpoint min_length (r : re) : nat :=
  match r with
  | Class _ => 1
  | Cat r1 r2 => min_length r1 + min_length r2
  | Or r1 r2 => Nat.min (min_length r1) (min_length r2)
  | Group _ r1 => min_length r1
  | Empty | Star _ | Bol | Eol => 0
  end.

(** One attempt at index [i]: the end index and the captures. *)
Definition match_at (r : re) (i : nat) (s : string) : option (nat * caps) :=
  m r i s [] (fun i' _ c => Some (i', c)).

(** [match[n]]: [None] stands for [undefined]. *)
Fixpoint group (n : nat) (c : caps) : option string :=
  match c with
  | [] => None
  | (k, v) :: c' => if k =? n then Some v else group n c'
  end.

(** The leftmost match at or after index [i] of the rest [s]. *)
Fixpoint search_from (r : re) (i : nat) (s : string) : option (nat * nat * caps) :=
  match match_at r i s with
  | Some (e, c) => Some (i, e, c)
  | None =>
      match s with
      | EmptyString => None
      | String _ s' => search_from r (S i) s'
      end
  end.

(** [str.match(r)] and [r.exec(str)] without the g flag. *)
Definition search (r : re) (s : string) : option caps :=
  match search_from r 0 s with
  | Some (_, _, c) => Some c
  | None => None
  end.

(** [r.test(str)] *)
Definition test (r : re) (s : string) : bool :=
  match search r s with Some _ => true | None => false end.

(** The loop [while ((match = r.exec(code)) !== null)] of a pattern with
    the g flag: each search starts where the last match ended. [skip]
    counts the code units of the last match still to be passed. (After a
    match that consumed nothing the loop of the source would not move on;
    the patterns of the program consume at least one code unit.) *)
Fixpoint exec_loop (r : re) (i : nat) (s : string) (skip : nat) : list caps :=
  match skip with
  | S skip' =>
      match s with
      | EmptyString => []
      | String _ s' => exec_loop r (S i) s' skip'
      end
  | O =>
      match match_at r i s with
      | Some (e, c) =>
          c :: match s with
               | EmptyString => []
               | String _ s' => exec_loop r (S i) s' (e - i - 1)
               end
      | None =>
          match s with
          | EmptyString => []
          | String _ s' => exec_loop r (S i) s' 0
          end
      end
  end.

Definition exec_all (r : re) (s : string) : list caps := exec_loop r 0 s 0.

(** *** Pattern syntax *)

Definition chr (a : ascii) : re := Class (Ascii.eqb a).

(** A literal word. *)
Fixpoint lit (s : string) : re :=
  match s with
  | EmptyString => Empty
  | String a EmptyString => chr a
  | String a s' => Cat (chr a) (lit s')
  end.

(** The i flag: two code units match when they canonicalize to the same
    one. The patterns under the i flag are ASCII, and no code unit of 128
    or more canonicalizes to an ASCII one, so upper-casing a-z suffices. *)
Definition canonicalize (a : ascii) : ascii :=
  if is_lower a then ascii_of_nat (code a - 32) else a.

Definition chr_i (a : ascii) : re :=
  Class (fun b => Ascii.eqb (canonicalize a) (canonicalize b)).

Fixpoint lit_i (s : string) : re :=
  match s with
  | EmptyString => Empty
  | String a EmptyString => chr_i a
  | String a s' => Cat (chr_i a) (lit_i s')
  end.

Definition plus (r : re) : re := Cat r (Star r).          (* r+ *)
Definition opt (r : re) : re := Or r Empty.               (* r? *)
Definition two_or_more (r : re) : re := Cat r (Cat r (Star r)).  (* r{2,} *)
Definition one_or_two (r : re) : re := Cat r (opt r).     (* r{1,2} *)

Fixpoint seq (rs : list re) : re :=
  match rs with
  | [] => Empty
  | [r] => r
  | r :: rs' => Cat r (seq rs')
  end.

Fixpoint alt (rs : list re) : re :=
  match rs with
  | [] => Class (fun _ => false)
  | [r] => r
  | r :: rs' => Or r (alt rs')
  end.

Definition one_of (l : list ascii) : re :=
  Class (fun a => existsb (Ascii.eqb a) l).
Definition none_of (p : ascii -> bool) : re := Class (fun a => negb (p a)).

Definition space : re := Class is_space.                  (* \s *)
Definition word : re := Class is_word.                    (* \w *)
Definition dot : re := none_of is_line_terminator.        (* . *)
(** The three quote characters: apostrophe, double quote, backtick. *)
Definition quote : re := one_of ["'"; "034"; "`"]%char.

End Regex.

(** ** Values of the JavaScript runtime *)

Module Js.
Import JsString.

(** What [JSON.parse] gives, and [undefined]. The program only tests
    numbers for truthiness and prints them; [VNum z] stands for the
    integer [z], and the embedding covers the integers a double holds
    exactly (see [exact]). The properties of an object are listed in the
    order [Object.keys] reports. *)
#[warnings="-register-all"]
Inductive value : Type :=
| VUndefined
| VNull
| VBool (b : bool)
| VNum (z : Z)
| VStr (s : string)
| VArr (l : list value)
| VObj (l : list (string * value)).

(** A computation that may throw. *)
Inductive res (A : Type) : Type :=
| Ok (a : A)
| Throw (e : string).
Arguments Ok {A} a.
Arguments Throw {A} e.

Definition bind {A B} (x : res A) (f : A -> res B) : res B :=
  match x with
  | Ok a => f a
  | Throw e => Throw e
  end.

Notation "x <- e1 ;; e2" := (bind e1 (fun x => e2))
  (at level 61, e1 at next level, right associativity).

Fixpoint mapM {A B} (f : A -> res B) (l : list A) : res (list B) :=
  match l with
  | [] => Ok []
  | x :: l' => y <- f x ;; ys <- mapM f l' ;; Ok (y :: ys)
  end.

Definition TypeError : string := "TypeError".

Definition truthy (v : value) : bool :=
  match v with
  | VUndefined | VNull => false
  | VBool b => b
  | VNum z => negb (Z.eqb z 0)
  | VStr s => negb (String.eqb s EmptyString)
  | VArr _ | VObj _ => true
  end.

(** [a || b] *)
Definition or_else (a b : value) : value := if truthy a then a else b.

Fixpoint assoc {A} (k : string) (l : list (string * A)) : option A :=
  match l with
  | [] => None
  | (k', v) :: l' => if String.eqb k k' then Some v else assoc k l'
  end.

(** [v.k] for the property names the program reads ([name], [url], [bin],
    ...): none of them is a property of a prototype, so only an object can
    have one; reading a property of [null] or [undefined] throws. *)
Definition prop (v : value) (k : string) : res value :=
  match v with
  | VUndefined | VNull => Throw TypeError
  | VObj l => Ok (match assoc k l with Some x => x | None => VUndefined end)
  | _ => Ok VUndefined
  end.

Definition nat_to_string (n : nat) : string :=
  DecimalString.NilZero.string_of_uint (Nat.to_uint n).

Definition Z_to_string (z : Z) : string :=
  DecimalString.NilZero.string_of_int (Z.to_int z).

Fixpoint chars (s : string) : list string :=
  match s with
  | EmptyString => []
  | String a s' => String a EmptyString :: chars s'
  end.

(** [Object.values(v)] *)
Definition object_values (v : value) : res (list value) :=
  match v with
  | VUndefined | VNull => Throw TypeError
  | VObj l => Ok (map snd l)
  | VArr l => Ok l
  | VStr s => Ok (map VStr (chars s))
  | VBool _ | VNum _ => Ok []
  end.

(** [Object.keys(v)] *)
Definition object_keys (v : value) : res (list string) :=
  match v with
  | VUndefined | VNull => Throw TypeError
  | VObj l => Ok (map fst l)
  | VArr l => Ok (map nat_to_string (seq 0 (List.length l)))
  | VStr s => Ok (map nat_to_string (seq 0 (String.length s)))
  | VBool _ | VNum _ => Ok []
  end.

(** [String(v)], as a template literal converts a value. An integer a
    double holds exactly is printed with all its digits; an object without
    a [toString] of its own is printed as [[object Object]]. *)
Fixpoint to_string (v : value) : string :=
  match v with
  | VUndefined => "undefined"
  | VNull => "null"
  | VBool true => "true"
  | VBool false => "false"
  | VNum z => Z_to_string z
  | VStr s => s
  | VArr l =>
      join ","
        (map (fun x => match x with
                       | VUndefined | VNull => EmptyString
                       | _ => to_string x
                       end) l)
  | VObj _ => "[object Object]"
  end.

(** The values that [to_string] prints as the program does: the numbers
    are within the integers a double holds exactly, from [-2^53] to
    [2^53], and no object has a property [toString] of its own (the
    conversion of such an object throws). *)
Fixpoint exact (v : value) : bool :=
  match v with
  | VNum z => (Z.abs z <=? 2 ^ 53)%Z
  | VArr l => forallb exact l
  | VObj l => negb (existsb (fun kv => String.eqb (fst kv) "toString") l)
  | _ => true
  end.

End Js.

(** ** Records shared by the parser, the scanner and the merge *)

(** A command or a flag: [{ name, desc }]. *)
Record entry : Type := { name : string; desc : string }.

(** [analysis.github]: [{ user, repo }]. *)
Record RepositoryRef : Type := { user : string; repo : string }.

(** ** The repository identifier (index.js, lines 98-119) *)

Module Repository.
Import JsString Regex Js.

Definition slash : ascii := "/"%char.
Definition period : ascii := "."%char.

(** [/github\.com[\/:]([^\/]+)\/([^\/\.]+)/] *)
Definition manifest_pattern : re :=
  seq [ lit "github"; chr period; lit "com"; one_of [slash; ":"%char];
        Group 1 (plus (none_of (Ascii.eqb slash)));
        chr slash;
        Group 2 (plus (none_of (fun a => Ascii.eqb slash a || Ascii.eqb period a))) ].

(** [/github\.com[\/:]([^\/]+)\/([^\/\.\s]+)/] *)
Definition config_pattern : re :=
  seq [ lit "github"; chr period; lit "com"; one_of [slash; ":"%char];
        Group 1 (plus (none_of (Ascii.eqb slash)));
        chr slash;
        Group 2 (plus (none_of (fun a => Ascii.eqb slash a || Ascii.eqb period a
                                         || is_space a))) ].

(** [s.replace(t, '')] for a string pattern: the first occurrence goes. *)
Fixpoint remove_first (t s : string) : string :=
  if startsWith t s then substring (String.length t) (String.length s) s
  else match s with
       | EmptyString => EmptyString
       | String a s' => String a (remove_first t s')
       end.

(** Lines 99-105. [pkg.repository] is any JSON value: a string is matched
    itself, of anything else the [url] property is taken. [repo?.match]
    yields [undefined] only for [null] and [undefined]; a value that is not
    a string has no [match] method and the call throws. *)
Definition from_manifest (pkg : value) : res (option RepositoryRef) :=
  repository <- prop pkg "repository" ;;
  if truthy repository then
    repo <- match repository with
            | VStr _ => Ok repository
            | _ => prop repository "url"
            end ;;
    match repo with
    | VUndefined | VNull => Ok None
    | VStr s =>
        match search manifest_pattern s with
        | Some c =>
            match group 1 c, group 2 c with
            | Some u, Some r => Ok (Some {| user := u; repo := r |})
            | _, _ => Ok None
            end
        | None => Ok None
        end
    | _ => Throw TypeError
    end
  else Ok None.

(** Lines 108-119, inside [try { } catch (e) {}]. [config] is the state of
    [.git/config]: [None] when the file is absent, [Some None] when reading
    it throws, [Some (Some text)] otherwise. *)
Definition from_git_config (config : option (option string)) : option RepositoryRef :=
  match config with
  | Some (Some gitConfig) =>
      match search config_pattern gitConfig with
      | Some c =>
          match group 1 c, group 2 c with
          | Some u, Some r => Some {| user := u; repo := remove_first ".git" r |}
          | _, _ => None
          end
      | None => None
      end
  | _ => None
  end.

(** The values on which [repo?.match(...)] throws: neither [null] nor
    [undefined], and no string. *)
Definition has_no_match_method (v : value) : bool :=
  match v with
  | VBool _ | VNum _ | VArr _ | VObj _ => true
  | VUndefined | VNull | VStr _ => false
  end.

(** Both steps: the remote is read only when the manifest gave nothing. *)
Definition identify (pkg : value) (config : option (option string))
  : res (option RepositoryRef) :=
  github <- from_manifest pkg ;;
  match github with
  | Some g => Ok (Some g)
  | None => Ok (from_git_config config)
  end.

End Repository.

(** ** The help-text parser (index.js, lines 121-156) *)

Module HelpParser.
Import JsString Regex.

Record result : Type := { commands : list entry; flags : list entry }.

Definition LF : ascii := "010"%char.

(** [/^(Commands|Usage|Options|Flags):/i] *)
Definition header_pattern : re :=
  seq [ Bol;
        Group 1 (alt [lit_i "Commands"; lit_i "Usage"; lit_i "Options"; lit_i "Flags"]);
        chr_i ":"%char ].

Definition word_or_dash : re :=
  Class (fun a => is_word a || Ascii.eqb a "-"%char).
Definition alnum_or_dash : re :=
  Class (fun a => is_letter a || is_digit a || Ascii.eqb a "-"%char).

(** [/^\s{2,}(\w[\w-]* )\s+(.+)$/] (no blank after the star in the source) *)
Definition command_pattern : re :=
  seq [ Bol; two_or_more space;
        Group 1 (Cat word (Star word_or_dash));
        plus space;
        Group 2 (plus dot);
        Eol ].

(** [/^\s{2,}(-[a-zA-Z0-9-]+(?:,\s+-[a-zA-Z0-9-]+)* )\s+(.+)$/]
    (no blank after the star in the source) *)
Definition flag_pattern : re :=
  seq [ Bol; two_or_more space;
        Group 1 (seq [ chr "-"%char; plus alnum_or_dash;
                       Star (seq [chr ","%char; plus space; chr "-"%char;
                                  plus alnum_or_dash]) ]);
        plus space;
        Group 2 (plus dot);
        Eol ].

(** [names.find(n => n.startsWith('--')) || names[0]] *)
Definition primary (names : list string) : string :=
  match find (startsWith "--") names with
  | Some n => n
  | None => hd EmptyString names
  end.

(** The state of the loop: [section] and [result]. *)
Definition state : Type := option string * result.

Definition push_command (r : result) (e : entry) : result :=
  {| commands := commands r ++ [e]; flags := flags r |}.
Definition push_flag (r : result) (e : entry) : result :=
  {| commands := commands r; flags := flags r ++ [e] |}.

Definition section_is (section : option string) (s : string) : bool :=
  match section with
  | Some x => String.eqb x s
  | None => false
  end.

(** One iteration of [for (const line of lines)]. *)
Definition step (st : state) (line : string) : state :=
  let '(section, result) := st in
  let trimmed := trim line in
  if test header_pattern trimmed then
    (Some (toLowerCase (hd EmptyString (split ":"%char trimmed))), result)
  else if String.eqb trimmed EmptyString then st
  else if section_is section "commands" then
    match search command_pattern line with
    | Some c =>
        match group 1 c, group 2 c with
        | Some n, Some d => (section, push_command result {| name := n; desc := d |})
        | _, _ => st
        end
    | None => st
    end
  else if section_is section "options" || section_is section "flags" then
    match search flag_pattern line with
    | Some c =>
        match group 1 c, group 2 c with
        | Some alts, Some d =>
            let names := map trim (split ","%char alts) in
            (section, push_flag result {| name := primary names; desc := d |})
        | _, _ => st
        end
    | None => st
    end
  else st.

Definition empty : result := {| commands := []; flags := [] |}.

Definition run (st : state) (lines : list string) : state := fold_left step lines st.

Definition parseHelpOutput (output : string) : result :=
  snd (run (None, empty) (split LF output)).

End HelpParser.

(** ** The static scanner (index.js, lines 179-241) *)

Module Scanner.
Import JsString Regex.

Definition eq2or3 : re := Cat (lit "==") (opt (chr "="%char)).   (* ===? *)

(** [commandPatterns]; Q stands for the class of the three quote
    characters:
    - [/case\s+[Q](\w+)[Q]\s*:/g]
    - [/args\[0\]\s*===?\s*[Q](\w+)[Q]/g]
    - [/command\s*===?\s*[Q](\w+)[Q]/g]
    - [/if\s*\(\s*\w+\s*===?\s*[Q](\w+)[Q]\s*\)/g] *)
Definition commandPatterns : list re :=
  [ seq [lit "case"; plus space; quote; Group 1 (plus word); quote; Star space;
         chr ":"%char];
    seq [lit "args[0]"; Star space; eq2or3; Star space; quote;
         Group 1 (plus word); quote];
    seq [lit "command"; Star space; eq2or3; Star space; quote;
         Group 1 (plus word); quote];
    seq [lit "if"; Star space; chr "("%char; Star space; plus word; Star space;
         eq2or3; Star space; quote; Group 1 (plus word); quote; Star space;
         chr ")"%char] ].

(** [flagPatterns]:
    - [/(?:===|==|case|includes\(|indexOf\()\s*[Q](-{1,2}[\w-]+)[Q]/g]
    - [/(?:argv|opts|flags)\.([a-zA-Z0-9_]+)/g] *)
Definition flagPatterns : list re :=
  [ seq [alt [lit "==="; lit "=="; lit "case"; lit "includes("; lit "indexOf("];
         Star space; quote;
         Group 1 (Cat (one_or_two (chr "-"%char)) (plus HelpParser.word_or_dash));
         quote];
    seq [alt [lit "argv"; lit "opts"; lit "flags"]; chr "."%char;
         Group 1 (plus word)] ].

(** The generic tokens that are no commands (line 206). *)
Definition command_stoplist : list string :=
  ["help"; "version"; "default"; "true"; "false"; "command"; "cmd"; "action";
   "error"; "exit"].

(** The first rejection list of line 226. *)
Definition flag_rejects : list string :=
  ["--"; "-"; "-1"; "---"; "--help"; "-h"; "--push"; "--pop"; "--shift";
   "--unshift"; "--slice"; "--splice"; "--map"; "--filter"; "--reduce";
   "--forEach"; "--find"; "--join"; "--includes"; "--indexOf"; "--toString";
   "--length"; "--concat"].

(** The placeholder names of line 227. *)
Definition flag_placeholders : list string :=
  ["--flag"; "--cmd"; "--opt"; "--arg"; "--args"; "--foo"; "--bar"].

(** [/^-{1,2}[a-zA-Z]/] *)
Definition flag_shape : re :=
  seq [Bol; one_or_two (chr "-"%char); Class is_letter].

(** [/Usage:\s*(.+)/i] *)
Definition usage_pattern : re :=
  seq [lit_i "Usage:"; Star space; Group 1 (plus dot)].

(** A [Set] of strings in insertion order. *)
Definition set_add (x : string) (s : list string) : list string :=
  if includes s x then s else s ++ [x].

(** The test of line 206 on [match[1]]. *)
Definition command_accepted (cmd : string) : bool :=
  negb (String.eqb cmd EmptyString)
  && negb (includes command_stoplist (toLowerCase cmd)).

(** Lines 222-225: a property name gets its dashes. *)
Definition normalize_flag (flag : string) : string :=
  if negb (startsWith "-" flag) then
    if String.length flag =? 1 then "-" ++ flag else "--" ++ flag
  else flag.

(** Lines 226-231 on the normalized flag. *)
Definition flag_accepted (flag : string) : bool :=
  if negb (String.eqb flag EmptyString) && negb (includes flag_rejects flag) then
    if includes flag_placeholders flag then false
    else test flag_shape flag
  else false.

(** The body of the [while] loop over the matches of one command pattern. *)
Definition add_command (staticCommands : list string) (c : caps) : list string :=
  match group 1 c with
  | Some cmd => if command_accepted cmd then set_add cmd staticCommands
                else staticCommands
  | None => staticCommands
  end.

Definition add_flag (staticFlags : list string) (c : caps) : list string :=
  match group 1 c with
  | Some f =>
      let flag := normalize_flag f in
      if flag_accepted flag then set_add flag staticFlags else staticFlags
  | None => staticFlags
  end.

(** [for (const pattern of commandPatterns) while (...) ...] on one text. *)
Definition scan_commands (staticCommands : list string) (code : string) : list string :=
  fold_left (fun acc pattern => fold_left add_command (exec_all pattern code) acc)
            commandPatterns staticCommands.

Definition scan_flags (staticFlags : list string) (code : string) : list string :=
  fold_left (fun acc pattern => fold_left add_flag (exec_all pattern code) acc)
            flagPatterns staticFlags.

(** Lines 235-238. *)
Definition scan_usage (usage : list string) (code : string) : list string :=
  match search usage_pattern code with
  | Some c =>
      match group 1 c with
      | Some u => usage ++ [trim u]
      | None => usage
      end
  | None => usage
  end.

(** What the loop over the files accumulates. *)
Record findings : Type :=
  { staticCommands : list string; staticFlags : list string; usage : list string }.

Definition no_findings : findings :=
  {| staticCommands := []; staticFlags := []; usage := [] |}.

(** The body of the [try] for one file that was read. *)
Definition scan_text (f : findings) (code : string) : findings :=
  {| staticCommands := scan_commands (staticCommands f) code;
     staticFlags := scan_flags (staticFlags f) code;
     usage := scan_usage (usage f) code |}.

(** One entry of [filesToAnalyze]: [None] for a path that does not exist,
    [Some None] for a file whose reading throws (caught, nothing is kept),
    [Some (Some code)] for a text. *)
Definition scan_file (f : findings) (file : option (option string)) : findings :=
  match file with
  | Some (Some code) => scan_text f code
  | _ => f
  end.

Definition scan_files (files : list (option (option string))) : findings :=
  fold_left scan_file files no_findings.

End Scanner.

(** ** The merge of the two findings (index.js, lines 243-264) *)

Module Merge.
Import JsString.

(** A [Map] from names to descriptions, in insertion order: [set] on a key
    already present replaces the value where the key stands. *)
Fixpoint map_set (k v : string) (m : list (string * string)) : list (string * string) :=
  match m with
  | [] => [(k, v)]
  | (k', v') :: m' =>
      if String.eqb k k' then (k, v) :: m' else (k', v') :: map_set k v m'
  end.

Fixpoint map_get (k : string) (m : list (string * string)) : option string :=
  match m with
  | [] => None
  | (k', v') :: m' => if String.eqb k k' then Some v' else map_get k m'
  end.

(** [staticCommands.forEach(cmd => commandMap.set(cmd, ''))] *)
Definition seed (static : list string) (m : list (string * string)) :=
  fold_left (fun acc cmd => map_set cmd EmptyString acc) static m.

(** [dynamicData.commands.forEach(cmd => commandMap.set(cmd.name, cmd.desc))] *)
Definition overlay (dynamic : list entry) (m : list (string * string)) :=
  fold_left (fun acc cmd => map_set (name cmd) (desc cmd) acc) dynamic m.

(** [commandMap] and [flagMap] once both loops have run. *)
Definition commandMap (static : list string) (dynamic : list entry) :=
  overlay dynamic (seed static []).

(** [Array.from(m.entries()).map(([name, desc]) => ({ name, desc }))] *)
Definition entries (m : list (string * string)) : list entry :=
  map (fun kv => {| name := fst kv; desc := snd kv |}) m.

Section Sorting.

(** [String.prototype.localeCompare]: the collation of the runtime's
    locale, which is no part of the sources; a negative, zero or positive
    number. *)
Variable localeCompare : string -> string -> Z.

(** The comparator of line 253: [(a, b) => a.name.localeCompare(b.name)]. *)
Definition by_name (a b : entry) : Z := localeCompare (name a) (name b).

(** One record stands at or before another in the comparator's order. *)
Definition at_or_before (a b : entry) : Prop := (by_name a b <= 0)%Z.

Definition strictly_before (a b : entry) : Prop := (by_name a b < 0)%Z.

(** [Array.prototype.sort] is stable, and on a consistent comparator its
    result is the one stable arrangement, which insertion computes: an
    element goes before the first one it does not come after. *)
Fixpoint insert (x : entry) (l : list entry) : list entry :=
  match l with
  | [] => [x]
  | y :: l' => if (by_name x y <=? 0)%Z then x :: l else y :: insert x l'
  end.

Fixpoint sort (l : list entry) : list entry :=
  match l with
  | [] => []
  | x :: l' => insert x (sort l')
  end.

(** [analysis.commands] (lines 245-253) and [analysis.flags] (256-264). *)
Definition merge (static : list string) (dynamic : list entry) : list entry :=
  sort (entries (commandMap static dynamic)).

End Sorting.

(** Code-unit (ordinal) comparison of two names. *)
Fixpoint ordinal_ltb (a b : string) : bool :=
  match a, b with
  | _, EmptyString => false
  | EmptyString, String _ _ => true
  | String x a', String y b' =>
      (code x <? code y) || ((code x =? code y) && ordinal_ltb a' b')
  end.

(** Strictly ascending in code-unit order. *)
Fixpoint ordinal_ascending (l : list entry) : bool :=
  match l with
  | [] => true
  | x :: l' =>
      match l' with
      | [] => true
      | y :: _ => ordinal_ltb (name x) (name y) && ordinal_ascending l'
      end
  end.

(** *** A collation for the names the program finds

    Names come out of the capture groups of the scanner and of the help
    parser, which admit letters, digits, the underscore and the dash. On
    these the collations of the locales order as follows: first by the
    letters and digits whatever their case (punctuation before digits,
    digits before letters, letters in alphabetical order), and on a tie the
    first difference of case decides, the small letter coming first. The
    sort key of a name lists the first-level weights, a separator below
    them all, and the case weights; keys compare weight by weight. Other
    code units are ordered after the letters by their code. *)

Definition primary_weight (a : ascii) : nat :=
  if code a =? 95 then 1                      (* _ *)
  else if code a =? 45 then 2                 (* - *)
  else if is_digit a then 10 + (code a - 48)
  else if is_upper a then 100 + (code a - 65)
  else if is_lower a then 100 + (code a - 97)
  else 1000 + code a.

Definition case_weight (a : ascii) : nat := if is_upper a then 1 else 0.

Definition sort_key (s : string) : list nat :=
  let l := list_ascii_of_string s in
  map primary_weight l ++ 0 :: map case_weight l.

Fixpoint compare_keys (a b : list nat) : Z :=
  match a, b with
  | [], [] => 0
  | [], _ :: _ => -1
  | _ :: _, [] => 1
  | x :: a', y :: b' =>
      if x <? y then -1
      else if y <? x then 1
      else compare_keys a' b'
  end.

Definition collate (a b : string) : Z := compare_keys (sort_key a) (sort_key b).

End Merge.

(** ** The analysis record (index.js, lines 82-96) *)

Module Analysis.
Import Js.

Record t : Type :=
  { name : value; description : value; version : value; license : value;
    author : value; scripts : value; bin : value; keywords : value;
    main : value;
    commands : list entry; flags : list entry; usage : list string;
    github : option RepositoryRef }.

End Analysis.

(** ** The renderer (index.js, lines 278-370) *)

Module Renderer.
Import JsString Js.
Local Open Scope string_scope.

Definition nl : string := String "010"%char EmptyString.
Definition fence : string := "```".
Definition copyright : string := String (ascii_of_nat 169) EmptyString.

Definition badge (kind path : string) (g : RepositoryRef) : string :=
  "![" ++ kind ++ "](https://img.shields.io/github/" ++ path ++ "/"
       ++ user g ++ "/" ++ repo g ++ ")" ++ nl.

(** One row of the commands or of the options table. *)
Definition row (e : entry) : string :=
  "| `" ++ name e ++ "` | " ++ desc e ++ " |" ++ nl.

Definition table (title head rule : string) (l : list entry) : string :=
  match l with
  | [] => EmptyString
  | _ => "### " ++ title ++ nl ++ nl ++ head ++ nl ++ rule ++ nl
         ++ concat EmptyString (map row l) ++ nl
  end.

Definition readme (badges : bool) (a : Analysis.t) (binCommands : list string)
  : res string :=
  let title := to_string (Analysis.name a) in
  script_names <- object_keys (Analysis.scripts a) ;;
  Ok (
    (* Title, description *)
    "# " ++ title ++ nl ++ nl
    ++ to_string (Analysis.description a) ++ nl ++ nl
    (* Badges *)
    ++ match Analysis.github a with
       | Some g =>
           if badges then
             badge "License" "license" g ++ badge "Version" "package-json/v" g
             ++ badge "Stars" "stars" g ++ nl
           else EmptyString
       | None => EmptyString
       end
    (* Installation *)
    ++ "## Installation" ++ nl ++ nl
    ++ fence ++ "bash" ++ nl
    ++ match binCommands with
       | _ :: _ => "npm install -g " ++ title ++ nl ++ "# or" ++ nl
                   ++ "npx " ++ title ++ nl
       | [] => "npm install " ++ title ++ nl
       end
    ++ fence ++ nl ++ nl
    (* Usage *)
    ++ "## Usage" ++ nl ++ nl
    ++ match binCommands with
       | mainBin :: _ => fence ++ "bash" ++ nl ++ mainBin ++ " --help" ++ nl
                         ++ fence ++ nl ++ nl
       | [] => EmptyString
       end
    (* Commands, flags *)
    ++ table "Commands" "| Command | Description |" "|---------|-------------|"
             (Analysis.commands a)
    ++ table "Options" "| Option | Description |" "|--------|-------------|"
             (Analysis.flags a)
    (* Examples *)
    ++ "## Examples" ++ nl ++ nl
    ++ fence ++ "bash" ++ nl
    ++ match binCommands with
       | mainBin :: _ =>
           match Analysis.commands a with
           | c :: _ =>
               "# " ++ (if String.eqb (desc c) EmptyString then name c
                        else desc c) ++ nl
               ++ mainBin ++ " " ++ name c ++ nl
           | [] => mainBin ++ nl
           end
       | [] => "node " ++ to_string (Analysis.main a) ++ nl
       end
    ++ fence ++ nl ++ nl
    (* Scripts *)
    ++ match filter (fun s => negb (includes ["test"] s)) script_names with
       | [] => EmptyString
       | usefulScripts =>
           "## Development" ++ nl ++ nl
           ++ fence ++ "bash" ++ nl
           ++ concat EmptyString
                (map (fun script => "npm run " ++ script ++ nl)
                     (firstn 3 usefulScripts))
           ++ fence ++ nl ++ nl
       end
    (* License *)
    ++ "## License" ++ nl ++ nl
    ++ to_string (Analysis.license a)
    ++ (if truthy (Analysis.author a)
        then " " ++ copyright ++ " " ++ to_string (Analysis.author a)
        else EmptyString)
    ++ nl).

End Renderer.

(** ** Paths (the POSIX flavour of node's [path]) *)

Module Path.
Import JsString.
Local Open Scope string_scope.

Definition slash : ascii := "/"%char.

(** [normalizeString] on the segments of an absolute path: an empty
    segment and [.] are dropped, [..] takes back the segment before it, and
    at the root there is nothing to take back. [kept] holds the segments
    kept so far, the last one first. *)
Fixpoint walk (kept segments : list string) : list string :=
  match segments with
  | [] => rev kept
  | seg :: rest =>
      if String.eqb seg EmptyString || String.eqb seg "." then walk kept rest
      else if String.eqb seg ".." then walk (tl kept) rest
      else walk (seg :: kept) rest
  end.

Definition ends_with_slash (p : string) : bool :=
  match rev (split slash p) with
  | final :: _ :: _ => String.eqb final EmptyString
  | _ => false
  end.

(** [path.normalize] of an absolute path: a trailing separator is kept. *)
Definition normalize (p : string) : string :=
  match walk [] (split slash p) with
  | [] => "/"
  | segs => "/" ++ JsString.join "/" segs
            ++ (if ends_with_slash p then "/" else EmptyString)
  end.

(** [path.join(dir, p)] for an absolute [dir]: an empty argument is left
    out, the others are joined by a separator and normalized. *)
Definition join (dir p : string) : string :=
  if String.eqb p EmptyString then normalize dir
  else normalize (dir ++ "/" ++ p).

(** [path.resolve(p)]: a relative path starts at the working directory;
    the result is absolute and normalized and has no trailing separator. *)
Definition resolve (cwd p : string) : string :=
  let full := if startsWith "/" p then p else cwd ++ "/" ++ p in
  match walk [] (split slash full) with
  | [] => "/"
  | segs => "/" ++ JsString.join "/" segs
  end.

(** [path.basename(p)]: the last segment, trailing separators aside. *)
Definition basename (p : string) : string :=
  last (filter (fun seg => negb (String.eqb seg EmptyString)) (split slash p))
       EmptyString.

End Path.

(** ** The command line (index.js, top to bottom) *)

Module Cli.
Import JsString Js.

(** The target directory as the run finds it: [absPath] is its absolute
    path, which is [path.resolve] of the target. The files are named by
    their absolute paths, as [path.join] gives them. [package_json] is
    [None] when the file is absent, [Some None] when [JSON.parse] throws
    and [Some (Some v)] for the parsed value; [git_config] and [file]
    likewise for a file that is absent, one whose reading throws, and a
    text. [help_stdout] is [result.stdout] of [node <main> --help] ([None]
    for [null]); the probed program is taken not to touch the directory. *)
Record directory : Type :=
  { absPath : string;
    readme_md : option string;
    package_json : option (option value);
    git_config : option (option string);
    file : string -> option (option string);
    help_stdout : string -> option string }.

(** [process.cwd()] and the file system: [resolve w target] is the
    directory at [path.resolve(target)], if there is one. *)
Record world : Type :=
  { cwd : string; resolve : string -> option directory }.

(** What the run prints. *)
Inductive event : Type :=
| Help                                   (* the help text, line 22 *)
| Error (message : string)               (* console.error *)
| Json (a : Analysis.t)                  (* JSON.stringify(analysis, null, 2) *)
| Text (readme : string)                 (* console.log(readme) *)
| Summary (bytes : nat) (a : Analysis.t) (* lines 377-384 *).

(** How the run ends: at a [process.exit(code)] of the program, or at the
    end of the script (code 0), with what was printed and what
    [fs.writeFileSync(readmePath, ...)] wrote, if it was called; or with an
    exception nobody catches, which node reports on the standard error
    before it ends the process with status 1. *)
Inductive outcome : Type :=
| Exit (code : Z) (out : event) (written : option string)
| Uncaught (e : string).

(** The exit status of the process. *)
Definition exit_status (o : outcome) : Z :=
  match o with
  | Exit code _ _ => code
  | Uncaught _ => 1
  end.

(** Lines 10-16: the object has these five properties and no other. *)
Definition flags (args : list string) : list (string * bool) :=
  [ ("help", includes args "--help" || includes args "-h");
    ("json", includes args "--json" || includes args "-j");
    ("force", includes args "--force" || includes args "-f");
    ("stdout", includes args "--stdout" || includes args "-s");
    ("badges", includes args "--badges" || includes args "-b") ].

(** [flags.k]: [undefined] for a property the object does not have. *)
Definition get (fl : list (string * bool)) (k : string) : value :=
  match assoc k fl with
  | Some b => VBool b
  | None => VUndefined
  end.

(** Line 19. *)
Definition targetDir (args : list string) (w : world) : string :=
  match find (fun a => negb (startsWith "-" a)) args with
  | Some a => if String.eqb a EmptyString then cwd w else a
  | None => cwd w
  end.

(** The condition of line 61. *)
Definition readme_guard (fl : list (string * bool)) (d : directory) : bool :=
  match readme_md d with Some _ => true | None => false end
  && negb (truthy (get fl "force"))
  && negb (truthy (get fl "stdout"))
  && negb (negb (truthy (get fl "human")) && negb (truthy (get fl "H"))).

(** The condition of line 273. *)
Definition json_gate (fl : list (string * bool)) : bool :=
  negb (truthy (get fl "human")) && negb (truthy (get fl "H")).

(** [path.join(absPath, p)]: an argument that is no string throws. *)
Definition path_join (dir : string) (p : value) : res string :=
  match p with
  | VStr s => Ok (Path.join dir s)
  | _ => Throw TypeError
  end.

Definition exists_file (d : directory) (p : string) : bool :=
  match file d p with Some _ => true | None => false end.

(** Lines 159-177. *)
Definition dynamicData (d : directory) (mainFile : string) : HelpParser.result :=
  if exists_file d mainFile then
    match help_stdout d mainFile with
    | Some out =>
        if String.eqb out EmptyString then HelpParser.empty
        else HelpParser.parseHelpOutput out
    | None => HelpParser.empty
    end
  else HelpParser.empty.

Section Run.

Variable localeCompare : string -> string -> Z.

(** Lines 82-264: the analysis of a parsed manifest. *)
Definition analyse (d : directory) (pkg : value) : res Analysis.t :=
  name <- prop pkg "name" ;;
  description <- prop pkg "description" ;;
  version <- prop pkg "version" ;;
  license <- prop pkg "license" ;;
  author <- prop pkg "author" ;;
  scripts <- prop pkg "scripts" ;;
  bin <- prop pkg "bin" ;;
  keywords <- prop pkg "keywords" ;;
  main <- prop pkg "main" ;;
  let bin := or_else bin (VObj []) in
  let main := or_else main (VStr "index.js") in
  github <- Repository.identify pkg (git_config d) ;;
  mainFile <- path_join (absPath d) main ;;
  let dynamic := dynamicData d mainFile in
  binPaths <- object_values bin ;;
  binFiles <- mapM (path_join (absPath d)) binPaths ;;
  let filesToAnalyze := fold_left (fun s p => Scanner.set_add p s) (mainFile :: binFiles) [] in
  let found := Scanner.scan_files (map (file d) filesToAnalyze) in
  Ok {| Analysis.name := or_else name (VStr (Path.basename (absPath d)));
        Analysis.description := or_else description (VStr "A CLI tool");
        Analysis.version := or_else version (VStr "1.0.0");
        Analysis.license := or_else license (VStr "MIT");
        Analysis.author := or_else author (VStr EmptyString);
        Analysis.scripts := or_else scripts (VObj []);
        Analysis.bin := bin;
        Analysis.keywords := or_else keywords (VArr []);
        Analysis.main := main;
        Analysis.commands :=
          Merge.merge localeCompare (Scanner.staticCommands found)
                      (HelpParser.commands dynamic);
        Analysis.flags :=
          Merge.merge localeCompare (Scanner.staticFlags found)
                      (HelpParser.flags dynamic);
        Analysis.usage := Scanner.usage found;
        Analysis.github := github |}.

(** Lines 266-385: after the analysis. *)
Definition output (fl : list (string * bool)) (a : Analysis.t) : res outcome :=
  binCommands <- object_keys (Analysis.bin a) ;;
  if json_gate fl then Ok (Exit 0 (Json a) None)
  else
    readme <- Renderer.readme (truthy (get fl "badges")) a binCommands ;;
    if truthy (get fl "stdout") then Ok (Exit 0 (Text readme) None)
    else Ok (Exit 0 (Summary (String.length readme) a) (Some readme)).

(** The whole run of [index.js]. *)
Definition run (args : list string) (w : world) : outcome :=
  let fl := flags args in
  if truthy (get fl "help") then Exit 0 Help None
  else
    match resolve w (targetDir args w) with
    | None =>
        Exit 1 (Error ("Error: Directory not found: "
                       ++ Path.resolve (cwd w) (targetDir args w))) None
    | Some d =>
        if readme_guard fl d then
          Exit 1 (Error "Error: README.md already exists. Use --force to overwrite or --stdout to preview.") None
        else
          match package_json d with
          | None =>
              Exit 1 (Error "Error: No package.json found. This tool requires a Node.js project.") None
          | Some None => Exit 1 (Error "Error: Invalid package.json") None
          | Some (Some pkg) =>
              match (a <- analyse d pkg ;; output fl a) with
              | Ok o => o
              | Throw e => Uncaught e
              end
          end
    end.

End Run.

End Cli.

(** ** The earlier variant of the command line

    The repository keeps an earlier, commands-only variant of the program
    next to [index.js]; its two conditions on the options are the ones
    [index.js] rewrote. *)

Module Legacy.
Import JsString Js.

(** The guard of the earlier variant:
    [fs.existsSync(readmePath) && !flags.force && !flags.stdout && !flags.json]. *)
Definition readme_guard (fl : list (string * bool)) (d : Cli.directory) : bool :=
  match Cli.readme_md d with Some _ => true | None => false end
  && negb (truthy (Cli.get fl "force"))
  && negb (truthy (Cli.get fl "stdout"))
  && negb (truthy (Cli.get fl "json")).

(** Its gate before the renderer: [if (flags.json)]. *)
Definition json_gate (fl : list (string * bool)) : bool :=
  truthy (Cli.get fl "json").

(** Its stoplist of commands, two tokens shorter. *)
Definition command_stoplist : list string :=
  ["help"; "version"; "default"; "true"; "false"; "command"; "cmd"; "action"].

(** Its loop over the matches of the same four patterns pushes on the
    array [analysis.commands]. *)
Definition add_command (commands : list string) (c : Regex.caps) : list string :=
  match Regex.group 1 c with
  | Some cmd =>
      if negb (String.eqb cmd EmptyString)
         && negb (includes command_stoplist (toLowerCase cmd))
      then commands ++ [cmd] else commands
  | None => commands
  end.

Definition scan_commands (commands : list string) (code : string) : list string :=
  fold_left (fun acc pattern =>
               fold_left add_command (Regex.exec_all pattern code) acc)
            Scanner.commandPatterns commands.

(** [[...new Set(analysis.commands)]] *)
Definition dedupe (commands : list string) : list string :=
  fold_left (fun s cmd => Scanner.set_add cmd s) commands [].

End Legacy.

(** ** The words of the specification *)

Module Spec.
Import JsString.

(** The canonical name of a flag line: the long form, starting with two
    dashes, is preferred; without one the first alternative is taken. *)
Definition canonical_name (alternatives : list string) : string :=
  match filter (startsWith "--") alternatives with
  | long :: _ => long
  | [] => hd EmptyString alternatives
  end.

(** The tokens the static flag set is said never to hold. *)
Definition never_flags : list string := ["--help"; "-h"; "-"; "--"; "---"; "-1"].

End Spec.

(** ** Inputs of the scenarios *)

Module Scenario.
Import Js.

(** [{"name":"tool","bin":{"tool":"cli.js"}}] *)
Definition tool_pkg : value :=
  VObj [("name", VStr "tool"); ("bin", VObj [("tool", VStr "cli.js")])].

Definition cli_js : string :=
  "switch (process.argv[2]) { case 'build': build(); break; }".

(** A directory with the manifest and [cli.js], and no README. *)
Definition tool_dir : Cli.directory :=
  {| Cli.absPath := "/work/project";
     Cli.readme_md := None;
     Cli.package_json := Some (Some tool_pkg);
     Cli.git_config := None;
     Cli.file := fun p => if String.eqb p "/work/project/cli.js"
                          then Some (Some cli_js) else None;
     Cli.help_stdout := fun _ => None |}.

(** The same directory once a README is there. *)
Definition tool_dir_with_readme : Cli.directory :=
  {| Cli.absPath := "/work/project";
     Cli.readme_md := Some "# tool";
     Cli.package_json := Some (Some tool_pkg);
     Cli.git_config := None;
     Cli.file := fun p => if String.eqb p "/work/project/cli.js"
                          then Some (Some cli_js) else None;
     Cli.help_stdout := fun _ => None |}.

Definition world_of (d : Cli.directory) : Cli.world :=
  {| Cli.cwd := "/work/project"; Cli.resolve := fun _ => Some d |}.

(** What the analysis of [tool_dir] holds. *)
Definition tool_analysis : Analysis.t :=
  {| Analysis.name := VStr "tool";
     Analysis.description := VStr "A CLI tool";
     Analysis.version := VStr "1.0.0";
     Analysis.license := VStr "MIT";
     Analysis.author := VStr EmptyString;
     Analysis.scripts := VObj [];
     Analysis.bin := VObj [("tool", VStr "cli.js")];
     Analysis.keywords := VArr [];
     Analysis.main := VStr "index.js";
     Analysis.commands := [{| name := "build"; desc := EmptyString |}];
     Analysis.flags := [];
     Analysis.usage := [];
     Analysis.github := None |}.

(** [{"name":"tool","repository":{"url":42}}] *)
Definition numeric_url_pkg : value :=
  VObj [("name", VStr "tool"); ("repository", VObj [("url", VNum 42)])].

Definition numeric_url_dir : Cli.directory :=
  {| Cli.absPath := "/work/project";
     Cli.readme_md := None;
     Cli.package_json := Some (Some numeric_url_pkg);
     Cli.git_config := None;
     Cli.file := fun _ => None;
     Cli.help_stdout := fun _ => None |}.

(** [{"repository":"https://github.com/acme/widgets.git"}] *)
Definition acme_pkg : value :=
  VObj [("repository", VStr "https://github.com/acme/widgets.git")].

(** A source with the three labels of the stoplist scenario. *)
Definition three_cases : string :=
  "switch (cmd) {
  case 'help': usage(); break;
  case 'version': show(); break;
  case 'deploy': deploy(); break;
}".

(** A source whose checks name the tokens the scanner refuses. *)
Definition refused_tokens : string :=
  "if (args.includes('--help') || a === '-h' || b == '-' || c === '--'
    || d === '---' || e.indexOf('-1') >= 0) { opts.h; }".

End Scenario.

(** ** What the groups of a pattern can hold *)

Module Captures.
Import Regex.

(** [captured r n g]: some occurrence of group [n] in [r] can derive [g]. *)
Fixpoint captured (r : re) (n : nat) (g : string) : Prop :=
  match r with
  | Group k body =>
      (k = n /\ exists i s c c', derives body i g s c c') \/ captured body n g
  | Cat r1 r2 | Or r1 r2 => captured r1 n g \/ captured r2 n g
  | Star r1 => captured r1 n g
  | Empty | Class _ | Bol | Eol => False
  end.

(** A word character or a dash: the class [[\w-]]. *)
Definition is_word_or_dash (a : ascii) : bool :=
  JsString.is_word a || Ascii.eqb a "-"%char.

(** Every class of [r] lies within [q]. *)
Fixpoint within (q : ascii -> bool) (r : re) : Prop :=
  match r with
  | Class p => forall a, p a = true -> q a = true
  | Cat r1 r2 | Or r1 r2 => within q r1 /\ within q r2
  | Star r1 | Group _ r1 => within q r1
  | Empty | Bol | Eol => True
  end.

(** A non-empty run of word characters, as [(\w+)] captures. *)
Definition word_name (s : string) : Prop :=
  s <> EmptyString /\ JsString.all_chars JsString.is_word s = true.

(** One or two dashes, a letter, then word characters and dashes. *)
Definition flag_name (f : string) : Prop :=
  exists (a : ascii) (rest : string),
    JsString.is_letter a = true
    /\ JsString.all_chars is_word_or_dash rest = true
    /\ (f = String "-"%char (String a rest)
        \/ f = String "-"%char (String "-"%char (String a rest))).

(** A letter, a digit or a dash: the class [[a-zA-Z0-9-]]. *)
Definition is_alnum_or_dash (a : ascii) : bool :=
  JsString.is_letter a || JsString.is_digit a || Ascii.eqb a "-"%char.

(** A word character, then word characters and dashes. *)
Definition command_name (s : string) : Prop :=
  exists (a : ascii) (rest : string),
    s = String a rest /\ JsString.is_word a = true
    /\ JsString.all_chars is_word_or_dash rest = true.

(** A dash, then at least one letter, digit or dash. *)
Definition dashed_name (s : string) : Prop :=
  exists rest : string,
    s = String "-"%char rest /\ rest <> EmptyString
    /\ JsString.all_chars is_alnum_or_dash rest = true.

(** A text that is not empty and holds no line terminator. *)
Definition one_line (s : string) : Prop :=
  s <> EmptyString
  /\ JsString.all_chars (fun a => negb (JsString.is_line_terminator a)) s = true.

(** Taking apart what [captured] says of a pattern. *)
Ltac split_captured H :=
  repeat match type of H with
         | _ \/ _ => destruct H as [H|H]
         | False => destruct H
         end.

End Captures.

(** ** Manifests on which the analysis runs through *)

Module Manifest.
Import Js.

(** [pkg.k] of a parsed manifest that is not [null]. *)
Definition field (pkg : value) (k : string) : value :=
  match pkg with
  | VObj l => match assoc k l with Some v => v | None => VUndefined end
  | _ => VUndefined
  end.

Definition is_text (v : value) : bool :=
  match v with VStr _ => true | _ => false end.

(** The [url] of an object-valued [repository] is a string, [null] or
    missing. *)
Definition url_readable (repository : value) : bool :=
  match repository with
  | VObj l =>
      match assoc "url" l with
      | Some u => negb (Repository.has_no_match_method u)
      | None => true
      end
  | _ => true
  end.

(** The manifest is not [null], the [url] of its repository is readable,
    its [main] is a string when it is given (truthy), and so is every
    value of its [bin]. *)
Definition well_formed (pkg : value) : bool :=
  match pkg with
  | VNull | VUndefined => false
  | _ =>
      url_readable (field pkg "repository")
      && is_text (or_else (field pkg "main") (VStr "index.js"))
      && match object_values (or_else (field pkg "bin") (VObj [])) with
         | Ok l => forallb is_text l
         | Throw _ => false
         end
  end.

End Manifest.

(** ** The whole run of the earlier variant

    The earlier variant reads the options and the manifest as [index.js]
    does and identifies the repository with the same code. It does not
    probe the program and finds no flags; its commands are strings, kept
    in the order of their first occurrence. *)

Module LegacyCli.
Import JsString Js.

(** Its [analysis] object. *)
Record analysis : Type :=
  { name : value; description : value; version : value; license : value;
    author : value; scripts : value; bin : value; keywords : value;
    main : value;
    commands : list string; usage : list string;
    github : option RepositoryRef }.

Inductive event : Type :=
| Help
| Error (message : string)
| Json (a : analysis)
| Text (readme : string)
| Summary (bytes : nat) (a : analysis).

Inductive outcome : Type :=
| Exit (code : Z) (out : event) (written : option string)
| Uncaught (e : string).

(** What the loop over the files accumulates. *)
Definition scan_file (acc : list string * list string)
           (file : option (option string)) : list string * list string :=
  match file with
  | Some (Some code) =>
      (Legacy.scan_commands (fst acc) code, Scanner.scan_usage (snd acc) code)
  | _ => acc
  end.

Definition analyse (d : Cli.directory) (pkg : value) : res analysis :=
  name <- prop pkg "name" ;;
  description <- prop pkg "description" ;;
  version <- prop pkg "version" ;;
  license <- prop pkg "license" ;;
  author <- prop pkg "author" ;;
  scripts <- prop pkg "scripts" ;;
  bin <- prop pkg "bin" ;;
  keywords <- prop pkg "keywords" ;;
  main <- prop pkg "main" ;;
  let bin := or_else bin (VObj []) in
  let main := or_else main (VStr "index.js") in
  github <- Repository.identify pkg (Cli.git_config d) ;;
  mainFile <- Cli.path_join (Cli.absPath d) main ;;
  binPaths <- object_values bin ;;
  binFiles <- mapM (Cli.path_join (Cli.absPath d)) binPaths ;;
  let filesToAnalyze :=
    fold_left (fun s p => Scanner.set_add p s) (mainFile :: binFiles) [] in
  let found := fold_left scan_file (map (Cli.file d) filesToAnalyze) ([], []) in
  Ok {| name := or_else name (VStr (Path.basename (Cli.absPath d)));
        description := or_else description (VStr "A CLI tool");
        version := or_else version (VStr "1.0.0");
        license := or_else license (VStr "MIT");
        author := or_else author (VStr EmptyString);
        scripts := or_else scripts (VObj []);
        bin := bin;
        keywords := or_else keywords (VArr []);
        main := main;
        commands := Legacy.dedupe (fst found);
        usage := snd found;
        github := github |}.

Local Open Scope string_scope.

Definition row (cmd : string) : string := "| `" ++ cmd ++ "` | |" ++ Renderer.nl.

(** The renderer of the earlier variant. *)
Definition readme (badges : bool) (a : analysis) (binCommands : list string)
  : res string :=
  let nl := Renderer.nl in
  let fence := Renderer.fence in
  let title := to_string (name a) in
  script_names <- object_keys (scripts a) ;;
  Ok (
    "# " ++ title ++ nl ++ nl
    ++ to_string (description a) ++ nl ++ nl
    ++ match github a with
       | Some g =>
           if badges then
             Renderer.badge "License" "license" g
             ++ Renderer.badge "Version" "package-json/v" g
             ++ Renderer.badge "Stars" "stars" g ++ nl
           else EmptyString
       | None => EmptyString
       end
    ++ "## Installation" ++ nl ++ nl
    ++ fence ++ "bash" ++ nl
    ++ match binCommands with
       | _ :: _ => "npm install -g " ++ title ++ nl ++ "# or" ++ nl
                   ++ "npx " ++ title ++ nl
       | [] => "npm install " ++ title ++ nl
       end
    ++ fence ++ nl ++ nl
    ++ "## Usage" ++ nl ++ nl
    ++ match binCommands with
       | mainBin :: _ => fence ++ "bash" ++ nl ++ mainBin ++ " --help" ++ nl
                         ++ fence ++ nl ++ nl
       | [] => EmptyString
       end
    ++ match commands a with
       | [] => EmptyString
       | _ => "### Commands" ++ nl ++ nl
              ++ "| Command | Description |" ++ nl
              ++ "|---------|-------------|" ++ nl
              ++ concat EmptyString (map row (commands a)) ++ nl
       end
    ++ "## Examples" ++ nl ++ nl
    ++ fence ++ "bash" ++ nl
    ++ match binCommands with
       | mainBin :: _ =>
           match commands a with
           | c :: _ => "# " ++ c ++ nl ++ mainBin ++ " " ++ c ++ nl
           | [] => mainBin ++ nl
           end
       | [] => "node " ++ to_string (main a) ++ nl
       end
    ++ fence ++ nl ++ nl
    ++ match filter (fun s => negb (includes ["test"] s)) script_names with
       | [] => EmptyString
       | usefulScripts =>
           "## Development" ++ nl ++ nl
           ++ fence ++ "bash" ++ nl
           ++ concat EmptyString
                (map (fun script => "npm run " ++ script ++ nl)
                     (firstn 3 usefulScripts))
           ++ fence ++ nl ++ nl
       end
    ++ "## License" ++ nl ++ nl
    ++ to_string (license a)
    ++ (if truthy (author a)
        then " " ++ Renderer.copyright ++ " " ++ to_string (author a)
        else EmptyString)
    ++ nl).

Definition already_exists : string :=
  "Error: README.md already exists. Use --force to overwrite or --stdout to preview.".

Definition output (fl : list (string * bool)) (a : analysis) : res outcome :=
  binCommands <- object_keys (bin a) ;;
  if Legacy.json_gate fl then Ok (Exit 0 (Json a) None)
  else
    text <- readme (truthy (Cli.get fl "badges")) a binCommands ;;
    if truthy (Cli.get fl "stdout") then Ok (Exit 0 (Text text) None)
    else Ok (Exit 0 (Summary (String.length text) a) (Some text)).

Definition run (args : list string) (w : Cli.world) : outcome :=
  let fl := Cli.flags args in
  if truthy (Cli.get fl "help") then Exit 0 Help None
  else
    match Cli.resolve w (Cli.targetDir args w) with
    | None =>
        Exit 1 (Error ("Error: Directory not found: "
                       ++ Path.resolve (Cli.cwd w) (Cli.targetDir args w))) None
    | Some d =>
        if Legacy.readme_guard fl d then Exit 1 (Error already_exists) None
        else
          match Cli.package_json d with
          | None =>
              Exit 1 (Error "Error: No package.json found. This tool requires a Node.js project.") None
          | Some None => Exit 1 (Error "Error: Invalid package.json") None
          | Some (Some pkg) =>
              match (a <- analyse d pkg ;; output fl a) with
              | Ok o => o
              | Throw e => Uncaught e
              end
          end
    end.

End LegacyCli.

Module LegacyScenario.
Import Js.

(** What the earlier variant finds in [Scenario.tool_dir]. *)
Definition tool_analysis : LegacyCli.analysis :=
  {| LegacyCli.name := VStr "tool";
     LegacyCli.description := VStr "A CLI tool";
     LegacyCli.version := VStr "1.0.0";
     LegacyCli.license := VStr "MIT";
     LegacyCli.author := VStr EmptyString;
     LegacyCli.scripts := VObj [];
     LegacyCli.bin := VObj [("tool", VStr "cli.js")];
     LegacyCli.keywords := VArr [];
     LegacyCli.main := VStr "index.js";
     LegacyCli.commands := ["build"];
     LegacyCli.usage := [];
     LegacyCli.github := None |}.

End LegacyScenario.

(** ** The texts the patterns look for *)

Module Shape.
Import JsString Captures.

(** What follows a run of a class: nothing, or a character outside it. *)
Definition off (p : ascii -> bool) (rest : string) : Prop :=
  match rest with
  | EmptyString => True
  | String a _ => p a = false
  end.

(** A non-empty run of white space. *)
Definition blank (s : string) : Prop :=
  s <> EmptyString /\ all_chars is_space s = true.

(** White space of two characters or more. *)
Definition indentation (s : string) : Prop :=
  2 <= String.length s /\ all_chars is_space s = true.

(** One line of text that does not begin with white space. *)
Definition description_text (s : string) : Prop :=
  one_line s /\ off is_space s.

(** The words that open a section of a help text. *)
Definition keywords : list string := ["commands"; "usage"; "options"; "flags"].

(** The header of a section: the word of the section in any letter case,
    then a colon, before anything. *)
Definition header_of (section t : string) : Prop :=
  exists keyword rest : string,
    t = (keyword ++ String ":"%char rest)%string
    /\ all_chars is_letter keyword = true
    /\ toLowerCase keyword = section.

(** A line of a text that was split at the line feeds. *)
Definition no_line_feed (line : string) : Prop :=
  all_chars (fun a => negb (Ascii.eqb a HelpParser.LF)) line = true.

End Shape.

(** A line that documents a flag: the indentation, the first alternative,
    the further alternatives, each with the white space after its comma,
    the white space before the description, and the description. *)
Module FlagLine.
Import JsString Regex Captures Shape.
Local Open Scope string_scope.

Record t : Type :=
  { indent : string;
    first : string;
    more : list (string * string);
    gap : string;
    description : string }.

Definition further (l : list (string * string)) : string :=
  fold_right (fun sn acc => "," ++ fst sn ++ snd sn ++ acc) EmptyString l.

Definition alternatives (l : t) : string := first l ++ further (more l).

Definition names (l : t) : list string := first l :: map snd (more l).

Definition text (l : t) : string :=
  indent l ++ alternatives l ++ gap l ++ description l.

Definition well_formed (l : t) : Prop :=
  indentation (indent l)
  /\ dashed_name (first l)
  /\ Forall (fun sn => blank (fst sn) /\ dashed_name (snd sn)) (more l)
  /\ blank (gap l)
  /\ description_text (description l).

(** The record the line stands for: the long form among its names when
    there is one, the first name otherwise. *)
Definition record (l : t) : entry :=
  {| name := Spec.canonical_name (names l); desc := description l |}.

(** One further alternative in the flag pattern: the body of its star. *)
Definition segment : re :=
  seq [chr ","%char; plus space; chr "-"%char; plus HelpParser.alnum_or_dash].

End FlagLine.

(** A line that documents a command: the indentation, the token, the
    white space before the description, and the description. *)
Module CommandLine.
Import JsString Captures Shape.
Local Open Scope string_scope.

Record t : Type :=
  { indent : string; token : string; gap : string; description : string }.

Definition text (l : t) : string :=
  indent l ++ token l ++ gap l ++ description l.

Definition well_formed (l : t) : Prop :=
  indentation (indent l)
  /\ command_name (token l)
  /\ blank (gap l)
  /\ description_text (description l).

Definition record (l : t) : entry :=
  {| name := token l; desc := description l |}.

End CommandLine.

(** A property access [object.name] in a source text. *)
Module Access.
Import JsString Regex Captures.
Local Open Scope string_scope.


(** The second of the flag patterns. *)
Definition pattern : re := nth 1 Scanner.flagPatterns Empty.


(** The flag of a property name. *)
Definition flag_of (name : string) : string :=
  if Nat.eqb (String.length name) 1 then "-" ++ name else "--" ++ name.

(** The flag of a name is kept when the name begins with a letter and
    the flag is on neither list of the scanner. *)
Definition kept (name : string) : bool :=
  match name with
  | String a _ => is_letter a
  | EmptyString => false
  end
  && negb (includes (Scanner.flag_rejects ++ Scanner.flag_placeholders)
                    (flag_of name)).

(** [object.name] between [before] and [after]. *)
Definition text (before object name after : string) : string :=
  before ++ object ++ "." ++ name ++ after.



End Access.

(** ** The top of a README *)

Module Layout.
Import JsString Js.
Local Open Scope string_scope.

(** The installation block: the heading and a fenced block that installs
    globally, or runs through npx, when the package declares commands,
    and installs locally when it declares none. *)
Definition installation (title : string) (globally : bool) : string :=
  let nl := Renderer.nl in
  "## Installation" ++ nl ++ nl
  ++ Renderer.fence ++ "bash" ++ nl
  ++ (if globally
      then "npm install -g " ++ title ++ nl ++ "# or" ++ nl
           ++ "npx " ++ title ++ nl
      else "npm install " ++ title ++ nl)
  ++ Renderer.fence ++ nl ++ nl.

(** The three badges of a repository and the blank line after them. *)
Definition badge_block (g : RepositoryRef) : string :=
  Renderer.badge "License" "license" g
  ++ Renderer.badge "Version" "package-json/v" g
  ++ Renderer.badge "Stars" "stars" g ++ Renderer.nl.

(** Title, description, badges if any, installation. *)
Definition head (title description : string) (badges : option RepositoryRef)
           (globally : bool) : string :=
  let nl := Renderer.nl in
  "# " ++ title ++ nl ++ nl
  ++ description ++ nl ++ nl
  ++ match badges with Some g => badge_block g | None => EmptyString end
  ++ installation title globally.

(** The badges are shown when they are asked for and the repository is
    known. *)
Definition shown (asked : bool) (github : option RepositoryRef)
  : option RepositoryRef :=
  if asked then github else None.

Definition declares_commands (binCommands : list string) : bool :=
  match binCommands with [] => false | _ :: _ => true end.

(** The fields of an analysis that the renderer prints are within the
    values the embedding prints as the program does. *)
Definition printable (a : Analysis.t) : bool :=
  exact (Analysis.name a) && exact (Analysis.description a)
  && exact (Analysis.license a) && exact (Analysis.author a)
  && exact (Analysis.main a).

Definition legacy_printable (a : LegacyCli.analysis) : bool :=
  exact (LegacyCli.name a) && exact (LegacyCli.description a)
  && exact (LegacyCli.license a) && exact (LegacyCli.author a)
  && exact (LegacyCli.main a).

(** The rows of a table, one after the other, under its rule. *)
Definition rows_under (rule : string) (rows : list string) : string :=
  rule ++ Renderer.nl ++ concat EmptyString rows ++ Renderer.nl.

End Layout.

(** ** Lines of help texts used as examples *)

Module HelpScenario.

(** [  -f, --force    Overwrite the file] *)
Definition force_line : FlagLine.t :=
  {| FlagLine.indent := "  ";
     FlagLine.first := "-f";
     FlagLine.more := [(" ", "--force")];
     FlagLine.gap := "    ";
     FlagLine.description := "Overwrite the file" |}.

(** [  -q, -s  Be quiet] *)
Definition quiet_line : FlagLine.t :=
  {| FlagLine.indent := "  ";
     FlagLine.first := "-q";
     FlagLine.more := [(" ", "-s")];
     FlagLine.gap := "  ";
     FlagLine.description := "Be quiet" |}.

(** [  build    Build the site] *)
Definition build_line : CommandLine.t :=
  {| CommandLine.indent := "  ";
     CommandLine.token := "build";
     CommandLine.gap := "    ";
     CommandLine.description := "Build the site" |}.

End HelpScenario.

(** * Facts about the merge *)

Section MapFacts.
Import Merge.

Lemma map_set_keys (k v : string) (m : list (string * string)) :
  map fst (map_set k v m)
  = if in_dec string_dec k (map fst m) then map fst m else map fst m ++ [k].
Proof.
  induction m as [|[k' v'] m IH]; simpl.
  - reflexivity.
  - destruct (String.eqb_spec k k') as [Heq|Hne].
    + subst k'. simpl. destruct (string_dec k k); [reflexivity|contradiction].
    + simpl. rewrite IH.
      destruct (string_dec k' k) as [Heq|Hne']; [congruence|].
      destruct (in_dec string_dec k (map fst m)); reflexivity.
Qed.

Lemma map_set_NoDup (k v : string) (m : list (string * string)) :
  NoDup (map fst m) -> NoDup (map fst (map_set k v m)).
Proof.
  intros Hnd. rewrite map_set_keys.
  destruct (in_dec string_dec k (map fst m)) as [|Hnot]; [assumption|].
  apply NoDup_app; [assumption|repeat constructor; simpl; tauto|].
  intros x Hx [<-|[]]. contradiction.
Qed.

Lemma map_get_set_same (k v : string) (m : list (string * string)) :
  map_get k (map_set k v m) = Some v.
Proof.
  induction m as [|[k' v'] m IH]; simpl.
  - now rewrite String.eqb_refl.
  - destruct (String.eqb_spec k k') as [Heq|Hne]; simpl.
    + now rewrite String.eqb_refl.
    + destruct (String.eqb_spec k k'); [contradiction|assumption].
Qed.

Lemma map_get_set_other (k k' v : string) (m : list (string * string)) :
  k <> k' -> map_get k' (map_set k v m) = map_get k' m.
Proof.
  intros Hne. induction m as [|[k0 v0] m IH]; simpl.
  - destruct (String.eqb_spec k' k); [congruence|reflexivity].
  - destruct (String.eqb_spec k k0) as [Heq|Hne0]; simpl.
    + subst k0. destruct (String.eqb_spec k' k); [congruence|reflexivity].
    + now rewrite IH.
Qed.

Lemma map_get_In (k v : string) (m : list (string * string)) :
  NoDup (map fst m) -> (map_get k m = Some v <-> In (k, v) m).
Proof.
  induction m as [|[k0 v0] m IH]; simpl; intros Hnd.
  - split; [discriminate|tauto].
  - inversion Hnd as [|? ? Hnot Hnd']; subst.
    destruct (String.eqb_spec k k0) as [Heq|Hne].
    + subst k0. split.
      * intros [= Hv]. subst v0. now left.
      * intros [[= Hv]|Hin]; [now subst v0|].
        exfalso. apply Hnot. now apply (in_map fst) in Hin.
    + rewrite (IH Hnd'). split; [tauto|].
      intros [[= Hk Hv]|Hin]; [congruence|assumption].
Qed.

Lemma seed_NoDup (static : list string) (m : list (string * string)) :
  NoDup (map fst m) -> NoDup (map fst (seed static m)).
Proof.
  unfold seed. revert m.
  induction static as [|x static IH]; simpl; intros m Hnd; [assumption|].
  apply IH. now apply map_set_NoDup.
Qed.

Lemma overlay_NoDup (dynamic : list entry) (m : list (string * string)) :
  NoDup (map fst m) -> NoDup (map fst (overlay dynamic m)).
Proof.
  unfold overlay. revert m.
  induction dynamic as [|x dynamic IH]; simpl; intros m Hnd; [assumption|].
  apply IH. now apply map_set_NoDup.
Qed.

Lemma commandMap_NoDup (static : list string) (dynamic : list entry) :
  NoDup (map fst (commandMap static dynamic)).
Proof.
  unfold commandMap. apply overlay_NoDup, seed_NoDup. constructor.
Qed.

(** The overlay leaves a key with the description of its last record. *)
Lemma overlay_last (before after : list entry) (e : entry) (m : list (string * string)) :
  ~ In (name e) (map name after) ->
  map_get (name e) (overlay (before ++ e :: after) m) = Some (desc e).
Proof.
  intros Hnot. unfold overlay. rewrite fold_left_app. simpl.
  set (m1 := fold_left _ before m). clearbody m1.
  assert (Hget : map_get (name e) (map_set (name e) (desc e) m1) = Some (desc e))
    by apply map_get_set_same.
  revert Hget. generalize (map_set (name e) (desc e) m1) as m2.
  induction after as [|x after IH]; simpl; intros m2 Hget; [assumption|].
  apply IH.
  - intros Hin. apply Hnot. now right.
  - rewrite map_get_set_other; [assumption|].
    intros Heq. apply Hnot. now left.
Qed.

Lemma entries_names (m : list (string * string)) :
  map name (entries m) = map fst m.
Proof. unfold entries. rewrite map_map. reflexivity. Qed.

Lemma In_entries (k v : string) (m : list (string * string)) :
  In {| name := k; desc := v |} (entries m) <-> In (k, v) m.
Proof.
  unfold entries. rewrite in_map_iff. split.
  - intros [[k' v'] [[= -> ->] Hin]]. assumption.
  - intros Hin. now exists (k, v).
Qed.

(** Overlaying records of distinct, fresh names appends them in order. *)
Lemma overlay_fresh (l : list entry) (m : list (string * string)) :
  NoDup (map name l) ->
  (forall e, In e l -> ~ In (name e) (map fst m)) ->
  overlay l m = m ++ map (fun e => (name e, desc e)) l.
Proof.
  unfold overlay. revert m.
  induction l as [|x l IH]; simpl; intros m Hnd Hfresh.
  - now rewrite app_nil_r.
  - inversion Hnd as [|? ? Hnot Hnd']; subst.
    assert (Hset : map_set (name x) (desc x) m = m ++ [(name x, desc x)]).
    { assert (Hx : ~ In (name x) (map fst m)) by (apply Hfresh; now left).
      clear -Hx. induction m as [|[k v] m IHm]; simpl; [reflexivity|].
      destruct (String.eqb_spec (name x) k) as [Heq|Hne].
      - exfalso. apply Hx. now left.
      - rewrite IHm; [reflexivity|]. intros Hin. apply Hx. now right. }
    rewrite Hset, IH.
    + now rewrite <- app_assoc.
    + assumption.
    + intros e He. rewrite map_app, in_app_iff. simpl.
      intros [Hin|[Heq|[]]].
      * apply (Hfresh e); [now right|assumption].
      * apply Hnot. rewrite Heq. now apply in_map.
Qed.

Lemma entries_of_records (l : list entry) :
  entries (map (fun e => (name e, desc e)) l) = l.
Proof.
  unfold entries. rewrite map_map. simpl.
  induction l as [|[n d] l IH]; simpl; [reflexivity|now rewrite IH].
Qed.

End MapFacts.

Section SortFacts.
Import Merge.
Variable localeCompare : string -> string -> Z.

Lemma insert_perm (x : entry) (l : list entry) :
  Permutation (insert localeCompare x l) (x :: l).
Proof.
  induction l as [|y l IH]; simpl; [reflexivity|].
  destruct (by_name localeCompare x y <=? 0)%Z; [reflexivity|].
  rewrite IH. apply perm_swap.
Qed.

Lemma sort_perm (l : list entry) : Permutation (sort localeCompare l) l.
Proof.
  induction l as [|x l IH]; simpl; [reflexivity|].
  rewrite insert_perm. now constructor.
Qed.

(** A list already in order is left as it is. *)
Lemma sort_sorted_id (l : list entry) :
  Sorted (at_or_before localeCompare) l -> sort localeCompare l = l.
Proof.
  induction 1 as [|x l Hs IH Hhd]; simpl; [reflexivity|].
  rewrite IH. destruct Hhd as [|y l Hxy]; simpl; [reflexivity|].
  apply Z.leb_le in Hxy. now rewrite Hxy.
Qed.

(** The comparator is consistent: of two names one comes at or before the
    other, and coming at or before is transitive. *)
Hypothesis total : forall a b : string,
  (0 < localeCompare a b)%Z -> (localeCompare b a <= 0)%Z.
Hypothesis transitive : forall a b c : string,
  (localeCompare a b <= 0)%Z -> (localeCompare b c <= 0)%Z ->
  (localeCompare a c <= 0)%Z.

Lemma insert_Sorted (x : entry) (l : list entry) :
  Sorted (at_or_before localeCompare) l -> Sorted (at_or_before localeCompare) (insert localeCompare x l).
Proof.
  induction 1 as [|y l Hs IH Hhd]; simpl.
  - repeat constructor.
  - destruct (Z.leb_spec (by_name localeCompare x y) 0) as [Hle|Hgt].
    + repeat constructor; assumption.
    + constructor; [assumption|].
      apply total in Hgt.
      destruct Hhd as [|z l Hyz]; simpl.
      * now constructor.
      * destruct (by_name localeCompare x z <=? 0)%Z; now constructor.
Qed.

Lemma sort_Sorted (l : list entry) : Sorted (at_or_before localeCompare) (sort localeCompare l).
Proof.
  induction l as [|x l IH]; simpl; [constructor|].
  now apply insert_Sorted.
Qed.

Lemma sort_StronglySorted (l : list entry) :
  StronglySorted (at_or_before localeCompare) (sort localeCompare l).
Proof.
  apply Sorted_StronglySorted; [|apply sort_Sorted].
  intros x y z Hxy Hyz. unfold by_name in *. eapply transitive; eassumption.
Qed.

End SortFacts.

(** * The collation is a consistent comparator *)

Section CollateFacts.
Import Merge.

Lemma compare_keys_flip (a b : list nat) :
  compare_keys b a = (- compare_keys a b)%Z.
Proof.
  revert b. induction a as [|x a IH]; intros [|y b]; simpl; try reflexivity.
  destruct (Nat.ltb_spec x y), (Nat.ltb_spec y x); try reflexivity; try lia.
  apply IH.
Qed.

Lemma compare_keys_transitive (a b c : list nat) :
  (compare_keys a b <= 0)%Z -> (compare_keys b c <= 0)%Z ->
  (compare_keys a c <= 0)%Z.
Proof.
  revert b c. induction a as [|x a IH]; intros [|y b] [|z c]; simpl;
    try lia.
  destruct (Nat.ltb_spec x y), (Nat.ltb_spec y x), (Nat.ltb_spec y z),
    (Nat.ltb_spec z y), (Nat.ltb_spec x z), (Nat.ltb_spec z x);
    try lia.
  apply IH.
Qed.

Lemma collate_total (a b : string) :
  (0 < collate a b)%Z -> (collate b a <= 0)%Z.
Proof. unfold collate. rewrite (compare_keys_flip (sort_key a)). lia. Qed.

Lemma collate_transitive (a b c : string) :
  (collate a b <= 0)%Z -> (collate b c <= 0)%Z -> (collate a c <= 0)%Z.
Proof. unfold collate. apply compare_keys_transitive. Qed.

(** The two weights of a code unit tell it from every other one. *)
Lemma weights_tell_apart :
  forallb (fun n =>
    forallb (fun k =>
      implb ((primary_weight (ascii_of_nat n) =? primary_weight (ascii_of_nat k))
             && (case_weight (ascii_of_nat n) =? case_weight (ascii_of_nat k)))
            (n =? k))
      (List.seq 0 256))
    (List.seq 0 256) = true.
Proof. vm_compute. reflexivity. Qed.

Lemma weights_injective (x y : ascii) :
  primary_weight x = primary_weight y -> case_weight x = case_weight y -> x = y.
Proof.
  intros Hp Hc.
  assert (Hx : In (nat_of_ascii x) (List.seq 0 256))
    by (apply in_seq; pose proof (nat_ascii_bounded x); lia).
  assert (Hy : In (nat_of_ascii y) (List.seq 0 256))
    by (apply in_seq; pose proof (nat_ascii_bounded y); lia).
  pose proof (proj1 (forallb_forall _ _) weights_tell_apart _ Hx) as H1.
  pose proof (proj1 (forallb_forall _ _) H1 _ Hy) as H2.
  simpl in H2.
  rewrite !ascii_nat_embedding, Hp, Hc, !Nat.eqb_refl in H2. simpl in H2.
  rewrite <- (ascii_nat_embedding x), <- (ascii_nat_embedding y).
  f_equal. now apply Nat.eqb_eq.
Qed.

Lemma primary_weight_positive (a : ascii) : 0 < primary_weight a.
Proof.
  unfold primary_weight.
  repeat match goal with |- context [if ?b then _ else _] => destruct b end; lia.
Qed.

Lemma compare_keys_zero (a b : list nat) : compare_keys a b = 0%Z -> a = b.
Proof.
  revert b. induction a as [|x a IH]; intros [|y b]; simpl;
    try reflexivity; try discriminate.
  destruct (Nat.ltb_spec x y) as [Hlt|Hxy]; [discriminate|].
  destruct (Nat.ltb_spec y x) as [Hlt|Hyx]; [discriminate|].
  intros Hrest. f_equal; [lia|now apply IH].
Qed.

Lemma sort_key_parts (a b : list ascii) (ca cb : list nat) :
  map primary_weight a ++ 0 :: ca = map primary_weight b ++ 0 :: cb ->
  map primary_weight a = map primary_weight b /\ ca = cb.
Proof.
  revert b. induction a as [|x a IH]; intros [|y b]; simpl; intros H.
  - injection H as Heq. now split.
  - injection H as Hhd _. pose proof (primary_weight_positive y). lia.
  - injection H as Hhd _. pose proof (primary_weight_positive x). lia.
  - injection H as Hxy Htl. apply IH in Htl. destruct Htl as [Hm Hc].
    split; [now rewrite Hxy, Hm|assumption].
Qed.

Lemma weights_determine (a b : list ascii) :
  map primary_weight a = map primary_weight b ->
  map case_weight a = map case_weight b -> a = b.
Proof.
  revert b. induction a as [|x a IH]; intros [|y b]; simpl;
    try reflexivity; try discriminate.
  intros [= Hp Hps] [= Hc Hcs]. f_equal.
  - now apply weights_injective.
  - now apply IH.
Qed.

(** The collation holds two names equal only when they are the same. *)
Lemma collate_separates (a b : string) : collate a b = 0%Z -> a = b.
Proof.
  unfold collate, sort_key. intros H. apply compare_keys_zero in H.
  apply sort_key_parts in H. destruct H as [Hp Hc].
  rewrite <- (string_of_list_ascii_of_string a),
          <- (string_of_list_ascii_of_string b).
  f_equal. now apply weights_determine.
Qed.

End CollateFacts.

(** * The claims on the merge *)

Section MergeClaims.
Import Merge.

Lemma seed_get (k : string) (static : list string) (m : list (string * string)) :
  In k static \/ map_get k m = Some EmptyString ->
  map_get k (seed static m) = Some EmptyString.
Proof.
  unfold seed. revert m.
  induction static as [|x static IH]; simpl; intros m H.
  - destruct H as [[]|H]. assumption.
  - apply IH. destruct (string_dec x k) as [Heq|Hne].
    + right. subst x. apply map_get_set_same.
    + destruct H as [[Heq|Hin]|Hget]; [contradiction|now left|].
      right. now rewrite map_get_set_other.
Qed.

Lemma merge_In (localeCompare : string -> string -> Z)
      (static : list string) (dynamic : list entry) (r : entry) :
  In r (merge localeCompare static dynamic)
  <-> map_get (name r) (commandMap static dynamic) = Some (desc r).
Proof.
  unfold merge.
  rewrite (map_get_In _ _ _ (commandMap_NoDup static dynamic)).
  rewrite <- In_entries. destruct r as [n d]; simpl.
  split; apply Permutation_in;
    [apply sort_perm | apply Permutation_sym, sort_perm].
Qed.

Lemma merge_names_NoDup (localeCompare : string -> string -> Z)
      (static : list string) (dynamic : list entry) :
  NoDup (map name (merge localeCompare static dynamic)).
Proof.
  unfold merge.
  eapply Permutation_NoDup.
  - apply Permutation_map, Permutation_sym, sort_perm.
  - rewrite entries_names. apply commandMap_NoDup.
Qed.

(** C3. A name found by the static scan and printed by the help text: the
    static scan seeds it with the empty description, and the merged
    sequence holds it once, with the description of the dynamic record
    (the last one, should the help text name it more than once), empty or
    not. *)
Theorem dynamic_description_wins
        (localeCompare : string -> string -> Z)
        (static : list string) (before after : list entry) (e : entry) :
  In (name e) static ->
  ~ In (name e) (map name after) ->
  let merged := merge localeCompare static (before ++ e :: after) in
  map_get (name e) (seed static []) = Some EmptyString
  /\ In e merged
  /\ (forall r, In r merged -> name r = name e -> desc r = desc e).
Proof.
  intros Hstatic Hlast merged.
  assert (Hget : map_get (name e) (commandMap static (before ++ e :: after))
                 = Some (desc e))
    by (unfold commandMap; now apply overlay_last).
  split; [apply seed_get; now left|]. split.
  - apply merge_In. assumption.
  - intros r Hr Hname. apply merge_In in Hr.
    rewrite Hname, Hget in Hr. congruence.
Qed.

Lemma dynamic_description_wins_witness :
  let dynamic := [ {| name := "build"; desc := "Build the site" |};
                   {| name := "serve"; desc := EmptyString |} ] in
  In {| name := "serve"; desc := EmptyString |}
     (merge collate ["serve"; "build"] dynamic)
  /\ In {| name := "build"; desc := "Build the site" |}
        (merge collate ["serve"; "build"] dynamic).
Proof.
  split.
  - apply (dynamic_description_wins collate ["serve"; "build"]
             [ {| name := "build"; desc := "Build the site" |} ] []
             {| name := "serve"; desc := EmptyString |}).
    + simpl. tauto.
    + simpl. tauto.
  - apply (dynamic_description_wins collate ["serve"; "build"]
             [] [ {| name := "serve"; desc := EmptyString |} ]
             {| name := "build"; desc := "Build the site" |}).
    + simpl. tauto.
    + simpl. intros [H|[]]. discriminate H.
Defined.

(** C4. Merging the merged sequence again, as the dynamic records against
    no static names, gives it back. The comparator is taken consistent,
    as a collation is. *)
Theorem merge_idempotent
        (localeCompare : string -> string -> Z)
        (static : list string) (dynamic : list entry) :
  (forall a b : string,
      (0 < localeCompare a b)%Z -> (localeCompare b a <= 0)%Z) ->
  merge localeCompare [] (merge localeCompare static dynamic)
  = merge localeCompare static dynamic.
Proof.
  intros total.
  set (out := merge localeCompare static dynamic).
  unfold merge at 1. unfold commandMap. simpl.
  rewrite overlay_fresh.
  - simpl. rewrite entries_of_records.
    apply sort_sorted_id. apply sort_Sorted. assumption.
  - apply merge_names_NoDup.
  - intros e _ [].
Qed.

Lemma merge_idempotent_witness :
  merge collate []
        (merge collate ["serve"; "build"]
               [ {| name := "build"; desc := "Build the site" |} ])
  = merge collate ["serve"; "build"]
          [ {| name := "build"; desc := "Build the site" |} ].
Proof.
  apply (merge_idempotent collate). exact collate_total.
Defined.

Lemma strictly_sorted (localeCompare : string -> string -> Z) (l : list entry) :
  (forall a b : string, localeCompare a b = 0%Z -> a = b) ->
  StronglySorted (at_or_before localeCompare) l ->
  NoDup (map name l) ->
  StronglySorted (strictly_before localeCompare) l.
Proof.
  intros separates. induction 1 as [|x l Hsorted IH Hall]; simpl; intros Hnd.
  - constructor.
  - inversion Hnd as [|? ? Hnot Hnd']; subst. constructor; [now apply IH|].
    rewrite Forall_forall in *. intros y Hy.
    specialize (Hall y Hy). unfold at_or_before, strictly_before, by_name in *.
    assert (localeCompare (name x) (name y) <> 0%Z); [|lia].
    intros Hzero. apply separates in Hzero.
    apply Hnot. rewrite Hzero. now apply in_map.
Qed.

(** C5, as the code has it. The merged sequence has no name twice and is
    in the order of the comparator the sort is given, [localeCompare]:
    every record stands at or before all that follow it, and strictly
    before them when the collation tells distinct names apart. *)
Theorem merge_sorted_by_collation
        (localeCompare : string -> string -> Z)
        (static : list string) (dynamic : list entry) :
  (forall a b : string,
      (0 < localeCompare a b)%Z -> (localeCompare b a <= 0)%Z) ->
  (forall a b c : string,
      (localeCompare a b <= 0)%Z -> (localeCompare b c <= 0)%Z ->
      (localeCompare a c <= 0)%Z) ->
  let merged := merge localeCompare static dynamic in
  StronglySorted (at_or_before localeCompare) merged
  /\ NoDup (map name merged)
  /\ ((forall a b : string, localeCompare a b = 0%Z -> a = b) ->
      StronglySorted (strictly_before localeCompare) merged).
Proof.
  intros total transitive merged.
  assert (Hsorted : StronglySorted (at_or_before localeCompare) merged)
    by (unfold merged, merge; now apply sort_StronglySorted).
  assert (Hnd : NoDup (map name merged)) by apply merge_names_NoDup.
  repeat split; try assumption.
  intros separates. now apply strictly_sorted.
Qed.

Lemma merge_sorted_by_collation_witness :
  let merged := merge collate ["a"; "B"] [ {| name := "b"; desc := "x" |} ] in
  StronglySorted (strictly_before collate) merged /\ NoDup (map name merged).
Proof.
  destruct (merge_sorted_by_collation collate ["a"; "B"]
              [ {| name := "b"; desc := "x" |} ]
              collate_total collate_transitive) as (_ & Hnd & Hstrict).
  split; [exact (Hstrict collate_separates) | exact Hnd].
Defined.

(** C5, as the claim has it, fails: the scan of two labels gives the names
    [a] and [B]; the merge puts [a] first, as the collation does, while in
    code-unit order [B] (66) comes before [a] (97). *)
Lemma merge_not_ordinal :
  Scanner.scan_commands [] "switch (c) { case 'a': one(); case 'B': two(); }"
  = ["a"; "B"]
  /\ merge collate ["a"; "B"] []
     = [ {| name := "a"; desc := EmptyString |};
         {| name := "B"; desc := EmptyString |} ]
  /\ ordinal_ascending (merge collate ["a"; "B"] []) = false.
Proof. vm_compute. repeat split. Qed.

End MergeClaims.

(** * The matcher finds derivations *)

Section MatcherFacts.
Import JsString Regex.

Lemma append_nil_r (s : string) : (s ++ EmptyString)%string = s.
Proof. induction s as [|a s IH]; simpl; [reflexivity|now rewrite IH]. Qed.

Lemma append_assoc (a b c : string) :
  ((a ++ b) ++ c)%string = (a ++ (b ++ c))%string.
Proof. induction a as [|x a IH]; simpl; [reflexivity|now rewrite IH]. Qed.

Lemma append_length (a b : string) :
  String.length (a ++ b) = String.length a + String.length b.
Proof. induction a as [|x a IH]; simpl; [reflexivity|now rewrite IH]. Qed.

Lemma substring_prefix (p s : string) :
  substring 0 (String.length p) (p ++ s) = p.
Proof.
  induction p as [|a p IH]; simpl.
  - destruct s; reflexivity.
  - now rewrite IH.
Qed.

Lemma star_loop_sound (r : re) (k : cont) (x : nat * caps) :
  (forall i s c k', m r i s c k' = Some x -> reaches r i s c k' x) ->
  forall fuel i s c,
    star_loop (m r) k fuel i s c = Some x -> reaches (Star r) i s c k x.
Proof.
  intros Hbody. induction fuel as [|fuel IH]; intros i s c Hloop.
  - simpl in Hloop. exists EmptyString, s, c. simpl. rewrite Nat.add_0_r.
    repeat split; [constructor|assumption].
  - simpl in Hloop.
    destruct (m r i s c _) as [y|] eqn:Hiter.
    + injection Hloop as ->.
      apply Hbody in Hiter. destruct Hiter as (p1 & s1 & c1 & -> & Hd1 & Hk).
      destruct (Nat.ltb_spec i (i + String.length p1)) as [Hlt|_];
        [|discriminate].
      apply IH in Hk. destruct Hk as (p2 & s2 & c2 & -> & Hd2 & Hk).
      exists (p1 ++ p2)%string, s2, c2.
      rewrite append_assoc, append_length, Nat.add_assoc.
      repeat split; [|assumption].
      apply D_Star_more with (c1 := c1); try assumption.
      intros ->. simpl in Hlt. lia.
    + exists EmptyString, s, c. simpl. rewrite Nat.add_0_r.
      repeat split; [constructor|assumption].
Qed.

Lemma m_sound (r : re) (x : nat * caps) :
  forall i s c k, m r i s c k = Some x -> reaches r i s c k x.
Proof.
  induction r as [|p|r1 IH1 r2 IH2|r1 IH1 r2 IH2|r IH|n r IH| |];
    intros i s c k Hm; simpl in Hm.
  - exists EmptyString, s, c. simpl. rewrite Nat.add_0_r.
    repeat split; [constructor|assumption].
  - destruct s as [|a s]; [discriminate|].
    destruct (p a) eqn:Hp; [|discriminate].
    exists (String a EmptyString), s, c. simpl. rewrite Nat.add_1_r.
    repeat split; [now constructor|assumption].
  - apply IH1 in Hm. destruct Hm as (p1 & s1 & c1 & -> & Hd1 & Hk).
    apply IH2 in Hk. destruct Hk as (p2 & s2 & c2 & -> & Hd2 & Hk).
    exists (p1 ++ p2)%string, s2, c2.
    rewrite append_assoc, append_length, Nat.add_assoc.
    repeat split; [|assumption].
    now apply D_Cat with (c1 := c1).
  - destruct (m r1 i s c k) as [y|] eqn:Hleft.
    + injection Hm as ->. apply IH1 in Hleft.
      destruct Hleft as (p & s' & c' & -> & Hd & Hk).
      exists p, s', c'. repeat split; [now apply D_Or_left|assumption].
    + apply IH2 in Hm. destruct Hm as (p & s' & c' & -> & Hd & Hk).
      exists p, s', c'. repeat split; [now apply D_Or_right|assumption].
  - now apply (star_loop_sound r k x IH) in Hm.
  - apply IH in Hm. destruct Hm as (p & s' & c' & -> & Hd & Hk).
    replace (i + String.length p - i) with (String.length p) in Hk by lia.
    rewrite substring_prefix in Hk.
    exists p, s', ((n, p) :: c'). repeat split; [now constructor|assumption].
  - destruct (Nat.eqb_spec i 0) as [->|_]; [|discriminate].
    exists EmptyString, s, c. repeat split; [constructor|assumption].
  - destruct s; [|discriminate].
    exists EmptyString, EmptyString, c. simpl. rewrite Nat.add_0_r.
    repeat split; [constructor|assumption].
Qed.

(** A match attempt consumed a prefix that the pattern derives. *)
Lemma match_at_sound (r : re) (i e : nat) (s : string) (c : caps) :
  match_at r i s = Some (e, c) ->
  exists p s', s = (p ++ s')%string /\ derives r i p s' [] c
               /\ e = i + String.length p.
Proof.
  unfold match_at. intros Hm. apply m_sound in Hm.
  destruct Hm as (p & s' & c' & -> & Hd & [= <- <-]).
  now exists p, s'.
Qed.


Lemma derives_groupless (r : re) i p s c c' :
  derives r i p s c c' -> groupless r = true -> c' = c.
Proof.
  induction 1; simpl; intros Hg; try reflexivity; try discriminate;
    try (apply andb_true_iff in Hg; destruct Hg as [Hg1 Hg2]).
  - rewrite IHderives2, IHderives1; auto.
  - auto.
  - auto.
  - rewrite IHderives2, IHderives1; auto.
Qed.

Lemma derives_min_length (r : re) i p s c c' :
  derives r i p s c c' -> min_length r <= String.length p.
Proof.
  induction 1; simpl; try rewrite append_length; lia.
Qed.

Lemma derives_class (q : ascii -> bool) i p s c c' :
  derives (Class q) i p s c c' ->
  exists a, p = String a EmptyString /\ q a = true /\ c' = c.
Proof. inversion 1; subst. eexists; repeat split; assumption. Qed.

Lemma derives_cat (r1 r2 : re) i p s c c' :
  derives (Cat r1 r2) i p s c c' ->
  exists p1 p2 c1,
    p = (p1 ++ p2)%string /\ derives r1 i p1 (p2 ++ s) c c1
    /\ derives r2 (i + String.length p1) p2 s c1 c'.
Proof. inversion 1; subst. now exists p1, p2, c1. Qed.

Lemma derives_group (n : nat) (r : re) i p s c c' :
  derives (Group n r) i p s c c' ->
  exists c1, c' = (n, p) :: c1 /\ derives r i p s c c1.
Proof. inversion 1; subst. now eexists. Qed.

Lemma derives_eol i p s c c' :
  derives Eol i p s c c' -> p = EmptyString /\ s = EmptyString /\ c' = c.
Proof. inversion 1; subst. repeat split. Qed.

Lemma derives_bol i p s c c' :
  derives Bol i p s c c' -> p = EmptyString /\ i = 0 /\ c' = c.
Proof. inversion 1; subst. repeat split. Qed.

(** A star of a class consumes characters of the class. *)
Lemma derives_star_class (q : ascii -> bool) i p s c c' :
  derives (Star (Class q)) i p s c c' -> all_chars q p = true.
Proof.
  remember (Star (Class q)) as r eqn:Hr. induction 1; try discriminate.
  - reflexivity.
  - injection Hr as ->. specialize (IHderives2 eq_refl).
    apply derives_class in H. destruct H as (a & -> & Ha & _).
    simpl. now rewrite Ha.
Qed.

Lemma all_chars_app (q : ascii -> bool) (a b : string) :
  all_chars q (a ++ b) = all_chars q a && all_chars q b.
Proof.
  induction a as [|x a IH]; simpl; [reflexivity|].
  now rewrite IH, andb_assoc.
Qed.

(** A pattern that begins with [^] matches at the start or nowhere. *)
Lemma anchored_search_from (r : re) (i : nat) (s : string) :
  search_from (Cat Bol r) (S i) s = None.
Proof.
  revert i. induction s as [|a s IH]; intros i; simpl; [reflexivity|apply IH].
Qed.

Lemma anchored_search (r : re) (s : string) (c : caps) :
  search (Cat Bol r) s = Some c ->
  exists e, match_at (Cat Bol r) 0 s = Some (e, c).
Proof.
  unfold search. destruct s as [|a s]; simpl.
  - destruct (match_at (Cat Bol r) 0 EmptyString) as [[e c']|]; [|discriminate].
    intros [= ->]. now exists e.
  - destruct (match_at (Cat Bol r) 0 (String a s)) as [[e c']|].
    + intros [= ->]. now exists e.
    + now rewrite anchored_search_from.
Qed.

Lemma trimStart_spaces (sp t : string) :
  all_chars is_space sp = true -> trimStart (sp ++ t) = trimStart t.
Proof.
  induction sp as [|a sp IH]; simpl; [reflexivity|].
  intros H. apply andb_true_iff in H. destruct H as [Ha Hsp].
  rewrite Ha. now apply IH.
Qed.

(** A text that begins with a dash is not blank once trimmed, and is no
    section header. *)
Lemma trim_dash (sp t : string) :
  all_chars is_space sp = true ->
  exists t', trim (sp ++ String "-"%char t) = String "-"%char t'.
Proof.
  intros Hsp. unfold trim. rewrite (trimStart_spaces _ _ Hsp).
  simpl. destruct (trimEnd t); eexists; reflexivity.
Qed.

Lemma dash_is_no_header (t : string) :
  test HelpParser.header_pattern (String "-"%char t) = false.
Proof.
  unfold test, search. simpl.
  change HelpParser.header_pattern with
    (Cat Bol (Cat (Group 1 (alt [lit_i "Commands"; lit_i "Usage";
                                 lit_i "Options"; lit_i "Flags"]))
                  (chr_i ":"%char))).
  now rewrite anchored_search_from.
Qed.


Lemma derives_spaces2 i p s c c' :
  derives (two_or_more space) i p s c c' ->
  all_chars is_space p = true /\ c' = c.
Proof.
  unfold two_or_more, space. intros H.
  apply derives_cat in H. destruct H as (p1 & p2 & c1 & -> & H1 & H).
  apply derives_cat in H. destruct H as (p3 & p4 & c2 & -> & H2 & H3).
  apply derives_class in H1. destruct H1 as (a & -> & Ha & ->).
  apply derives_class in H2. destruct H2 as (b & -> & Hb & ->).
  split; [|now apply derives_groupless in H3].
  apply derives_star_class in H3. simpl. now rewrite Ha, Hb.
Qed.

Lemma derives_spaces1 i p s c c' :
  derives (plus space) i p s c c' ->
  all_chars is_space p = true /\ c' = c.
Proof.
  unfold plus, space. intros H.
  apply derives_cat in H. destruct H as (p1 & p2 & c1 & -> & H1 & H3).
  apply derives_class in H1. destruct H1 as (a & -> & Ha & ->).
  split; [|now apply derives_groupless in H3].
  apply derives_star_class in H3. simpl. now rewrite Ha.
Qed.

End MatcherFacts.

(** * The loop of the help-text parser *)

Section HelpLoop.
Import JsString Regex HelpParser.

(** [find] takes the first element [filter] keeps. *)
Lemma find_filter_head (p : string -> bool) (d : string) (l : list string) :
  match List.find p l with Some n => n | None => d end
  = match filter p l with long :: _ => long | [] => d end.
Proof.
  induction l as [|n l IH]; simpl; [reflexivity|].
  destruct (p n); [reflexivity|assumption].
Qed.

Lemma primary_canonical (names : list string) :
  primary names = Spec.canonical_name names.
Proof. apply find_filter_head. Qed.

Lemma step_header (st : state) (line : string) :
  test header_pattern (trim line) = true ->
  step st line
  = (Some (toLowerCase (hd EmptyString (split ":"%char (trim line)))), snd st).
Proof.
  intros Hheader. destruct st as [section result].
  unfold step. rewrite Hheader. reflexivity.
Qed.

End HelpLoop.

(** * The claims on the static scanner *)

Section ScannerClaims.
Import JsString Regex Scanner.

Lemma set_add_Forall (P : string -> Prop) (x : string) (s : list string) :
  P x -> Forall P s -> Forall P (set_add x s).
Proof.
  intros Hx Hs. unfold set_add. destruct (includes s x); [assumption|].
  apply Forall_app. split; [assumption|]. now constructor.
Qed.

Lemma fold_left_invariant {A B : Type} (Inv : A -> Prop) (f : A -> B -> A)
      (l : list B) (a : A) :
  (forall a b, Inv a -> Inv (f a b)) -> Inv a -> Inv (fold_left f l a).
Proof.
  intros Hstep. revert a.
  induction l as [|b l IH]; simpl; intros a Ha; [assumption|].
  apply IH, Hstep, Ha.
Qed.

Lemma add_command_accepted (acc : list string) (c : caps) :
  Forall (fun cmd => command_accepted cmd = true) acc ->
  Forall (fun cmd => command_accepted cmd = true) (add_command acc c).
Proof.
  intros Hacc. unfold add_command.
  destruct (group 1 c) as [cmd|]; [|assumption].
  destruct (command_accepted cmd) eqn:Hcmd; [|assumption].
  now apply set_add_Forall.
Qed.

Lemma add_flag_accepted (acc : list string) (c : caps) :
  Forall (fun flag => flag_accepted flag = true) acc ->
  Forall (fun flag => flag_accepted flag = true) (add_flag acc c).
Proof.
  intros Hacc. unfold add_flag.
  destruct (group 1 c) as [f|]; [|assumption].
  destruct (flag_accepted (normalize_flag f)) eqn:Hf; [|assumption].
  now apply set_add_Forall.
Qed.

Lemma scan_commands_accepted (acc : list string) (code : string) :
  Forall (fun cmd => command_accepted cmd = true) acc ->
  Forall (fun cmd => command_accepted cmd = true) (scan_commands acc code).
Proof.
  unfold scan_commands. apply fold_left_invariant. intros a pattern.
  apply fold_left_invariant. apply add_command_accepted.
Qed.

Lemma scan_flags_accepted (acc : list string) (code : string) :
  Forall (fun flag => flag_accepted flag = true) acc ->
  Forall (fun flag => flag_accepted flag = true) (scan_flags acc code).
Proof.
  unfold scan_flags. apply fold_left_invariant. intros a pattern.
  apply fold_left_invariant. apply add_flag_accepted.
Qed.

(** Whatever the files hold, every name the scan keeps passed its test. *)
Lemma scan_files_accepted (files : list (option (option string))) :
  Forall (fun cmd => command_accepted cmd = true) (staticCommands (scan_files files))
  /\ Forall (fun flag => flag_accepted flag = true) (staticFlags (scan_files files)).
Proof.
  unfold scan_files.
  apply (fold_left_invariant
           (fun f => Forall (fun cmd => command_accepted cmd = true) (staticCommands f)
                     /\ Forall (fun flag => flag_accepted flag = true) (staticFlags f))).
  - intros f file [Hc Hf].
    destruct file as [[code|]|]; simpl; try (split; assumption).
    split; [now apply scan_commands_accepted | now apply scan_flags_accepted].
  - split; constructor.
Qed.

(** A match of a pattern of the scanner consumes at least one code unit,
    so the loop over the matches of a text moves on after each of them. *)
Lemma scanner_patterns_advance (pattern : re) (i e : nat) (s : string) (c : caps) :
  In pattern (commandPatterns ++ flagPatterns) ->
  match_at pattern i s = Some (e, c) -> i < e.
Proof.
  intros Hin Hmatch. apply match_at_sound in Hmatch.
  destruct Hmatch as (p & s' & _ & Hd & ->).
  apply derives_min_length in Hd.
  assert (Hmin : 1 <= min_length pattern).
  { simpl in Hin.
    repeat (destruct Hin as [<-|Hin]; [vm_compute; lia|]). destruct Hin. }
  lia.
Qed.

(** C6. The scan of a source with the labels [help], [version] and
    [deploy] keeps the one command [deploy], in [index.js] and in the
    earlier variant; and whatever is scanned, no name whose lower-case
    form is on the stoplist is kept. *)
Theorem stoplist_excludes_generic_commands :
  staticCommands (scan_files [Some (Some Scenario.three_cases)]) = ["deploy"]
  /\ scan_commands [] "case 'help': case 'version': case 'deploy':" = ["deploy"]
  /\ Legacy.dedupe (Legacy.scan_commands [] Scenario.three_cases) = ["deploy"]
  /\ (forall (files : list (option (option string))) (cmd : string),
         In cmd (staticCommands (scan_files files)) ->
         includes command_stoplist (toLowerCase cmd) = false).
Proof.
  split; [vm_compute; reflexivity|]. split; [vm_compute; reflexivity|].
  split; [vm_compute; reflexivity|].
  intros files cmd Hin.
  destruct (scan_files_accepted files) as [Hc _].
  rewrite Forall_forall in Hc. specialize (Hc cmd Hin).
  unfold command_accepted in Hc.
  apply andb_true_iff in Hc. destruct Hc as [_ Hc].
  now apply negb_true_iff in Hc.
Qed.

Lemma stoplist_excludes_generic_commands_witness :
  includes command_stoplist (toLowerCase "deploy") = false.
Proof.
  destruct stoplist_excludes_generic_commands as (Hscan & _ & _ & Hall).
  apply (Hall [Some (Some Scenario.three_cases)]).
  rewrite Hscan. simpl. now left.
Defined.

(** C10. Whatever is scanned, the static flags hold none of [--help],
    [-h], [-], [--], [---] and [-1]: each is on the first rejection list
    of the scanner, which is tested before a candidate is kept; a source
    that compares against all of them yields no flag. *)
Theorem refused_flags_never_kept :
  (forall (files : list (option (option string))) (flag : string),
      In flag Spec.never_flags ->
      ~ In flag (staticFlags (scan_files files)))
  /\ (forall flag : string,
         In flag Spec.never_flags -> includes flag_rejects flag = true)
  /\ staticFlags (scan_files [Some (Some Scenario.refused_tokens)]) = [].
Proof.
  assert (Hrej : forall flag, In flag Spec.never_flags ->
                              includes flag_rejects flag = true).
  { intros flag Hin. simpl in Hin.
    repeat (destruct Hin as [<-|Hin]; [reflexivity|]). destruct Hin. }
  split; [|split; [exact Hrej | vm_compute; reflexivity]].
  intros files flag Hnever Hin.
  destruct (scan_files_accepted files) as [_ Hf].
  rewrite Forall_forall in Hf. specialize (Hf flag Hin).
  unfold flag_accepted in Hf. rewrite (Hrej flag Hnever) in Hf.
  rewrite andb_false_r in Hf. discriminate.
Qed.

Lemma refused_flags_never_kept_witness :
  ~ In "--help" (staticFlags (scan_files [Some (Some "if (a === '--help') {}")]))
  /\ includes flag_rejects "-1" = true.
Proof.
  destruct refused_flags_never_kept as [Hnever [Hrej _]]. split.
  - apply Hnever. simpl. tauto.
  - apply Hrej. simpl. tauto.
Defined.

End ScannerClaims.

(** * The claims on the repository identifier and the command line *)

Section CliClaims.
Import JsString Js.

(** The manifest step throws exactly on a manifest that is [null] and on
    an object-valued [repository] whose [url] is neither a string nor
    missing. *)
Lemma from_manifest_throws_iff (pkg : value) :
  (exists e, Repository.from_manifest pkg = Throw e)
  <-> pkg = VNull \/ pkg = VUndefined
      \/ exists fields l url,
           pkg = VObj fields
           /\ assoc "repository" fields = Some (VObj l)
           /\ assoc "url" l = Some url
           /\ Repository.has_no_match_method url = true.
Proof.
  unfold Repository.from_manifest. split.
  - intros [e He]. destruct pkg as [| |b|z|s|l|fields]; simpl in He;
      try discriminate; try (now left); try (right; now left).
    right; right.
    destruct (assoc "repository" fields) as [r|] eqn:Hrepo; simpl in He;
      [|discriminate].
    destruct r as [| |b|z|s|l|l]; simpl in He; try discriminate.
    + destruct b; simpl in He; discriminate.
    + destruct (negb (z =? 0)%Z); simpl in He; discriminate.
    + destruct (negb (s =? EmptyString)%string); simpl in He; [|discriminate].
      destruct (Regex.search Repository.manifest_pattern s) as [c|];
        [|discriminate].
      destruct (Regex.group 1 c), (Regex.group 2 c); discriminate.
    + exists fields, l.
      destruct (assoc "url" l) as [url|] eqn:Hurl; simpl in He; [|discriminate].
      exists url. split; [reflexivity|]. split; [exact Hrepo|].
      split; [reflexivity|].
      destruct url as [| |b|z|s|l'|l']; simpl in *; try reflexivity;
        try discriminate.
      destruct (Regex.search Repository.manifest_pattern s) as [c|];
        [|discriminate].
      destruct (Regex.group 1 c), (Regex.group 2 c); discriminate.
  - intros [->|[->|(fields & l & url & -> & Hrepo & Hurl & Hbad)]];
      simpl; try (eexists; reflexivity).
    rewrite Hrepo. simpl. rewrite Hurl.
    destruct url; simpl in *; try discriminate; eexists; reflexivity.
Qed.

(** C8. The string [https://github.com/acme/widgets.git] gives the user
    [acme] and the repository [widgets]. A manifest whose repository
    object has a number for [url] makes the identifier throw, and the run
    ends on the exception. *)
Theorem repository_url_must_be_text :
  Repository.identify Scenario.acme_pkg None
  = Ok (Some {| user := "acme"; repo := "widgets" |})
  /\ Repository.identify Scenario.numeric_url_pkg None = Throw TypeError
  /\ Cli.run Merge.collate [] (Scenario.world_of Scenario.numeric_url_dir)
     = Cli.Uncaught TypeError.
Proof. vm_compute. repeat split. Qed.

(** The gate of line 273 is taken on every command line: the object of
    the options has no property [human] or [H]. *)
Lemma json_gate_always (args : list string) :
  Cli.json_gate (Cli.flags args) = true.
Proof. reflexivity. Qed.

Lemma readme_guard_never (args : list string) (d : Cli.directory) :
  Cli.readme_guard (Cli.flags args) d = false.
Proof.
  unfold Cli.readme_guard.
  change (Cli.get (Cli.flags args) "human") with VUndefined.
  change (Cli.get (Cli.flags args) "H") with VUndefined.
  simpl. apply andb_false_r.
Qed.

(** C1. In a directory that has a README, run without any option,
    [index.js] does not stop at the guard: it prints the analysis and
    exits with 0 (nothing is written). The guard of line 61 holds on no
    command line at all; the guard of the earlier variant holds here. *)
Theorem readme_guard_does_not_fire :
  Cli.run Merge.collate [] (Scenario.world_of Scenario.tool_dir_with_readme)
  = Cli.Exit 0 (Cli.Json Scenario.tool_analysis) None
  /\ (forall (args : list string) (d : Cli.directory),
         Cli.readme_guard (Cli.flags args) d = false)
  /\ Legacy.readme_guard (Cli.flags []) Scenario.tool_dir_with_readme = true.
Proof.
  split; [vm_compute; reflexivity|].
  split; [exact readme_guard_never | reflexivity].
Qed.

(** No run writes a README. *)
Lemma run_never_writes (localeCompare : string -> string -> Z)
      (args : list string) (w : Cli.world) :
  match Cli.run localeCompare args w with
  | Cli.Exit _ _ (Some _) => False
  | _ => True
  end.
Proof.
  unfold Cli.run.
  destruct (truthy (Cli.get (Cli.flags args) "help")); [exact I|].
  destruct (Cli.resolve w (Cli.targetDir args w)) as [d|]; [|exact I].
  destruct (Cli.readme_guard (Cli.flags args) d); [exact I|].
  destruct (Cli.package_json d) as [[pkg|]|]; try exact I.
  destruct (Cli.analyse localeCompare d pkg) as [a|e]; simpl; [|exact I].
  unfold Cli.output. rewrite json_gate_always.
  destruct (object_keys (Analysis.bin a)); simpl; exact I.
Qed.

(** The two sequences of an analysis are merges. *)
Lemma analysis_sequences (localeCompare : string -> string -> Z)
      (d : Cli.directory) (pkg : value) (a : Analysis.t) :
  Cli.analyse localeCompare d pkg = Ok a ->
  (exists static dynamic,
      Analysis.commands a = Merge.merge localeCompare static dynamic)
  /\ (exists static dynamic,
         Analysis.flags a = Merge.merge localeCompare static dynamic).
Proof.
  unfold Cli.analyse, bind. intros H.
  repeat match type of H with
         | match ?x with Ok _ => _ | Throw _ => _ end = Ok _ =>
             destruct x; [|discriminate H]
         end.
  injection H as <-. simpl. split; eexists; eexists; reflexivity.
Qed.

(** C2. On the directory of the scenario the run prints the analysis and
    exits with 0; no run of [index.js] writes a README, since the gate of
    line 273 is always taken. The renderer behind the gate would give the
    text of the claim, and the earlier variant did not take its gate
    without [--json]. *)
Theorem scenario_prints_json :
  Cli.run Merge.collate [] (Scenario.world_of Scenario.tool_dir)
  = Cli.Exit 0 (Cli.Json Scenario.tool_analysis) None
  /\ (forall (localeCompare : string -> string -> Z) (args : list string)
             (w : Cli.world) (code : Z) (out : Cli.event) (text : string),
         Cli.run localeCompare args w <> Cli.Exit code out (Some text))
  /\ (exists text : string,
         Renderer.readme false Scenario.tool_analysis ["tool"] = Ok text
         /\ startsWith "# tool" text = true
         /\ contains "## Installation" text = true
         /\ contains ("npm install -g tool" ++ Renderer.nl) text = true
         /\ contains "| `build` |" text = true)
  /\ Legacy.json_gate (Cli.flags []) = false.
Proof.
  split; [vm_compute; reflexivity|]. split.
  - intros localeCompare args w code out text Hrun.
    pose proof (run_never_writes localeCompare args w) as Hnever.
    rewrite Hrun in Hnever. exact Hnever.
  - split; [|reflexivity].
    eexists. split; [vm_compute; reflexivity|].
    vm_compute. repeat split.
Qed.

End CliClaims.

(** * More on the merge *)

Section MergeMore.
Import Merge.

Lemma map_set_In_keys (k k' v : string) (m : list (string * string)) :
  In k (map fst (map_set k' v m)) <-> k = k' \/ In k (map fst m).
Proof.
  rewrite map_set_keys.
  destruct (in_dec string_dec k' (map fst m)) as [Hin|Hnot].
  - split; [tauto|]. intros [Heq|H]; [now subst|assumption].
  - rewrite in_app_iff. simpl. split; intros H; intuition.
Qed.

Lemma seed_In_keys (k : string) (static : list string) (m : list (string * string)) :
  In k (map fst (seed static m)) <-> In k static \/ In k (map fst m).
Proof.
  unfold seed. revert m.
  induction static as [|x static IH]; simpl; intros m; [tauto|].
  rewrite IH, map_set_In_keys. intuition.
Qed.

Lemma overlay_In_keys (k : string) (dynamic : list entry) (m : list (string * string)) :
  In k (map fst (overlay dynamic m)) <-> In k (map name dynamic) \/ In k (map fst m).
Proof.
  unfold overlay. revert m.
  induction dynamic as [|x dynamic IH]; simpl; intros m; [tauto|].
  rewrite IH, map_set_In_keys. intuition.
Qed.

(** X1. The names of the merged sequence are the static names and the
    names of the dynamic records, no more and no less. *)
Theorem merge_names_are_the_union
        (localeCompare : string -> string -> Z)
        (static : list string) (dynamic : list entry) (n : string) :
  In n (map name (merge localeCompare static dynamic))
  <-> In n static \/ In n (map name dynamic).
Proof.
  unfold merge.
  assert (Hperm : Permutation (map name (sort localeCompare (entries (commandMap static dynamic))))
                              (map fst (commandMap static dynamic)))
    by (rewrite <- entries_names; apply Permutation_map, sort_perm).
  split.
  - intros H. apply (Permutation_in _ Hperm) in H.
    unfold commandMap in H. rewrite overlay_In_keys, seed_In_keys in H.
    simpl in H. tauto.
  - intros H. apply (Permutation_in _ (Permutation_sym Hperm)).
    unfold commandMap. rewrite overlay_In_keys, seed_In_keys. tauto.
Qed.

Lemma merge_names_are_the_union_witness :
  In "serve" (map name (merge collate ["serve"] [ {| name := "build"; desc := "b" |} ]))
  /\ In "build" (map name (merge collate ["serve"] [ {| name := "build"; desc := "b" |} ])).
Proof.
  split.
  - apply (merge_names_are_the_union collate). left. simpl. tauto.
  - apply (merge_names_are_the_union collate). right. simpl. tauto.
Defined.

Lemma seed_get_inv (k v : string) (static : list string) (m : list (string * string)) :
  map_get k (seed static m) = Some v ->
  (In k static /\ v = EmptyString) \/ (~ In k static /\ map_get k m = Some v).
Proof.
  unfold seed. revert m.
  induction static as [|x static IH]; simpl; intros m H; [right; tauto|].
  apply IH in H. destruct H as [[Hin Hv]|[Hnot Hget]]; [left; tauto|].
  destruct (string_dec x k) as [Heq|Hne].
  - subst x. rewrite map_get_set_same in Hget. left. split; [now left|congruence].
  - rewrite map_get_set_other in Hget by assumption. right. split; [|assumption].
    intros [Heq|Hin]; contradiction.
Qed.

Lemma overlay_get_inv (k v : string) (dynamic : list entry) (m : list (string * string)) :
  map_get k (overlay dynamic m) = Some v ->
  In {| name := k; desc := v |} dynamic
  \/ (~ In k (map name dynamic) /\ map_get k m = Some v).
Proof.
  unfold overlay. revert m.
  induction dynamic as [|x dynamic IH]; simpl; intros m H; [right; tauto|].
  apply IH in H. destruct H as [Hin|[Hnot Hget]]; [left; now right|].
  destruct (string_dec (name x) k) as [Heq|Hne].
  - subst k. rewrite map_get_set_same in Hget. left. left.
    destruct x as [n d]; simpl in *. congruence.
  - rewrite map_get_set_other in Hget by assumption. right. split; [|assumption].
    intros [Heq|Hin]; contradiction.
Qed.

Lemma overlay_get_static (k : string) (dynamic : list entry) (m : list (string * string)) :
  ~ In k (map name dynamic) -> map_get k (overlay dynamic m) = map_get k m.
Proof.
  unfold overlay. revert m.
  induction dynamic as [|x dynamic IH]; simpl; intros m Hnot; [reflexivity|].
  rewrite IH by tauto. apply map_get_set_other. intros Heq. apply Hnot. now left.
Qed.

Lemma merge_In_cases
      (localeCompare : string -> string -> Z)
      (static : list string) (dynamic : list entry) (r : entry) :
  In r (merge localeCompare static dynamic) ->
  In r dynamic
  \/ (In (name r) static /\ ~ In (name r) (map name dynamic)
      /\ desc r = EmptyString).
Proof.
  intros Hr. apply merge_In in Hr. unfold commandMap in Hr.
  apply overlay_get_inv in Hr. destruct Hr as [Hin|[Hnot Hget]].
  - left. now destruct r.
  - right. apply seed_get_inv in Hget.
    destruct Hget as [[Hin Hv]|[_ Hget]]; [tauto|discriminate].
Qed.

(** X2. The merge invents nothing: a merged record is a record of the
    help text, or a static name the help text does not have, with the
    empty description; and every such static name is there. *)
Theorem merge_provenance
        (localeCompare : string -> string -> Z)
        (static : list string) (dynamic : list entry) :
  (forall r : entry,
      In r (merge localeCompare static dynamic) ->
      In r dynamic
      \/ (In (name r) static /\ ~ In (name r) (map name dynamic)
          /\ desc r = EmptyString))
  /\ (forall n : string,
         In n static -> ~ In n (map name dynamic) ->
         In {| name := n; desc := EmptyString |}
            (merge localeCompare static dynamic)).
Proof.
  split.
  - intros r. apply merge_In_cases.
  - intros n Hin Hnot. apply merge_In. simpl. unfold commandMap.
    rewrite overlay_get_static by assumption. apply seed_get. now left.
Qed.

Lemma merge_provenance_witness :
  In {| name := "serve"; desc := EmptyString |}
     (merge collate ["serve"; "build"] [ {| name := "build"; desc := "b" |} ]).
Proof.
  apply (merge_provenance collate).
  - simpl. tauto.
  - simpl. intros [H|[]]. discriminate H.
Defined.

Lemma seed_get_member (k : string) (static : list string) :
  map_get k (seed static [])
  = if in_dec string_dec k static then Some EmptyString else None.
Proof.
  destruct (in_dec string_dec k static) as [Hin|Hnot].
  - apply seed_get. now left.
  - destruct (map_get k (seed static [])) as [v|] eqn:Hget; [|reflexivity].
    apply seed_get_inv in Hget. destruct Hget as [[Hin _]|[_ Hget]];
      [contradiction|discriminate].
Qed.

Lemma overlay_get_ext (k : string) (dynamic : list entry)
      (m1 m2 : list (string * string)) :
  map_get k m1 = map_get k m2 ->
  map_get k (overlay dynamic m1) = map_get k (overlay dynamic m2).
Proof.
  unfold overlay. revert m1 m2.
  induction dynamic as [|x dynamic IH]; simpl; intros m1 m2 H; [assumption|].
  apply IH. destruct (string_dec (name x) k) as [Heq|Hne].
  - subst k. now rewrite !map_get_set_same.
  - now rewrite !map_get_set_other.
Qed.

(** Two lists in the same strict order with the same elements are equal. *)
Lemma strictly_sorted_unique (R : entry -> entry -> Prop) (l1 l2 : list entry) :
  (forall x y, R x y -> R y x -> False) ->
  StronglySorted R l1 -> StronglySorted R l2 ->
  (forall x, In x l1 <-> In x l2) -> l1 = l2.
Proof.
  intros asym H1. revert l2.
  induction H1 as [|x l1 Hs1 IH Hall1]; intros l2 H2 Hsame.
  - destruct l2 as [|y l2]; [reflexivity|].
    exfalso. apply (Hsame y). now left.
  - destruct H2 as [|y l2 Hs2 Hall2].
    + exfalso. apply (Hsame x). now left.
    + rewrite Forall_forall in Hall1, Hall2.
      assert (Hxy : x = y).
      { destruct (proj1 (Hsame x) (or_introl eq_refl)) as [Heq|Hin];
          [now symmetry|].
        destruct (proj2 (Hsame y) (or_introl eq_refl)) as [Heq|Hin'];
          [assumption|].
        exfalso. apply (asym x y); [now apply Hall1|now apply Hall2]. }
      subst y. f_equal. apply IH; [assumption|].
      intros z. split; intros Hz.
      * destruct (proj1 (Hsame z) (or_intror Hz)) as [Heq|Hin]; [|assumption].
        subst z. exfalso. apply (asym x x); now apply Hall1.
      * destruct (proj2 (Hsame z) (or_intror Hz)) as [Heq|Hin]; [|assumption].
        subst z. exfalso. apply (asym x x); now apply Hall2.
Qed.

(** X3. The merged sequence does not depend on the order in which the
    static names were found, nor on how often: static sets with the same
    names merge to the same sequence. The comparator is taken to be a
    consistent one that tells distinct names apart. *)
Theorem merge_ignores_static_order
        (localeCompare : string -> string -> Z)
        (static static' : list string) (dynamic : list entry) :
  (forall a b : string,
      Z.sgn (localeCompare b a) = (- Z.sgn (localeCompare a b))%Z) ->
  (forall a b c : string,
      (localeCompare a b <= 0)%Z -> (localeCompare b c <= 0)%Z ->
      (localeCompare a c <= 0)%Z) ->
  (forall a b : string, localeCompare a b = 0%Z -> a = b) ->
  (forall n : string, In n static <-> In n static') ->
  merge localeCompare static dynamic = merge localeCompare static' dynamic.
Proof.
  intros flip transitive separates Hsame.
  assert (total : forall a b : string,
             (0 < localeCompare a b)%Z -> (localeCompare b a <= 0)%Z)
    by (intros a b H; specialize (flip a b); lia).
  apply (strictly_sorted_unique (strictly_before localeCompare)).
  - unfold strictly_before, by_name. intros x y Hxy Hyx.
    specialize (flip (name x) (name y)). lia.
  - apply strictly_sorted; [assumption| |apply merge_names_NoDup].
    unfold merge. now apply sort_StronglySorted.
  - apply strictly_sorted; [assumption| |apply merge_names_NoDup].
    unfold merge. now apply sort_StronglySorted.
  - intros r. rewrite !merge_In. unfold commandMap.
    rewrite (overlay_get_ext (name r) dynamic (seed static []) (seed static' [])).
    + reflexivity.
    + rewrite !seed_get_member.
      destruct (in_dec string_dec (name r) static) as [H|H],
               (in_dec string_dec (name r) static') as [H'|H'];
        try reflexivity; exfalso.
      * apply H', Hsame, H.
      * apply H, Hsame, H'.
Qed.

Lemma merge_ignores_static_order_witness :
  merge collate ["serve"; "build"] [ {| name := "build"; desc := "b" |} ]
  = merge collate ["build"; "serve"; "build"] [ {| name := "build"; desc := "b" |} ].
Proof.
  apply (merge_ignores_static_order collate).
  - intros a b. unfold collate. rewrite (compare_keys_flip (sort_key a)).
    apply Z.sgn_opp.
  - exact collate_transitive.
  - exact collate_separates.
  - intros n. simpl. tauto.
Defined.

End MergeMore.

(** * What the groups of a match hold *)

Section CaptureFacts.
Import JsString Regex Captures.

Lemma group_In (n : nat) (c : caps) (g : string) :
  group n c = Some g -> In (n, g) c.
Proof.
  induction c as [|[k v] c IH]; simpl; [discriminate|].
  destruct (Nat.eqb_spec k n) as [->|_].
  - intros [= ->]. now left.
  - intros H. right. now apply IH.
Qed.

Lemma derives_captured (r : re) i p s c c' :
  derives r i p s c c' ->
  forall n g, In (n, g) c' -> In (n, g) c \/ captured r n g.
Proof.
  induction 1; intros k g Hin; simpl; try (now left).
  - apply IHderives2 in Hin. destruct Hin as [Hin|Hcap]; [|tauto].
    apply IHderives1 in Hin. tauto.
  - apply IHderives in Hin. tauto.
  - apply IHderives in Hin. tauto.
  - apply IHderives2 in Hin. destruct Hin as [Hin|Hcap]; [|tauto].
    apply IHderives1 in Hin. tauto.
  - destruct Hin as [[= -> ->]|Hin].
    + right. left. split; [reflexivity|]. now exists i, s, c, c'.
    + apply IHderives in Hin. tauto.
Qed.

Lemma derives_within (q : ascii -> bool) (r : re) i p s c c' :
  derives r i p s c c' -> within q r -> all_chars q p = true.
Proof.
  induction 1; simpl; intros Hq; try reflexivity.
  - now rewrite (Hq a H).
  - destruct Hq as [Hq1 Hq2]. rewrite all_chars_app, IHderives1, IHderives2; auto.
  - destruct Hq as [Hq1 Hq2]. auto.
  - destruct Hq as [Hq1 Hq2]. auto.
  - rewrite all_chars_app, IHderives1, IHderives2; auto.
  - auto.
Qed.

Lemma derives_nonempty (r : re) i p s c c' :
  derives r i p s c c' -> 1 <= min_length r -> p <> EmptyString.
Proof.
  intros Hd Hmin ->. apply derives_min_length in Hd. simpl in Hd. lia.
Qed.

(** A match the search reports is a match at some index. *)
Lemma search_from_sound (r : re) (i : nat) (s : string) (st e : nat) (c : caps) :
  search_from r i s = Some (st, e, c) ->
  exists rest, match_at r st rest = Some (e, c).
Proof.
  revert i. induction s as [|a s IH]; intros i; simpl.
  - destruct (match_at r i EmptyString) as [[e' c']|] eqn:Hm; [|discriminate].
    intros [= <- <- <-]. now exists EmptyString.
  - destruct (match_at r i (String a s)) as [[e' c']|] eqn:Hm.
    + intros [= <- <- <-]. now exists (String a s).
    + apply IH.
Qed.

Lemma search_sound (r : re) (s : string) (c : caps) :
  search r s = Some c -> exists st rest e, match_at r st rest = Some (e, c).
Proof.
  unfold search. destruct (search_from r 0 s) as [[[st e] c']|] eqn:Hs;
    [|discriminate].
  intros [= ->]. apply search_from_sound in Hs. destruct Hs as [rest Hm].
  now exists st, rest, e.
Qed.

Lemma exec_loop_sound (r : re) (s : string) (i skip : nat) (c : caps) :
  In c (exec_loop r i s skip) ->
  exists st rest e, match_at r st rest = Some (e, c).
Proof.
  revert i skip. induction s as [|a s IH]; intros i skip; simpl.
  - destruct skip; simpl; [|tauto].
    destruct (match_at r i EmptyString) as [[e c']|] eqn:Hm; simpl; [|tauto].
    intros [<-|[]]. now exists i, EmptyString, e.
  - destruct skip; simpl; [|apply IH].
    destruct (match_at r i (String a s)) as [[e c']|] eqn:Hm; simpl.
    + intros [<-|Hin]; [now exists i, (String a s), e|]. now apply IH in Hin.
    + apply IH.
Qed.

(** What group [n] holds after a match is something the group derives. *)
Lemma match_at_captured (r : re) (st e : nat) (rest : string) (c : caps)
      (n : nat) (g : string) :
  match_at r st rest = Some (e, c) -> group n c = Some g -> captured r n g.
Proof.
  intros Hm Hg. apply match_at_sound in Hm.
  destruct Hm as (p & s' & _ & Hd & _).
  apply group_In in Hg.
  destruct (derives_captured _ _ _ _ _ _ Hd n g Hg) as [[]|Hcap]. exact Hcap.
Qed.

End CaptureFacts.

(** * More on the static scanner *)

Section ScannerMore.
Import JsString Regex Captures Scanner.

Lemma fold_left_invariant_in {A B : Type} (Inv : A -> Prop) (f : A -> B -> A)
      (l : list B) (a : A) :
  (forall a b, In b l -> Inv a -> Inv (f a b)) -> Inv a -> Inv (fold_left f l a).
Proof.
  revert a. induction l as [|b l IH]; simpl; intros a Hstep Ha; [assumption|].
  apply IH.
  - intros a' b' Hin. apply Hstep. now right.
  - apply Hstep; [now left|assumption].
Qed.

Lemma plus_word_text (i : nat) (g s : string) (c c' : caps) :
  derives (plus word) i g s c c' ->
  word_name g.
Proof.
  intros Hd. split.
  - apply (derives_nonempty _ _ _ _ _ _ Hd). simpl. lia.
  - apply (derives_within is_word _ _ _ _ _ _ Hd). simpl. auto.
Qed.

(** The group of a command pattern holds a non-empty word. *)
Lemma command_capture (pattern : re) (g : string) :
  In pattern commandPatterns -> captured pattern 1 g -> word_name g.
Proof.
  intros Hin Hcap. simpl in Hin.
  repeat (destruct Hin as [<-|Hin];
          [simpl in Hcap; split_captured Hcap;
           destruct Hcap as (_ & i & s & c & c' & Hd);
           now apply plus_word_text in Hd|]).
  destruct Hin.
Qed.

Lemma add_command_clean (pattern : re) (code : string) (acc : list string) (c : caps) :
  In pattern commandPatterns -> In c (exec_all pattern code) ->
  Forall word_name acc -> Forall word_name (add_command acc c).
Proof.
  intros Hp Hc Hacc. unfold add_command.
  destruct (group 1 c) as [cmd|] eqn:Hg; [|assumption].
  destruct (command_accepted cmd); [|assumption].
  apply set_add_Forall; [|assumption].
  apply exec_loop_sound in Hc. destruct Hc as (st & rest & e & Hm).
  apply (command_capture pattern); [assumption|].
  now apply (match_at_captured _ _ _ _ _ _ _ Hm).
Qed.


Lemma scan_commands_words (acc : list string) (code : string) :
  Forall word_name acc -> Forall word_name (scan_commands acc code).
Proof.
  intros Hacc. unfold scan_commands.
  apply (fold_left_invariant_in (Forall word_name)); [|assumption].
  intros acc1 pattern Hp Hacc1.
  apply (fold_left_invariant_in (Forall word_name)); [|assumption].
  intros acc2 c Hc Hacc2. now apply (add_command_clean pattern code).
Qed.

(** X5. Whatever is scanned, every static command is a non-empty run of
    word characters (letters, digits, underscore). *)
Theorem static_commands_are_words (files : list (option (option string))) :
  Forall word_name (staticCommands (scan_files files)).
Proof.
  unfold scan_files.
  apply (fold_left_invariant (fun f => Forall word_name (staticCommands f))).
  - intros f file Hf. destruct file as [[code|]|]; simpl; try assumption.
    now apply scan_commands_words.
  - constructor.
Qed.

Lemma dash_within :
  forall a : ascii, Ascii.eqb "-" a = true -> is_word_or_dash a = true.
Proof. intros a H. apply Ascii.eqb_eq in H. now subst a. Qed.

Lemma word_within :
  forall a : ascii, is_word a = true -> is_word_or_dash a = true.
Proof. intros a H. unfold is_word_or_dash. now rewrite H. Qed.

(** The group of a flag pattern holds word characters and dashes. *)
Lemma flag_capture (pattern : re) (g : string) :
  In pattern flagPatterns -> captured pattern 1 g ->
  all_chars is_word_or_dash g = true.
Proof.
  intros Hin Hcap. simpl in Hin. destruct Hin as [<-|[<-|[]]];
    simpl in Hcap; split_captured Hcap;
    destruct Hcap as (_ & i & s & c & c' & Hd);
    apply (derives_within is_word_or_dash _ _ _ _ _ _ Hd); simpl.
  - repeat split; try exact dash_within; auto.
  - split; exact word_within.
Qed.

Lemma normalize_flag_chars (f : string) :
  all_chars is_word_or_dash f = true ->
  all_chars is_word_or_dash (normalize_flag f) = true.
Proof.
  intros Hf. unfold normalize_flag.
  destruct (negb (startsWith "-" f)); [|assumption].
  destruct (String.length f =? 1); simpl; assumption.
Qed.

Lemma derives_or (r1 r2 : re) i p s c c' :
  derives (Or r1 r2) i p s c c' ->
  derives r1 i p s c c' \/ derives r2 i p s c c'.
Proof. inversion 1; subst; tauto. Qed.

Lemma derives_empty i p s c c' :
  derives Empty i p s c c' -> p = EmptyString.
Proof. inversion 1; subst. reflexivity. Qed.

(** What passes [/^-{1,2}[a-zA-Z]/] begins with one or two dashes and a
    letter. *)
Lemma flag_shape_prefix (f : string) :
  test flag_shape f = true ->
  exists (a : ascii) (rest : string),
    is_letter a = true
    /\ (f = String "-"%char (String a rest)
        \/ f = String "-"%char (String "-"%char (String a rest))).
Proof.
  unfold test. destruct (search flag_shape f) as [c|] eqn:Hs; [|discriminate].
  intros _. unfold flag_shape in Hs. cbn [seq] in Hs.
  apply anchored_search in Hs. destruct Hs as [e Hm].
  apply match_at_sound in Hm. destruct Hm as (p & rest & -> & H & _).
  apply derives_cat in H. destruct H as (p0 & q0 & c0 & -> & Hbol & H).
  apply derives_bol in Hbol. destruct Hbol as (-> & _ & ->).
  apply derives_cat in H. destruct H as (dashes & q1 & c1 & -> & Hd & Hl).
  apply derives_class in Hl. destruct Hl as (a & -> & Ha & _).
  unfold one_or_two, opt in Hd.
  apply derives_cat in Hd. destruct Hd as (d1 & d2 & c2 & -> & Hd1 & Hd2).
  apply derives_class in Hd1. destruct Hd1 as (x & -> & Hx & _).
  apply Ascii.eqb_eq in Hx. subst x.
  exists a, rest. split; [assumption|].
  apply derives_or in Hd2. destruct Hd2 as [Hd2|Hd2].
  - apply derives_class in Hd2. destruct Hd2 as (y & -> & Hy & _).
    apply Ascii.eqb_eq in Hy. subst y. right. reflexivity.
  - apply derives_empty in Hd2. subst d2. left. reflexivity.
Qed.

Lemma accepted_flag_name (flag : string) :
  flag_accepted flag = true -> all_chars is_word_or_dash flag = true ->
  flag_name flag.
Proof.
  unfold flag_accepted. intros Hacc Hchars.
  destruct (negb (flag =? EmptyString)%string && negb (includes flag_rejects flag));
    [|discriminate].
  destruct (includes flag_placeholders flag); [discriminate|].
  apply flag_shape_prefix in Hacc. destruct Hacc as (a & rest & Ha & Hf).
  exists a, rest. split; [assumption|]. split; [|assumption].
  destruct Hf as [-> | ->]; simpl in Hchars;
    repeat (apply andb_true_iff in Hchars; destruct Hchars as [_ Hchars]);
    assumption.
Qed.

Lemma add_flag_named (pattern : re) (code : string) (acc : list string) (c : caps) :
  In pattern flagPatterns -> In c (exec_all pattern code) ->
  Forall flag_name acc -> Forall flag_name (add_flag acc c).
Proof.
  intros Hp Hc Hacc. unfold add_flag.
  destruct (group 1 c) as [f|] eqn:Hg; [|assumption].
  destruct (flag_accepted (normalize_flag f)) eqn:Hf; [|assumption].
  apply set_add_Forall; [|assumption].
  apply accepted_flag_name; [assumption|].
  apply normalize_flag_chars.
  apply exec_loop_sound in Hc. destruct Hc as (st & rest & e & Hm).
  apply (flag_capture pattern); [assumption|].
  now apply (match_at_captured _ _ _ _ _ _ _ Hm).
Qed.

Lemma scan_flags_named (acc : list string) (code : string) :
  Forall flag_name acc -> Forall flag_name (scan_flags acc code).
Proof.
  intros Hacc. unfold scan_flags.
  apply (fold_left_invariant_in (Forall flag_name)); [|assumption].
  intros acc1 pattern Hp Hacc1.
  apply (fold_left_invariant_in (Forall flag_name)); [|assumption].
  intros acc2 c Hc Hacc2. now apply (add_flag_named pattern code).
Qed.

(** What the loop over the files keeps of the names it finds. *)
Lemma scan_files_names (files : list (option (option string))) :
  Forall word_name (staticCommands (scan_files files))
  /\ Forall flag_name (staticFlags (scan_files files)).
Proof.
  unfold scan_files.
  apply (fold_left_invariant
           (fun f => Forall word_name (staticCommands f)
                     /\ Forall flag_name (staticFlags f))).
  - intros f file [Hc Hf]. destruct file as [[code|]|]; simpl;
      try (split; assumption).
    split; [now apply scan_commands_words|now apply scan_flags_named].
  - split; constructor.
Qed.

(** X6. Whatever is scanned, every static flag is one or two dashes, a
    letter, and then only word characters and dashes. *)
Theorem static_flags_are_flag_names (files : list (option (option string))) :
  Forall flag_name (staticFlags (scan_files files)).
Proof. apply scan_files_names. Qed.

End ScannerMore.

Section ScannerSets.
Import JsString Regex Captures Scanner.

Lemma includes_In (l : list string) (x : string) :
  includes l x = true <-> In x l.
Proof.
  unfold includes. rewrite existsb_exists. split.
  - intros (y & Hy & Heq). apply String.eqb_eq in Heq. now subst y.
  - intros Hin. exists x. split; [assumption|apply String.eqb_refl].
Qed.

Lemma set_add_NoDup (x : string) (s : list string) :
  NoDup s -> NoDup (set_add x s).
Proof.
  intros Hs. unfold set_add. destruct (includes s x) eqn:Hin; [assumption|].
  apply NoDup_app; [assumption|repeat constructor; simpl; tauto|].
  intros y Hy [<-|[]]. apply includes_In in Hy. congruence.
Qed.

Lemma set_add_extends (x : string) (s : list string) :
  exists more, set_add x s = s ++ more.
Proof.
  unfold set_add. destruct (includes s x).
  - exists []. now rewrite app_nil_r.
  - now exists [x].
Qed.

Lemma extends_fold {B : Type} (f : list string -> B -> list string)
      (l : list B) (acc : list string) :
  (forall a b, exists more, f a b = a ++ more) ->
  exists more, fold_left f l acc = acc ++ more.
Proof.
  intros Hstep. revert acc. induction l as [|b l IH]; simpl; intros acc.
  - exists []. now rewrite app_nil_r.
  - destruct (Hstep acc b) as [m1 ->]. destruct (IH (acc ++ m1)) as [m2 ->].
    exists (m1 ++ m2). now rewrite app_assoc.
Qed.

Lemma add_command_extends (acc : list string) (c : caps) :
  exists more, add_command acc c = acc ++ more.
Proof.
  unfold add_command. destruct (group 1 c) as [cmd|].
  - destruct (command_accepted cmd); [apply set_add_extends|].
    exists []. now rewrite app_nil_r.
  - exists []. now rewrite app_nil_r.
Qed.

Lemma add_flag_extends (acc : list string) (c : caps) :
  exists more, add_flag acc c = acc ++ more.
Proof.
  unfold add_flag. destruct (group 1 c) as [f|].
  - destruct (flag_accepted (normalize_flag f)); [apply set_add_extends|].
    exists []. now rewrite app_nil_r.
  - exists []. now rewrite app_nil_r.
Qed.

Lemma scan_file_extends (f : findings) (file : option (option string)) :
  (exists more, staticCommands (scan_file f file) = staticCommands f ++ more)
  /\ (exists more, staticFlags (scan_file f file) = staticFlags f ++ more)
  /\ (exists more, usage (scan_file f file) = usage f ++ more).
Proof.
  destruct file as [[code|]|]; simpl;
    try (repeat split; exists []; now rewrite app_nil_r).
  repeat split.
  - unfold scan_commands. apply extends_fold. intros a pattern.
    apply extends_fold. apply add_command_extends.
  - unfold scan_flags. apply extends_fold. intros a pattern.
    apply extends_fold. apply add_flag_extends.
  - unfold scan_usage. destruct (search usage_pattern code) as [c|].
    + destruct (group 1 c) as [u|]; [now exists [trim u]|].
      exists []. now rewrite app_nil_r.
    + exists []. now rewrite app_nil_r.
Qed.

(** X4. The two static sets never hold a name twice. *)
Theorem static_sets_have_no_duplicates (files : list (option (option string))) :
  NoDup (staticCommands (scan_files files))
  /\ NoDup (staticFlags (scan_files files)).
Proof.
  unfold scan_files.
  apply (fold_left_invariant
           (fun f => NoDup (staticCommands f) /\ NoDup (staticFlags f))).
  - intros f file [Hc Hf]. destruct file as [[code|]|]; simpl;
      try (split; assumption).
    split.
    + unfold scan_commands. apply fold_left_invariant; [|assumption].
      intros a pattern. apply fold_left_invariant.
      intros acc c Hacc. unfold add_command.
      destruct (group 1 c) as [cmd|]; [|assumption].
      destruct (command_accepted cmd); [now apply set_add_NoDup|assumption].
    + unfold scan_flags. apply fold_left_invariant; [|assumption].
      intros a pattern. apply fold_left_invariant.
      intros acc c Hacc. unfold add_flag.
      destruct (group 1 c) as [g|]; [|assumption].
      destruct (flag_accepted (normalize_flag g));
        [now apply set_add_NoDup|assumption].
  - split; constructor.
Qed.

(** X7. Scanning further files only adds to what was found: the names and
    the usage lines found so far stay, in their order, at the front. A
    path that does not exist and a file whose reading throws add nothing. *)
Theorem scan_only_adds (files further : list (option (option string))) :
  (exists more,
      staticCommands (scan_files (files ++ further))
      = staticCommands (scan_files files) ++ more)
  /\ (exists more,
         staticFlags (scan_files (files ++ further))
         = staticFlags (scan_files files) ++ more)
  /\ (exists more,
         usage (scan_files (files ++ further)) = usage (scan_files files) ++ more)
  /\ (forall missing,
         missing = None \/ missing = Some None ->
         scan_files (files ++ missing :: further) = scan_files (files ++ further)).
Proof.
  assert (Hext : forall l f,
             (exists more, staticCommands (fold_left scan_file l f)
                           = staticCommands f ++ more)
             /\ (exists more, staticFlags (fold_left scan_file l f)
                              = staticFlags f ++ more)
             /\ (exists more, usage (fold_left scan_file l f) = usage f ++ more)).
  { induction l as [|x l IH]; simpl; intros f.
    - repeat split; exists []; now rewrite app_nil_r.
    - destruct (IH (scan_file f x)) as ((m1 & H1) & (m2 & H2) & (m3 & H3)).
      destruct (scan_file_extends f x) as ((n1 & E1) & (n2 & E2) & (n3 & E3)).
      rewrite H1, H2, H3, E1, E2, E3. rewrite <- !app_assoc.
      repeat split; eexists; reflexivity. }
  unfold scan_files. rewrite fold_left_app.
  destruct (Hext further (fold_left scan_file files no_findings)) as (H1 & H2 & H3).
  repeat split; try assumption.
  intros missing Hmissing. rewrite !fold_left_app. simpl.
  destruct Hmissing as [-> | ->]; reflexivity.
Qed.

Lemma scan_only_adds_witness :
  scan_files ([Some (Some "case 'a':")] ++ None :: [Some (Some "case 'b':")])
  = scan_files ([Some (Some "case 'a':")] ++ [Some (Some "case 'b':")]).
Proof.
  destruct (scan_only_adds [Some (Some "case 'a':")] [Some (Some "case 'b':")])
    as (_ & _ & _ & Hskip).
  apply Hskip. now left.
Defined.

End ScannerSets.

(** * Facts about the classes of characters *)

Section CharFacts.
Import JsString Captures.

(** A fact checked on the 256 code units holds of every character. *)
Lemma forall_ascii (p q : ascii -> bool) :
  forallb (fun n => implb (p (ascii_of_nat n)) (q (ascii_of_nat n)))
          (List.seq 0 256) = true ->
  forall a : ascii, p a = true -> q a = true.
Proof.
  intros Hall a Hp. rewrite forallb_forall in Hall.
  specialize (Hall (nat_of_ascii a)).
  rewrite ascii_nat_embedding, Hp in Hall. apply Hall.
  apply in_seq. pose proof (nat_ascii_bounded a). lia.
Qed.

Lemma all_chars_impl (p q : ascii -> bool) (s : string) :
  (forall a, p a = true -> q a = true) ->
  all_chars p s = true -> all_chars q s = true.
Proof.
  intros Hpq. induction s as [|a s IH]; simpl; [reflexivity|].
  intros H. apply andb_true_iff in H. destruct H as [Ha Hs].
  now rewrite (Hpq a Ha), IH.
Qed.

Lemma alnum_is_no_space :
  forall a, is_alnum_or_dash a = true -> negb (is_space a) = true.
Proof. apply forall_ascii. vm_compute. reflexivity. Qed.

Lemma alnum_is_no_comma :
  forall a, is_alnum_or_dash a = true -> negb (Ascii.eqb a ","%char) = true.
Proof. apply forall_ascii. vm_compute. reflexivity. Qed.

Lemma space_is_no_comma :
  forall a, is_space a = true -> negb (Ascii.eqb a ","%char) = true.
Proof. apply forall_ascii. vm_compute. reflexivity. Qed.

Lemma word_or_dash_is_no_space :
  forall a, is_word_or_dash a = true -> negb (is_space a) = true.
Proof. apply forall_ascii. vm_compute. reflexivity. Qed.

Lemma letter_is_word_or_dash :
  forall a, is_letter a = true -> is_word_or_dash a = true.
Proof. apply forall_ascii. vm_compute. reflexivity. Qed.

Lemma trimEnd_no_space (s : string) :
  all_chars (fun a => negb (is_space a)) s = true -> trimEnd s = s.
Proof.
  induction s as [|a s IH]; simpl; [reflexivity|].
  intros H. apply andb_true_iff in H. destruct H as [Ha Hs].
  rewrite (IH Hs). apply negb_true_iff in Ha. rewrite Ha.
  destruct s; reflexivity.
Qed.

Lemma trimEnd_after (x t : string) :
  all_chars (fun a => negb (is_space a)) x = true ->
  trimEnd (x ++ t) = (x ++ trimEnd t)%string.
Proof.
  induction x as [|a x IH]; simpl; [reflexivity|].
  intros H. apply andb_true_iff in H. destruct H as [Ha Hx].
  rewrite (IH Hx). apply negb_true_iff in Ha. rewrite Ha.
  destruct (x ++ trimEnd t)%string; reflexivity.
Qed.

Lemma split_piece (sep : ascii) (x y : string) :
  all_chars (fun a => negb (Ascii.eqb a sep)) x = true ->
  split sep (x ++ String sep y) = x :: split sep y.
Proof.
  induction x as [|a x IH]; simpl.
  - now rewrite Ascii.eqb_refl.
  - intros H. apply andb_true_iff in H. destruct H as [Ha Hx].
    apply negb_true_iff in Ha. rewrite Ha, (IH Hx). reflexivity.
Qed.

Lemma split_whole (sep : ascii) (x : string) :
  all_chars (fun a => negb (Ascii.eqb a sep)) x = true -> split sep x = [x].
Proof.
  induction x as [|a x IH]; simpl; [reflexivity|].
  intros H. apply andb_true_iff in H. destruct H as [Ha Hx].
  apply negb_true_iff in Ha. rewrite Ha, (IH Hx). reflexivity.
Qed.

End CharFacts.

(** * More on the help-text parser *)

Section HelpMore.
Import JsString Regex Captures HelpParser.

Lemma plus_alnum_text (i : nat) (w s : string) (c c' : caps) :
  derives (plus alnum_or_dash) i w s c c' ->
  w <> EmptyString /\ all_chars is_alnum_or_dash w = true.
Proof.
  intros Hd. split.
  - apply (derives_nonempty _ _ _ _ _ _ Hd). simpl. lia.
  - apply (derives_within is_alnum_or_dash _ _ _ _ _ _ Hd). simpl. auto.
Qed.

Lemma trim_dashed (sp w : string) :
  all_chars is_space sp = true -> w <> EmptyString ->
  all_chars is_alnum_or_dash w = true ->
  dashed_name (trim (sp ++ String "-"%char w)).
Proof.
  intros Hsp Hw Hchars. unfold trim. rewrite (trimStart_spaces _ _ Hsp).
  change (trimStart (String "-"%char w)) with (String "-"%char w).
  rewrite trimEnd_no_space.
  - now exists w.
  - simpl. now apply (all_chars_impl _ _ _ alnum_is_no_space).
Qed.

(** The further alternatives of a flag line, one after each comma. *)
Lemma further_alternatives i p s c c' :
  derives (Star (Cat (chr ","%char)
                     (Cat (plus space) (Cat (chr "-"%char) (plus alnum_or_dash)))))
          i p s c c' ->
  forall x : string,
    all_chars (fun a => negb (Ascii.eqb a ","%char)) x = true ->
    exists pieces,
      split ","%char (x ++ p) = x :: pieces
      /\ Forall (fun piece => dashed_name (trim piece)) pieces.
Proof.
  remember (Star _) as r eqn:Hr. induction 1; try discriminate; intros x Hx.
  - exists []. rewrite append_nil_r. split; [now apply split_whole|constructor].
  - injection Hr as ->. specialize (IHderives2 eq_refl).
    apply derives_cat in H. destruct H as (comma & q1 & c3 & -> & Hcomma & H).
    apply derives_class in Hcomma. destruct Hcomma as (a & -> & Ha & _).
    apply Ascii.eqb_eq in Ha. subst a.
    apply derives_cat in H. destruct H as (sp & q2 & c4 & -> & Hsp & H).
    apply derives_spaces1 in Hsp. destruct Hsp as [Hsp _].
    apply derives_cat in H. destruct H as (dash & w & c5 & -> & Hdash & Hw).
    apply derives_class in Hdash. destruct Hdash as (a & -> & Ha & _).
    apply Ascii.eqb_eq in Ha. subst a.
    apply plus_alnum_text in Hw. destruct Hw as [Hw Hchars].
    destruct (IHderives2 (sp ++ String "-"%char w)%string) as (pieces & Hsplit & Hall).
    { rewrite all_chars_app. simpl.
      rewrite (all_chars_impl _ _ _ space_is_no_comma Hsp).
      now rewrite (all_chars_impl _ _ _ alnum_is_no_comma Hchars). }
    exists ((sp ++ String "-"%char w)%string :: pieces). split.
    + simpl. rewrite !append_assoc. simpl.
      rewrite (split_piece _ _ _ Hx). f_equal.
      rewrite <- Hsplit. now rewrite !append_assoc.
    + constructor; [now apply trim_dashed|assumption].
Qed.

(** The alternatives of a flag line are dashed names. *)
Lemma alternatives_are_dashed (alternatives : string) :
  captured flag_pattern 1 alternatives ->
  Forall dashed_name (map trim (split ","%char alternatives)).
Proof.
  unfold flag_pattern. cbn [seq]. intros Hcap. simpl in Hcap.
  split_captured Hcap;
    try (destruct Hcap as (Heq & _); discriminate Heq).
  destruct Hcap as (_ & i & s & c & c' & H).
  apply derives_cat in H. destruct H as (dash & q1 & c1 & -> & Hdash & H).
  apply derives_class in Hdash. destruct Hdash as (a & -> & Ha & _).
  apply Ascii.eqb_eq in Ha. subst a.
  apply derives_cat in H. destruct H as (w & more & c2 & -> & Hw & Hmore).
  apply plus_alnum_text in Hw. destruct Hw as [Hw Hchars].
  destruct (further_alternatives _ _ _ _ _ Hmore (String "-"%char w))
    as (pieces & Hsplit & Hall).
  { simpl. now apply (all_chars_impl _ _ _ alnum_is_no_comma). }
  simpl. simpl in Hsplit. rewrite Hsplit. simpl. constructor.
  - apply (trim_dashed EmptyString w); auto.
  - now apply Forall_map.
Qed.

Lemma primary_In (names : list string) :
  names <> [] -> In (primary names) names.
Proof.
  unfold primary, find. intros Hne.
  destruct (List.find (startsWith "--") names) as [n|] eqn:Hfind.
  - now apply find_some in Hfind.
  - destruct names; [contradiction|now left].
Qed.

Lemma split_nonempty (sep : ascii) (s : string) : split sep s <> [].
Proof.
  destruct s as [|a s]; simpl; [discriminate|].
  destruct (Ascii.eqb a sep); [discriminate|].
  destruct (split sep s); discriminate.
Qed.

Lemma description_one_line (pattern : re) (d : string) :
  pattern = command_pattern \/ pattern = flag_pattern ->
  captured pattern 2 d -> one_line d.
Proof.
  intros [-> | ->] Hcap; simpl in Hcap; split_captured Hcap;
    try (destruct Hcap as (Heq & _); discriminate Heq);
    destruct Hcap as (_ & i & s & c & c' & Hd); split.
  - apply (derives_nonempty _ _ _ _ _ _ Hd). simpl. lia.
  - apply (derives_within _ _ _ _ _ _ _ Hd). simpl. auto.
  - apply (derives_nonempty _ _ _ _ _ _ Hd). simpl. lia.
  - apply (derives_within _ _ _ _ _ _ _ Hd). simpl. auto.
Qed.

Lemma command_token (n : string) :
  captured command_pattern 1 n -> command_name n.
Proof.
  intros Hcap. simpl in Hcap. split_captured Hcap;
    try (destruct Hcap as (Heq & _); discriminate Heq).
  destruct Hcap as (_ & i & s & c & c' & H).
  apply derives_cat in H. destruct H as (first & rest & c1 & -> & Hfirst & Hrest).
  apply derives_class in Hfirst. destruct Hfirst as (a & -> & Ha & _).
  exists a, rest. repeat split; [assumption|].
  apply (derives_within is_word_or_dash _ _ _ _ _ _ Hrest). simpl. auto.
Qed.

Lemma step_keeps_records_good (st : state) (line : string) :
  Forall (fun e => command_name (name e) /\ one_line (desc e)) (commands (snd st))
  /\ Forall (fun e => dashed_name (name e) /\ one_line (desc e)) (flags (snd st)) ->
  Forall (fun e => command_name (name e) /\ one_line (desc e))
         (commands (snd (step st line)))
  /\ Forall (fun e => dashed_name (name e) /\ one_line (desc e))
            (flags (snd (step st line))).
Proof.
  destruct st as [section found]. intros [Hc Hf]. unfold step.
  destruct (test header_pattern (trim line)); [now split|].
  destruct (trim line =? EmptyString)%string; [now split|].
  destruct (section_is section "commands").
  - destruct (search command_pattern line) as [c|] eqn:Hs; [|now split].
    destruct (group 1 c) as [n|] eqn:H1; [|now split].
    destruct (group 2 c) as [d|] eqn:H2; [|now split].
    apply search_sound in Hs. destruct Hs as (st & rest & e & Hm).
    simpl. split; [|assumption].
    apply Forall_app. split; [assumption|]. constructor; [|constructor].
    split; simpl.
    + apply command_token. now apply (match_at_captured _ _ _ _ _ _ _ Hm).
    + apply (description_one_line command_pattern); [now left|].
      now apply (match_at_captured _ _ _ _ _ _ _ Hm).
  - destruct (section_is section "options" || section_is section "flags");
      [|now split].
    destruct (search flag_pattern line) as [c|] eqn:Hs; [|now split].
    destruct (group 1 c) as [alts|] eqn:H1; [|now split].
    destruct (group 2 c) as [d|] eqn:H2; [|now split].
    apply search_sound in Hs. destruct Hs as (st & rest & e & Hm).
    simpl. split; [assumption|].
    apply Forall_app. split; [assumption|]. constructor; [|constructor].
    split; simpl.
    + assert (Hall : Forall dashed_name (map trim (split ","%char alts)))
        by (apply alternatives_are_dashed;
            now apply (match_at_captured _ _ _ _ _ _ _ Hm)).
      rewrite Forall_forall in Hall. apply Hall, primary_In.
      intros Hnil. apply map_eq_nil in Hnil. now apply split_nonempty in Hnil.
    + apply (description_one_line flag_pattern); [now right|].
      now apply (match_at_captured _ _ _ _ _ _ _ Hm).
Qed.

Lemma run_keeps_records_good (st : state) (lines : list string) :
  Forall (fun e => command_name (name e) /\ one_line (desc e)) (commands (snd st))
  /\ Forall (fun e => dashed_name (name e) /\ one_line (desc e)) (flags (snd st)) ->
  Forall (fun e => command_name (name e) /\ one_line (desc e))
         (commands (snd (run st lines)))
  /\ Forall (fun e => dashed_name (name e) /\ one_line (desc e))
            (flags (snd (run st lines))).
Proof.
  unfold run.
  apply (fold_left_invariant
           (fun st => Forall (fun e => command_name (name e) /\ one_line (desc e))
                             (commands (snd st))
                      /\ Forall (fun e => dashed_name (name e) /\ one_line (desc e))
                                (flags (snd st)))).
  intros st' line. apply step_keeps_records_good.
Qed.

(** X10. Whatever the help text, every command the parser reports is
    named by a word character followed by word characters and dashes,
    every flag by a dash followed by letters, digits and dashes, and every
    description is a non-empty text of one line. *)
Theorem help_records_are_well_formed (output : string) :
  Forall (fun e => command_name (name e) /\ one_line (desc e))
         (commands (parseHelpOutput output))
  /\ Forall (fun e => dashed_name (name e) /\ one_line (desc e))
            (flags (parseHelpOutput output)).
Proof.
  unfold parseHelpOutput. apply run_keeps_records_good. split; constructor.
Qed.

(** X8. Lines give records only under a commands, options or flags
    header: while the cursor is unset or on another section and no header
    comes, the parser reports nothing, whatever the lines look like. *)
Theorem no_section_no_records
        (section : option string) (found : result) (lines : list string) :
  section_is section "commands" = false ->
  section_is section "options" = false ->
  section_is section "flags" = false ->
  (forall line, In line lines -> test header_pattern (trim line) = false) ->
  run (section, found) lines = (section, found).
Proof.
  intros Hc Ho Hf. unfold run.
  induction lines as [|line lines IH]; intros Hlines; [reflexivity|].
  cbn [fold_left].
  assert (Hstep : step (section, found) line = (section, found)).
  { unfold step. rewrite (Hlines line (or_introl eq_refl)), Hc, Ho, Hf. simpl.
    destruct (trim line =? EmptyString)%string; reflexivity. }
  rewrite Hstep. apply IH. intros l Hl. apply Hlines. now right.
Qed.

Lemma no_section_no_records_witness :
  run (None, empty) ["  build    Build the site"; "  -f, --force  Overwrite"]
  = (None, empty)
  /\ run (Some "usage", empty) ["  tool build  Build the site"]
     = (Some "usage", empty).
Proof.
  split.
  - apply no_section_no_records; try reflexivity.
    intros line [<-|[<-|[]]]; vm_compute; reflexivity.
  - apply no_section_no_records; try reflexivity.
    intros line [<-|[]]; vm_compute; reflexivity.
Defined.

End HelpMore.

Section CommandLines.
Import JsString Regex Captures HelpParser.

Lemma letter_is_no_space :
  forall a, is_letter a = true -> negb (is_space a) = true.
Proof. apply forall_ascii. vm_compute. reflexivity. Qed.

(** A header begins with letters and a colon. *)
Lemma header_shape (t : string) :
  test header_pattern t = true ->
  exists w rest, t = (w ++ String ":"%char rest)%string
                 /\ all_chars is_letter w = true.
Proof.
  unfold test. destruct (search header_pattern t) as [c|] eqn:Hs; [|discriminate].
  intros _. unfold header_pattern in Hs. cbn [seq] in Hs.
  apply anchored_search in Hs. destruct Hs as [e Hm].
  apply match_at_sound in Hm. destruct Hm as (p & rest & -> & H & _).
  apply derives_cat in H. destruct H as (p0 & q0 & c0 & -> & Hbol & H).
  apply derives_bol in Hbol. destruct Hbol as (-> & _ & ->).
  apply derives_cat in H. destruct H as (w & colon & c1 & -> & Hw & Hcolon).
  apply derives_group in Hw. destruct Hw as (c2 & -> & Hw).
  apply derives_class in Hcolon. destruct Hcolon as (a & -> & Ha & _).
  apply (forall_ascii
           (fun b => Ascii.eqb (canonicalize ":"%char) (canonicalize b))
           (fun b => Ascii.eqb b ":"%char)) in Ha; [|vm_compute; reflexivity].
  apply Ascii.eqb_eq in Ha. subst a. exists w, rest. split.
  - simpl. now rewrite append_assoc.
  - apply (derives_within is_letter _ _ _ _ _ _ Hw). simpl.
    repeat split; apply forall_ascii; vm_compute; reflexivity.
Qed.

Lemma no_colon_after_token (n w x rest : string) :
  all_chars is_word_or_dash n = true ->
  all_chars is_letter w = true ->
  x = EmptyString \/ (exists g t, x = String g t /\ is_space g = true) ->
  (n ++ x)%string = (w ++ String ":"%char rest)%string -> False.
Proof.
  revert w. induction n as [|a n IH]; intros w Hn Hw Hx Heq; simpl in *.
  - destruct Hx as [-> | (g & t & -> & Hg)].
    + destruct w; discriminate.
    + destruct w as [|b w]; simpl in *.
      * injection Heq as -> _. discriminate.
      * injection Heq as -> _. apply andb_true_iff in Hw. destruct Hw as [Hb _].
        apply letter_is_no_space in Hb. rewrite Hg in Hb. discriminate.
  - apply andb_true_iff in Hn. destruct Hn as [Ha Hn].
    destruct w as [|b w]; simpl in *.
    + injection Heq as -> _. discriminate.
    + injection Heq as -> Heq. apply andb_true_iff in Hw. destruct Hw as [_ Hw].
      now apply (IH w).
Qed.

Lemma trimEnd_head (g : ascii) (t : string) :
  trimEnd (String g t) = EmptyString \/ exists t', trimEnd (String g t) = String g t'.
Proof.
  simpl. destruct (trimEnd t).
  - destruct (is_space g); [now left|right; eexists; reflexivity].
  - right. eexists. reflexivity.
Qed.

(** The shape of a line the command pattern matches. *)
Lemma command_line_shape (line : string) (c : caps) :
  search command_pattern line = Some c ->
  exists indent token gap description,
    line = (indent ++ token ++ gap ++ description)%string
    /\ all_chars is_space indent = true
    /\ all_chars is_space gap = true /\ gap <> EmptyString
    /\ command_name token
    /\ c = [(2, description); (1, token)].
Proof.
  unfold command_pattern. cbn [seq]. intros Hsearch.
  apply anchored_search in Hsearch. destruct Hsearch as [e Hmatch].
  apply match_at_sound in Hmatch.
  destruct Hmatch as (p & rest & -> & H & _).
  apply derives_cat in H. destruct H as (p0 & q0 & c0 & -> & Hbol & H).
  apply derives_bol in Hbol. destruct Hbol as (-> & _ & ->).
  apply derives_cat in H. destruct H as (indent & q1 & c1 & -> & Hindent & H).
  apply derives_spaces2 in Hindent. destruct Hindent as [Hindent ->].
  apply derives_cat in H. destruct H as (token & q2 & c2 & -> & Htoken & H).
  apply derives_group in Htoken. destruct Htoken as (c3 & -> & Htoken).
  assert (c3 = []) by (apply derives_groupless in Htoken; [assumption|reflexivity]).
  subst c3.
  assert (Hname : command_name token).
  { apply derives_cat in Htoken.
    destruct Htoken as (first & more & c4 & -> & Hfirst & Hmore).
    apply derives_class in Hfirst. destruct Hfirst as (a & -> & Ha & _).
    exists a, more. repeat split; [assumption|].
    apply (derives_within is_word_or_dash _ _ _ _ _ _ Hmore). simpl. auto. }
  apply derives_cat in H. destruct H as (gap & q3 & c5 & -> & Hgap & H).
  assert (Hgap' : gap <> EmptyString)
    by (apply (derives_nonempty _ _ _ _ _ _ Hgap); simpl; lia).
  apply derives_spaces1 in Hgap. destruct Hgap as [Hgap ->].
  apply derives_cat in H. destruct H as (description & q4 & c6 & -> & Hdesc & H).
  apply derives_group in Hdesc. destruct Hdesc as (c7 & -> & Hdesc).
  assert (c7 = [(1, token)])
    by (apply derives_groupless in Hdesc; [assumption|reflexivity]).
  subst c7.
  apply derives_eol in H. destruct H as (-> & -> & ->).
  exists indent, token, gap, description.
  simpl. rewrite !append_nil_r. repeat split; assumption.
Qed.

(** What a matched line of a commands section adds. *)
Lemma matched_command_line (found : result) (line : string) (c : caps) :
  search command_pattern line = Some c ->
  exists token description : string,
    c = [(2, description); (1, token)]
    /\ step (Some "commands", found) line
       = (Some "commands",
          push_command found {| name := token; desc := description |}).
Proof.
  intros Hmatch.
  destruct (command_line_shape line c Hmatch)
    as (indent & token & gap & description
        & Hline & Hindent & Hgap & Hgap' & Hname & Hc).
  exists token, description. split; [assumption|].
  destruct Hname as (a & more & -> & Ha & Hmore).
  assert (Htoken : all_chars is_word_or_dash (String a more) = true)
    by (simpl; now rewrite (word_within a Ha)).
  assert (Htrim : trim line
                  = (String a more ++ trimEnd (gap ++ description))%string).
  { rewrite Hline. unfold trim. rewrite (trimStart_spaces _ _ Hindent).
    simpl. pose proof (word_or_dash_is_no_space a (word_within a Ha)) as Hsp.
    apply negb_true_iff in Hsp. rewrite Hsp.
    change (String a (more ++ gap ++ description)%string)
      with (String a more ++ (gap ++ description))%string.
    apply trimEnd_after.
    now apply (all_chars_impl _ _ _ word_or_dash_is_no_space). }
  assert (Hheader : test header_pattern (trim line) = false).
  { destruct (test header_pattern (trim line)) eqn:Ht; [|reflexivity].
    exfalso. apply header_shape in Ht. destruct Ht as (w & rest & Heq & Hw).
    rewrite Htrim in Heq.
    apply (no_colon_after_token _ _ _ _ Htoken Hw) in Heq; [assumption|].
    destruct gap as [|g gap]; [contradiction|]. simpl in Hgap.
    apply andb_true_iff in Hgap. destruct Hgap as [Hg _].
    destruct (trimEnd_head g (gap ++ description)) as [Hnil|[t Ht]].
    - left. exact Hnil.
    - right. exists g, t. split; assumption. }
  unfold step. rewrite Hheader, Htrim, Hmatch, Hc. reflexivity.
Qed.

End CommandLines.

(** * How the matcher runs through a text

    The greedy path: a star of a class takes the whole run of the class
    when the rest of the pattern matches after it. *)

Section MatcherRuns.
Import JsString Regex Shape.

Lemma star_loop_S body (k : cont) fuel i s c :
  star_loop body k (S fuel) i s c
  = match body i s c (fun i' s' c' =>
                        if i <? i' then star_loop body k fuel i' s' c' else None) with
    | Some x => Some x
    | None => k i s c
    end.
Proof. reflexivity. Qed.

Lemma m_class_cons (p : ascii -> bool) a s i c (k : cont) :
  m (Class p) i (String a s) c k = if p a then k (S i) s c else None.
Proof. reflexivity. Qed.

Lemma m_class_nil (p : ascii -> bool) i c (k : cont) :
  m (Class p) i EmptyString c k = None.
Proof. reflexivity. Qed.

Lemma star_class_run (p : ascii -> bool) (k : cont) (x : nat * caps) :
  forall (w : string) (fuel i : nat) (rest : string) (c : caps),
    all_chars p w = true -> off p rest ->
    String.length w <= fuel ->
    k (i + String.length w) rest c = Some x ->
    star_loop (m (Class p)) k fuel i (w ++ rest) c = Some x.
Proof.
  induction w as [|a w IH]; intros fuel i rest c Hw Hoff Hfuel Hk.
  - simpl in Hk. rewrite Nat.add_0_r in Hk.
    destruct fuel as [|fuel]; [assumption|].
    rewrite star_loop_S. cbn [append].
    destruct rest as [|b rest]; [now rewrite m_class_nil|].
    simpl in Hoff. now rewrite m_class_cons, Hoff.
  - simpl in Hw. apply andb_true_iff in Hw. destruct Hw as [Ha Hw].
    destruct fuel as [|fuel]; simpl in Hfuel; [lia|].
    rewrite star_loop_S. cbn [append]. rewrite m_class_cons, Ha.
    destruct (Nat.ltb_spec i (S i)) as [_|Hge]; [|lia].
    rewrite (IH fuel (S i) rest c Hw Hoff); [reflexivity|lia|].
    simpl in Hk. now rewrite Nat.add_succ_r in Hk.
Qed.

Lemma m_star_class (p : ascii -> bool) (w rest : string) (i : nat) (c : caps)
      (k : cont) (x : nat * caps) :
  all_chars p w = true -> off p rest ->
  k (i + String.length w) rest c = Some x ->
  m (Star (Class p)) i (w ++ rest) c k = Some x.
Proof.
  intros Hw Hoff Hk. cbn [m].
  apply star_class_run; try assumption.
  rewrite append_length. lia.
Qed.

Lemma m_plus_class (p : ascii -> bool) (w rest : string) (i : nat) (c : caps)
      (k : cont) (x : nat * caps) :
  w <> EmptyString -> all_chars p w = true -> off p rest ->
  k (i + String.length w) rest c = Some x ->
  m (plus (Class p)) i (w ++ rest) c k = Some x.
Proof.
  intros Hne Hw Hoff Hk. destruct w as [|a w]; [contradiction|].
  simpl in Hw. apply andb_true_iff in Hw. destruct Hw as [Ha Hw].
  unfold plus. cbn [m append]. rewrite Ha.
  apply (m_star_class p w rest (S i) c k x Hw Hoff).
  simpl in Hk. now rewrite Nat.add_succ_r in Hk.
Qed.

Lemma m_two_or_more_class (p : ascii -> bool) (w rest : string) (i : nat)
      (c : caps) (k : cont) (x : nat * caps) :
  2 <= String.length w -> all_chars p w = true -> off p rest ->
  k (i + String.length w) rest c = Some x ->
  m (two_or_more (Class p)) i (w ++ rest) c k = Some x.
Proof.
  intros Hlen Hw Hoff Hk. destruct w as [|a [|b w]]; simpl in Hlen; try lia.
  simpl in Hw. apply andb_true_iff in Hw. destruct Hw as [Ha Hw].
  apply andb_true_iff in Hw. destruct Hw as [Hb Hw].
  unfold two_or_more. cbn [m append]. rewrite Ha, Hb.
  apply (m_star_class p w rest (S (S i)) c k x Hw Hoff).
  simpl in Hk. now rewrite !Nat.add_succ_r in Hk.
Qed.

Lemma m_chr (a : ascii) (s : string) (i : nat) (c : caps) (k : cont) :
  m (chr a) i (String a s) c k = k (S i) s c.
Proof. unfold chr. cbn [m]. now rewrite Ascii.eqb_refl. Qed.

Lemma m_chr_off (a : ascii) (s : string) (i : nat) (c : caps) (k : cont) :
  off (Ascii.eqb a) s -> m (chr a) i s c k = None.
Proof.
  unfold chr. cbn [m]. destruct s as [|b s]; [reflexivity|].
  simpl. now intros ->.
Qed.


Lemma m_cat (r1 r2 : re) i s c (k : cont) :
  m (Cat r1 r2) i s c k = m r1 i s c (fun i' s' c' => m r2 i' s' c' k).
Proof. reflexivity. Qed.

Lemma m_group (n : nat) (r : re) i s c (k : cont) :
  m (Group n r) i s c k
  = m r i s c (fun i' s' c' => k i' s' ((n, substring 0 (i' - i) s) :: c')).
Proof. reflexivity. Qed.

Lemma m_plus_class_end (p : ascii -> bool) (w : string) (i : nat) (c : caps)
      (k : cont) (x : nat * caps) :
  w <> EmptyString -> all_chars p w = true ->
  k (i + String.length w) EmptyString c = Some x ->
  m (plus (Class p)) i w c k = Some x.
Proof.
  intros Hne Hw Hk. rewrite <- (append_nil_r w).
  now apply m_plus_class.
Qed.

Lemma blank_head (s : string) :
  blank s -> exists a s', s = String a s' /\ is_space a = true.
Proof.
  intros [Hne Hs]. destruct s as [|a s']; [contradiction|].
  simpl in Hs. apply andb_true_iff in Hs. exists a, s'. tauto.
Qed.

Lemma m_star (r : re) i s c (k : cont) :
  m (Star r) i s c k = star_loop (m r) k (String.length s) i s c.
Proof. reflexivity. Qed.

Lemma m_bol (s : string) (c : caps) (k : cont) : m Bol 0 s c k = k 0 s c.
Proof. reflexivity. Qed.

Lemma m_eol (i : nat) (c : caps) (k : cont) :
  m Eol i EmptyString c k = k i EmptyString c.
Proof. reflexivity. Qed.

Lemma substring_whole (s : string) : substring 0 (String.length s) s = s.
Proof. rewrite <- (append_nil_r s) at 2. apply substring_prefix. Qed.

Lemma search_of_match_at (r : re) (s : string) (e : nat) (c : caps) :
  match_at r 0 s = Some (e, c) -> search r s = Some c.
Proof.
  intros H. unfold search. destruct s as [|a s]; simpl; now rewrite H.
Qed.

End MatcherRuns.

(** * Headers of sections *)

Section Headers.
Import JsString Regex Captures HelpParser Shape.

Lemma forall_ascii2 (p : ascii -> ascii -> bool) :
  forallb (fun n => forallb (fun k => p (ascii_of_nat n) (ascii_of_nat k))
                            (List.seq 0 256))
          (List.seq 0 256) = true ->
  forall a b : ascii, p a b = true.
Proof.
  intros Hall a b. rewrite forallb_forall in Hall.
  specialize (Hall (nat_of_ascii a)). rewrite ascii_nat_embedding in Hall.
  assert (Ha : In (nat_of_ascii a) (List.seq 0 256))
    by (apply in_seq; pose proof (nat_ascii_bounded a); lia).
  specialize (Hall Ha). rewrite forallb_forall in Hall.
  specialize (Hall (nat_of_ascii b)). rewrite ascii_nat_embedding in Hall.
  apply Hall. apply in_seq. pose proof (nat_ascii_bounded b). lia.
Qed.

(** Under the i flag a letter matches the letters that lower-case as it
    does, and nothing else. *)
Lemma letters_match (a b : ascii) :
  is_letter a = true ->
  Ascii.eqb (canonicalize a) (canonicalize b)
  = is_letter b && Ascii.eqb (lower_char a) (lower_char b).
Proof.
  intros Ha.
  pose proof (forall_ascii2
                (fun a b => implb (is_letter a)
                              (Bool.eqb (Ascii.eqb (canonicalize a) (canonicalize b))
                                        (is_letter b
                                         && Ascii.eqb (lower_char a) (lower_char b)))))
    as H.
  specialize (H ltac:(vm_compute; reflexivity) a b). cbv beta in H.
  rewrite Ha in H.
  simpl in H. now apply Bool.eqb_prop in H.
Qed.


Lemma m_chr_i_cons (a b : ascii) (s : string) (i : nat) (c : caps) (k : cont) :
  m (chr_i a) i (String b s) c k
  = if Ascii.eqb (canonicalize a) (canonicalize b) then k (S i) s c else None.
Proof. reflexivity. Qed.

(** A word under the i flag runs through the texts that lower-case as it
    does. *)
Lemma m_lit_i (word : string) :
  all_chars is_letter word = true ->
  forall (w s : string) (i : nat) (c : caps) (k : cont),
    all_chars is_letter w = true ->
    toLowerCase w = toLowerCase word ->
    m (lit_i word) i (w ++ s) c k = k (i + String.length w) s c.
Proof.
  induction word as [|a word IH]; intros Hword w s i c k Hw Heq.
  - destruct w; [|discriminate]. simpl. now rewrite Nat.add_0_r.
  - destruct w as [|b w]; [discriminate|].
    simpl in Hword, Hw, Heq. injection Heq as Hab Heq.
    apply andb_true_iff in Hword. destruct Hword as [Ha Hword].
    apply andb_true_iff in Hw. destruct Hw as [Hb Hw].
    assert (Hmatch : Ascii.eqb (canonicalize a) (canonicalize b) = true).
    { rewrite (letters_match a b Ha), Hb, Hab. apply Ascii.eqb_refl. }
    destruct word as [|a' word].
    + destruct w; [|discriminate].
      cbn [lit_i append]. rewrite m_chr_i_cons, Hmatch. simpl.
      now rewrite Nat.add_1_r.
    + change (lit_i (String a (String a' word)))
        with (Cat (chr_i a) (lit_i (String a' word))).
      rewrite m_cat. cbn [append]. rewrite m_chr_i_cons, Hmatch.
      rewrite (IH Hword w s (S i) c k Hw Heq).
      cbn [String.length]. now rewrite Nat.add_succ_r.
Qed.

(** A word under the i flag fails on a text that begins otherwise. *)
Lemma m_lit_i_off (a b : ascii) (word s : string) (i : nat) (c : caps)
      (k : cont) :
  is_letter a = true -> lower_char a <> lower_char b ->
  m (lit_i (String a word)) i (String b s) c k = None.
Proof.
  intros Ha Hab.
  assert (Hmatch : Ascii.eqb (canonicalize a) (canonicalize b) = false).
  { rewrite (letters_match a b Ha).
    destruct (Ascii.eqb_spec (lower_char a) (lower_char b)); [contradiction|].
    apply andb_false_r. }
  destruct word as [|a' word].
  - cbn [lit_i]. now rewrite m_chr_i_cons, Hmatch.
  - change (lit_i (String a (String a' word)))
      with (Cat (chr_i a) (lit_i (String a' word))).
    now rewrite m_cat, m_chr_i_cons, Hmatch.
Qed.

Lemma derives_lit_i (word : string) :
  all_chars is_letter word = true ->
  forall i p s c c',
    derives (lit_i word) i p s c c' ->
    all_chars is_letter p = true /\ toLowerCase p = toLowerCase word.
Proof.
  induction word as [|a word IH]; intros Hword i p s c c' H.
  - apply derives_empty in H. subst p. now split.
  - simpl in Hword. apply andb_true_iff in Hword. destruct Hword as [Ha Hword].
    assert (Hone : forall b, Ascii.eqb (canonicalize a) (canonicalize b) = true ->
                             is_letter b = true /\ lower_char b = lower_char a).
    { intros b Hb. rewrite (letters_match a b Ha) in Hb.
      apply andb_true_iff in Hb. destruct Hb as [Hb Hab].
      apply Ascii.eqb_eq in Hab. now split. }
    destruct word as [|a' word].
    + apply derives_class in H. destruct H as (b & -> & Hb & _).
      destruct (Hone b Hb) as [Hl Hlow]. simpl. now rewrite Hl, Hlow.
    + change (lit_i (String a (String a' word)))
        with (Cat (chr_i a) (lit_i (String a' word))) in H.
      apply derives_cat in H. destruct H as (p1 & p2 & c1 & -> & H1 & H2).
      apply derives_class in H1. destruct H1 as (b & -> & Hb & _).
      destruct (Hone b Hb) as [Hl Hlow].
      destruct (IH Hword _ _ _ _ _ H2) as [Hp2 Hlow2].
      simpl. rewrite Hl, Hp2, Hlow. simpl in Hlow2. rewrite Hlow2. now split.
Qed.

Lemma colon_only (b : ascii) :
  Ascii.eqb (canonicalize ":"%char) (canonicalize b) = Ascii.eqb b ":"%char.
Proof.
  pose proof (forall_ascii
                (fun _ => true)
                (fun b => Bool.eqb (Ascii.eqb (canonicalize ":"%char) (canonicalize b))
                                   (Ascii.eqb b ":"%char))) as H.
  specialize (H ltac:(vm_compute; reflexivity) b eq_refl).
  now apply Bool.eqb_prop in H.
Qed.

(** The header pattern accepts exactly the headers of the four sections. *)
Lemma header_test_iff (t : string) :
  test header_pattern t = true
  <-> exists section, In section keywords /\ header_of section t.
Proof.
  split.
  - unfold test. destruct (search header_pattern t) as [c|] eqn:Hs; [|discriminate].
    intros _. unfold header_pattern in Hs. cbn [seq alt] in Hs.
    apply anchored_search in Hs. destruct Hs as [e Hm].
    apply match_at_sound in Hm. destruct Hm as (p & rest & -> & H & _).
    apply derives_cat in H. destruct H as (p0 & q0 & c0 & -> & Hbol & H).
    apply derives_bol in Hbol. destruct Hbol as (-> & _ & ->).
    apply derives_cat in H. destruct H as (w & colon & c1 & -> & Hw & Hcolon).
    apply derives_group in Hw. destruct Hw as (c2 & -> & Hw).
    apply derives_class in Hcolon. destruct Hcolon as (a & -> & Ha & _).
    rewrite colon_only in Ha. apply Ascii.eqb_eq in Ha. subst a.
    assert (Hword : all_chars is_letter w = true /\ In (toLowerCase w) keywords).
    { apply derives_or in Hw. destruct Hw as [Hw|Hw];
        [apply derives_lit_i in Hw; [|reflexivity];
         destruct Hw as [Hl ->]; split; [assumption|simpl; tauto]|].
      apply derives_or in Hw. destruct Hw as [Hw|Hw];
        [apply derives_lit_i in Hw; [|reflexivity];
         destruct Hw as [Hl ->]; split; [assumption|simpl; tauto]|].
      apply derives_or in Hw. destruct Hw as [Hw|Hw];
        apply derives_lit_i in Hw; try reflexivity;
        destruct Hw as [Hl ->]; split; try assumption; simpl; tauto. }
    destruct Hword as [Hletters Hin].
    exists (toLowerCase w). split; [assumption|].
    exists w, rest. repeat split; [|assumption].
    simpl. now rewrite append_assoc.
  - intros (section & Hin & keyword & rest & -> & Hletters & <-).
    assert (Hmatch : exists x,
               match_at header_pattern 0 (keyword ++ String ":"%char rest)%string
               = Some x).
    { unfold match_at, header_pattern. cbn [seq alt].
      rewrite m_cat, m_bol, m_cat, m_group.
      assert (Hend : forall (i : nat) (c : caps),
                 exists x,
                   m (chr_i ":"%char) i (String ":"%char rest) c
                     (fun i' _ c' => Some (i', c')) = Some x).
      { intros i c. rewrite m_chr_i_cons, colon_only.
        simpl. eexists. reflexivity. }
      destruct keyword as [|b keyword]; [simpl in Hin; intuition discriminate|].
      simpl in Hletters. apply andb_true_iff in Hletters.
      destruct Hletters as [Hb Hkeyword].
      assert (Hall : all_chars is_letter (String b keyword) = true)
        by (simpl; now rewrite Hb).
      cbn [m].
      assert (Hoff : forall a x : ascii,
                 lower_char b = x -> lower_char a <> x ->
                 lower_char a <> lower_char b)
        by (intros a x <-; auto).
      destruct Hin as [Hin|[Hin|[Hin|[Hin|[]]]]]; symmetry in Hin;
        pose proof Hin as Hfirst; cbn [toLowerCase] in Hfirst;
        injection Hfirst as Hfirst _.
      - rewrite (m_lit_i "Commands" eq_refl _ _ _ _ _ Hall Hin). apply Hend.
      - cbn [append].
        rewrite (m_lit_i_off "C" b); [|reflexivity|apply (Hoff _ _ Hfirst); discriminate].
        change (String b (keyword ++ String ":"%char rest))%string
          with (String b keyword ++ String ":"%char rest)%string.
        rewrite (m_lit_i "Usage" eq_refl _ _ _ _ _ Hall Hin). apply Hend.
      - cbn [append].
        rewrite (m_lit_i_off "C" b); [|reflexivity|apply (Hoff _ _ Hfirst); discriminate].
        rewrite (m_lit_i_off "U" b); [|reflexivity|apply (Hoff _ _ Hfirst); discriminate].
        change (String b (keyword ++ String ":"%char rest))%string
          with (String b keyword ++ String ":"%char rest)%string.
        rewrite (m_lit_i "Options" eq_refl _ _ _ _ _ Hall Hin). apply Hend.
      - cbn [append].
        rewrite (m_lit_i_off "C" b); [|reflexivity|apply (Hoff _ _ Hfirst); discriminate].
        rewrite (m_lit_i_off "U" b); [|reflexivity|apply (Hoff _ _ Hfirst); discriminate].
        rewrite (m_lit_i_off "O" b); [|reflexivity|apply (Hoff _ _ Hfirst); discriminate].
        change (String b (keyword ++ String ":"%char rest))%string
          with (String b keyword ++ String ":"%char rest)%string.
        rewrite (m_lit_i "Flags" eq_refl _ _ _ _ _ Hall Hin). apply Hend. }
    destruct Hmatch as [[e c] Hmatch]. unfold test.
    now rewrite (search_of_match_at _ _ _ _ Hmatch).
Qed.

Lemma letter_is_no_colon (s : string) :
  all_chars is_letter s = true ->
  all_chars (fun a => negb (Ascii.eqb a ":"%char)) s = true.
Proof.
  apply all_chars_impl. apply forall_ascii. vm_compute. reflexivity.
Qed.

(** What the loop does with the header of a section. *)
Lemma header_step (st : state) (line section : string) :
  In section keywords -> header_of section (trim line) ->
  step st line = (Some section, snd st).
Proof.
  intros Hin Hheader.
  assert (Htest : test header_pattern (trim line) = true)
    by (apply header_test_iff; now exists section).
  rewrite (step_header _ _ Htest).
  destruct Hheader as (keyword & rest & -> & Hletters & <-).
  now rewrite (split_piece _ _ _ (letter_is_no_colon _ Hletters)).
Qed.

End Headers.

(** * Lines that document flags *)

Section FlagLines.
Import JsString Regex Captures HelpParser Shape.

Lemma further_length (l : list (string * string)) :
  List.length l <= String.length (FlagLine.further l).
Proof.
  induction l as [|sn l IH]; simpl; [lia|]. rewrite !append_length. lia.
Qed.

(** What may follow the alternatives: nothing, or a character that is no
    comma and no letter, digit or dash. *)
Lemma star_further (k : cont) (x : nat * caps) (rest : string) (c : caps) :
  off (Ascii.eqb ","%char) rest -> off is_alnum_or_dash rest ->
  forall (l : list (string * string)) (fuel i : nat),
    Forall (fun sn => blank (fst sn) /\ dashed_name (snd sn)) l ->
    List.length l <= fuel ->
    k (i + String.length (FlagLine.further l)) rest c = Some x ->
    star_loop (m FlagLine.segment) k fuel i (FlagLine.further l ++ rest) c = Some x.
Proof.
  intros Hcomma Halnum.
  induction l as [|[sp n] l IH]; intros fuel i Hl Hfuel Hk.
  - cbn [FlagLine.further fold_right append String.length] in *.
    rewrite Nat.add_0_r in Hk.
    destruct fuel as [|fuel]; [assumption|].
    rewrite star_loop_S. unfold FlagLine.segment. cbn [seq].
    rewrite m_cat, (m_chr_off _ _ _ _ _ Hcomma). assumption.
  - inversion Hl as [|? ? [Hsp Hn] Hl']; subst. cbn [fst snd] in Hsp, Hn.
    destruct Hn as (w & -> & Hw & Hwall).
    destruct fuel as [|fuel]; [simpl in Hfuel; lia|].
    rewrite star_loop_S.
    assert (Hbody :
      m FlagLine.segment i (FlagLine.further ((sp, String "-"%char w) :: l) ++ rest) c
        (fun i' s' c' =>
           if i <? i' then star_loop (m FlagLine.segment) k fuel i' s' c' else None)
      = Some x).
    { unfold FlagLine.segment. cbn [seq FlagLine.further fold_right fst snd append].
      rewrite !append_assoc. cbn [append]. rewrite !append_assoc.
      rewrite m_cat, m_chr. rewrite m_cat.
      apply m_plus_class; [apply Hsp|apply Hsp|reflexivity|].
      rewrite m_cat, m_chr.
      apply m_plus_class; [assumption|assumption| |].
      - destruct l as [|[sp' n'] l]; [exact Halnum|reflexivity].
      - destruct (Nat.ltb_spec i (S (S i + String.length sp) + String.length w))
          as [_|Hge]; [|lia].
        apply IH; [assumption|simpl in Hfuel; lia|].
        simpl in Hk. rewrite !append_length in Hk. simpl in Hk.
        rewrite append_length in Hk.
        replace (S (S i + String.length sp) + String.length w
                 + String.length (FlagLine.further l))
          with (i + S (String.length sp
                       + S (String.length w
                            + String.length (FlagLine.further l))))
          by lia.
        assumption. }
    now rewrite Hbody.
Qed.






Lemma dashed_is_no_space :
  forall a, is_space a = true -> is_alnum_or_dash a = false.
Proof.
  intros a Ha. destruct (is_alnum_or_dash a) eqn:H; [|reflexivity].
  apply alnum_is_no_space in H. rewrite Ha in H. discriminate.
Qed.

Lemma comma_is_no_space :
  forall a, is_space a = true -> Ascii.eqb ","%char a = false.
Proof.
  intros a Ha. apply space_is_no_comma in Ha. apply negb_true_iff in Ha.
  now rewrite Ascii.eqb_sym.
Qed.

(** The flag pattern matches a well-formed line, and its groups hold the
    alternatives and the description. *)
Lemma flag_line_match (l : FlagLine.t) :
  FlagLine.well_formed l ->
  exists e,
    match_at flag_pattern 0 (FlagLine.text l)
    = Some (e, [(2, FlagLine.description l); (1, FlagLine.alternatives l)]).
Proof.
  destruct l as [indent first more gap description].
  unfold FlagLine.well_formed, FlagLine.text, FlagLine.alternatives.
  cbn [FlagLine.indent FlagLine.first FlagLine.more FlagLine.gap
       FlagLine.description].
  intros ([Hlen Hindent] & (w & -> & Hw & Hwall) & Hmore & Hgap & [Hline Hstart]).
  destruct (blank_head gap Hgap) as (g & gap' & Egap & Hg).
  eexists. unfold match_at, flag_pattern. cbn [seq].
  rewrite m_cat, m_bol.
  rewrite m_cat. apply m_two_or_more_class; [assumption|assumption|reflexivity|].
  rewrite m_cat, m_group.
  rewrite !append_assoc. cbn [append].
  rewrite m_cat, m_chr, m_cat.
  apply m_plus_class; [assumption|assumption| |].
  { destruct more as [|[sp n] more]; [|reflexivity].
    subst gap. simpl. now apply dashed_is_no_space. }
  rewrite m_star.
  apply star_further.
  - subst gap. simpl. now apply comma_is_no_space.
  - subst gap. simpl. now apply dashed_is_no_space.
  - assumption.
  - rewrite append_length. pose proof (further_length more). lia.
  - replace (S (0 + String.length indent) + String.length w
             + String.length (FlagLine.further more) - (0 + String.length indent))
      with (String.length (String "-"%char (w ++ FlagLine.further more)))
      by (cbn [String.length]; rewrite append_length; lia).
    rewrite <- append_assoc.
    change (String "-"%char ((w ++ FlagLine.further more) ++ gap ++ description))
      with (String "-"%char (w ++ FlagLine.further more) ++ gap ++ description)%string.
    rewrite substring_prefix.
    rewrite m_cat. apply m_plus_class; [apply Hgap|apply Hgap|assumption|].
    rewrite m_cat, m_group.
    apply m_plus_class_end; [apply Hline|apply Hline|].
    rewrite m_eol.
    match goal with
    | |- context [substring 0 (?a + String.length description - ?a) description] =>
        replace (a + String.length description - a) with (String.length description)
          by lia
    end.
    rewrite substring_whole. reflexivity.
Qed.



Lemma dashed_has_no_space (n : string) :
  dashed_name n -> all_chars (fun a => negb (is_space a)) n = true.
Proof.
  intros (w & -> & _ & Hw). simpl.
  now apply (all_chars_impl _ _ _ alnum_is_no_space).
Qed.

Lemma dashed_has_no_comma (n : string) :
  dashed_name n -> all_chars (fun a => negb (Ascii.eqb a ","%char)) n = true.
Proof.
  intros (w & -> & _ & Hw). simpl.
  now apply (all_chars_impl _ _ _ alnum_is_no_comma).
Qed.

Lemma trim_alternative (sp n : string) :
  all_chars is_space sp = true -> dashed_name n -> trim (sp ++ n) = n.
Proof.
  intros Hsp Hn. unfold trim. rewrite (trimStart_spaces _ _ Hsp).
  pose proof (dashed_has_no_space n Hn) as Hns.
  destruct Hn as (w & -> & _ & _). simpl trimStart.
  now apply trimEnd_no_space.
Qed.

Lemma split_further (x : string) (l : list (string * string)) :
  all_chars (fun a => negb (Ascii.eqb a ","%char)) x = true ->
  Forall (fun sn => blank (fst sn) /\ dashed_name (snd sn)) l ->
  split ","%char (x ++ FlagLine.further l)
  = x :: map (fun sn => (fst sn ++ snd sn)%string) l.
Proof.
  revert x. induction l as [|[sp n] l IH]; intros x Hx Hl.
  - simpl. rewrite append_nil_r. now apply split_whole.
  - inversion Hl as [|? ? [[_ Hsp] Hn] Hl']; subst. cbn [fst snd] in *.
    cbn [FlagLine.further fold_right fst snd append map].
    rewrite (split_piece _ _ _ Hx). f_equal.
    rewrite <- append_assoc. apply IH; [|assumption].
    rewrite all_chars_app, (dashed_has_no_comma n Hn), andb_true_r.
    now apply (all_chars_impl _ _ _ space_is_no_comma).
Qed.

(** The names of a well-formed line are its alternatives, split at the
    commas and trimmed. *)
Lemma names_of_alternatives (l : FlagLine.t) :
  FlagLine.well_formed l ->
  map trim (split ","%char (FlagLine.alternatives l)) = FlagLine.names l.
Proof.
  intros (_ & Hfirst & Hmore & _).
  unfold FlagLine.alternatives, FlagLine.names.
  rewrite (split_further _ _ (dashed_has_no_comma _ Hfirst) Hmore).
  cbn [map]. f_equal.
  - now apply (trim_alternative EmptyString).
  - rewrite map_map. induction Hmore as [|[sp n] more [[_ Hsp] Hn] _ IH];
      [reflexivity|]. cbn [map fst snd] in *. rewrite IH.
    now rewrite (trim_alternative sp n Hsp Hn).
Qed.

Lemma flag_line_step (section : string) (found : result) (l : FlagLine.t) :
  section = "options" \/ section = "flags" ->
  FlagLine.well_formed l ->
  step (Some section, found) (FlagLine.text l)
  = (Some section,
     push_flag found {| name := Spec.canonical_name (FlagLine.names l);
                        desc := FlagLine.description l |}).
Proof.
  intros Hsection Hl.
  destruct (flag_line_match l Hl) as [e Hmatch].
  apply search_of_match_at in Hmatch.
  pose proof (names_of_alternatives l Hl) as Hnames.
  destruct Hl as ([_ Hindent] & (w & Hfirst & _) & _).
  assert (Htrim : exists t, trim (FlagLine.text l) = String "-"%char t).
  { unfold FlagLine.text, FlagLine.alternatives. rewrite Hfirst.
    cbn [append]. now apply trim_dash. }
  destruct Htrim as [t Htrim].
  unfold step. rewrite Htrim, dash_is_no_header, Hmatch.
  cbn [group Nat.eqb]. rewrite Hnames, primary_canonical.
  destruct Hsection as [-> | ->]; reflexivity.
Qed.

Lemma split_join_lines (lines : list string) :
  lines <> [] ->
  Forall (fun line => all_chars (fun a => negb (Ascii.eqb a LF)) line = true) lines ->
  split LF (join (String LF EmptyString) lines) = lines.
Proof.
  intros Hne Hall. induction Hall as [|x xs Hx Hxs IH]; [contradiction|].
  destruct xs as [|y ys].
  - simpl. now apply split_whole.
  - cbn [join]. cbn [append]. rewrite (split_piece _ _ _ Hx). f_equal.
    apply IH. discriminate.
Qed.

Lemma run_flag_lines (section : string) (ls : list FlagLine.t) :
  section = "options" \/ section = "flags" ->
  Forall FlagLine.well_formed ls ->
  forall found : result,
    run (Some section, found) (map FlagLine.text ls)
    = (Some section,
       {| commands := commands found;
          flags := flags found
                   ++ map (fun l => {| name := Spec.canonical_name (FlagLine.names l);
                                       desc := FlagLine.description l |}) ls |}).
Proof.
  intros Hsection Hall. induction Hall as [|l ls Hl _ IH]; intros found.
  - simpl. rewrite app_nil_r. now destruct found.
  - cbn [map run fold_left]. rewrite (flag_line_step _ _ _ Hsection Hl).
    unfold run in IH. rewrite IH. unfold push_flag. cbn [commands flags].
    now rewrite <- app_assoc.
Qed.

(** C9. The parser reads a help text line by line: the parse of the lines
    joined by line feeds is where the loop over the lines ends. A line is
    taken for a header exactly when its trimmed text is one of the words
    Commands, Usage, Options and Flags, in any letter case, followed by a
    colon. A header only moves the cursor to its section: the records
    after it are the records before it, whatever surrounds the line, so a
    header is never emitted as data. Under an options or flags section
    every well-formed flag line (indentation of two or more white-space
    characters, one or more dashed alternatives separated by a comma and
    white space, white space, a description that does not begin with
    white space) adds exactly one record: its name is the long form among
    the alternatives when there is one and the first alternative
    otherwise, its description the trailing text. So the parse of an
    options or flags header followed by such lines has no command and one
    flag per line, in their order. *)
Theorem help_parser_lines :
  (forall lines : list string,
      lines <> [] -> Forall no_line_feed lines ->
      parseHelpOutput (join (String LF EmptyString) lines)
      = snd (run (None, empty) lines))
  /\ (forall line : string,
         test header_pattern (trim line) = true
         <-> exists section, In section keywords /\ header_of section (trim line))
  /\ (forall (st : state) (before after : list string) (line section : string),
         In section keywords -> header_of section (trim line) ->
         snd (step st line) = snd st
         /\ run st (before ++ line :: after)
            = run (Some section, snd (run st before)) after
         /\ (Forall no_line_feed (before ++ line :: after) ->
             parseHelpOutput
               (join (String LF EmptyString) (before ++ line :: after))
             = snd (run (Some section, snd (run (None, empty) before)) after)))
  /\ (forall (section : string) (found : result) (l : FlagLine.t),
         section = "options" \/ section = "flags" ->
         FlagLine.well_formed l ->
         step (Some section, found) (FlagLine.text l)
         = (Some section, push_flag found (FlagLine.record l)))
  /\ (forall (header section : string) (ls : list FlagLine.t),
         no_line_feed header ->
         header_of section (trim header) ->
         section = "options" \/ section = "flags" ->
         Forall FlagLine.well_formed ls ->
         Forall (fun l => no_line_feed (FlagLine.text l)) ls ->
         parseHelpOutput
           (join (String LF EmptyString) (header :: map FlagLine.text ls))
         = {| commands := []; flags := map FlagLine.record ls |}).
Proof.
  assert (Hparse : forall lines : list string,
             lines <> [] -> Forall no_line_feed lines ->
             parseHelpOutput (join (String LF EmptyString) lines)
             = snd (run (None, empty) lines)).
  { intros lines Hne Hlines. unfold parseHelpOutput.
    now rewrite split_join_lines. }
  split; [exact Hparse|]. split; [|split; [|split]].
  - intros line. apply header_test_iff.
  - intros st before after line section Hin Hheader.
    assert (Hrun : forall st' : state,
               run st' (before ++ line :: after)
               = run (Some section, snd (run st' before)) after).
    { intros st'. unfold run. rewrite fold_left_app. simpl.
      now rewrite (header_step _ _ _ Hin Hheader). }
    split; [now rewrite (header_step _ _ _ Hin Hheader)|].
    split; [apply Hrun|].
    intros Hlines. rewrite Hparse; [|now destruct before|assumption].
    now rewrite Hrun.
  - intros section found l. apply flag_line_step.
  - intros header section ls Hheader Hsection Hcases Hls Hfree.
    assert (Hin : In section keywords)
      by (destruct Hcases as [-> | ->]; simpl; tauto).
    rewrite Hparse; [|discriminate|].
    + cbn [run fold_left]. rewrite (header_step _ _ _ Hin Hsection).
      pose proof (run_flag_lines _ ls Hcases Hls empty) as Hrun.
      unfold run in Hrun. cbn [snd]. rewrite Hrun. reflexivity.
    + constructor; [assumption|]. now apply Forall_map.
Qed.

Lemma force_line_well_formed : FlagLine.well_formed HelpScenario.force_line.
Proof.
  repeat split; try discriminate; try (cbn; lia).
  - exists "f". repeat split. discriminate.
  - repeat constructor; try discriminate.
    exists "-force". repeat split. discriminate.
Defined.

Lemma quiet_line_well_formed : FlagLine.well_formed HelpScenario.quiet_line.
Proof.
  repeat split; try discriminate; try (cbn; lia).
  - exists "q". repeat split. discriminate.
  - repeat constructor; try discriminate.
    exists "s". repeat split. discriminate.
Defined.

Lemma options_header : header_of "options" (trim "Options:").
Proof. exists "Options", EmptyString. repeat split. Defined.

Lemma help_parser_lines_witness :
  parseHelpOutput "Options:
  -f, --force    Overwrite the file
  -q, -s  Be quiet"
  = {| commands := [];
       flags := [ {| name := "--force"; desc := "Overwrite the file" |};
                  {| name := "-q"; desc := "Be quiet" |} ] |}
  /\ step (Some "flags", empty) "  -q, -s  Be quiet"
     = (Some "flags", push_flag empty {| name := "-q"; desc := "Be quiet" |})
  /\ run (None, empty) ["Options:"; "  -f, --force    Overwrite the file"]
     = run (Some "options", empty) ["  -f, --force    Overwrite the file"].
Proof.
  destruct help_parser_lines as (Hparse & _ & Hheader & Hflag & Htext).
  split; [|split].
  - apply (Htext "Options:" "options"
                 [HelpScenario.force_line; HelpScenario.quiet_line]).
    + reflexivity.
    + exact options_header.
    + now left.
    + constructor; [apply force_line_well_formed|].
      constructor; [apply quiet_line_well_formed|constructor].
    + constructor; [reflexivity|]. constructor; [reflexivity|constructor].
  - apply (Hflag "flags" empty HelpScenario.quiet_line); [now right|].
    apply quiet_line_well_formed.
  - destruct (Hheader (None, empty) [] ["  -f, --force    Overwrite the file"]
                      "Options:" "options") as (_ & Hrun & _).
    + simpl. tauto.
    + exact options_header.
    + exact Hrun.
Defined.

End FlagLines.

(** * Lines that document commands *)

Section CommandRecords.
Import JsString Regex Captures HelpParser Shape.

Lemma word_is_no_space : forall a, is_word a = true -> is_space a = false.
Proof.
  intros a Ha. apply negb_true_iff. apply word_or_dash_is_no_space.
  unfold is_word_or_dash. now rewrite Ha.
Qed.

Lemma command_line_match (l : CommandLine.t) :
  CommandLine.well_formed l ->
  exists e,
    match_at command_pattern 0 (CommandLine.text l)
    = Some (e, [(2, CommandLine.description l); (1, CommandLine.token l)]).
Proof.
  destruct l as [indent token gap description].
  unfold CommandLine.well_formed, CommandLine.text.
  cbn [CommandLine.indent CommandLine.token CommandLine.gap
       CommandLine.description].
  intros ([Hlen Hindent] & (a & more & -> & Ha & Hmore) & Hgap & [Hline Hstart]).
  destruct (blank_head gap Hgap) as (g & gap' & Egap & Hg).
  eexists. unfold match_at, command_pattern. cbn [seq].
  rewrite m_cat, m_bol.
  rewrite m_cat. apply m_two_or_more_class; [assumption|assumption| |].
  { simpl. now apply word_is_no_space. }
  rewrite m_cat, m_group. cbn [append].
  rewrite m_cat. unfold word at 1. rewrite m_class_cons, Ha.
  apply m_star_class; [exact Hmore| |].
  { subst gap. simpl. apply negb_true_iff.
    change (negb (is_word_or_dash g) = true).
    destruct (is_word_or_dash g) eqn:E; [|reflexivity].
    apply word_or_dash_is_no_space in E. rewrite Hg in E. discriminate. }
  replace (S (0 + String.length indent) + String.length more
           - (0 + String.length indent))
    with (String.length (String a more)) by (cbn [String.length]; lia).
  change (String a (more ++ gap ++ description))
    with (String a more ++ gap ++ description)%string.
  rewrite substring_prefix.
  rewrite m_cat. apply m_plus_class; [apply Hgap|apply Hgap|assumption|].
  rewrite m_cat, m_group.
  apply m_plus_class_end; [apply Hline|apply Hline|].
  rewrite m_eol.
  match goal with
  | |- context [substring 0 (?a + String.length description - ?a) description] =>
      replace (a + String.length description - a) with (String.length description)
        by lia
  end.
  rewrite substring_whole. reflexivity.
Qed.


Lemma command_line_step (found : result) (l : CommandLine.t) :
  CommandLine.well_formed l ->
  step (Some "commands", found) (CommandLine.text l)
  = (Some "commands", push_command found (CommandLine.record l)).
Proof.
  intros Hl. destruct (command_line_match l Hl) as [e Hmatch].
  apply search_of_match_at in Hmatch.
  destruct (matched_command_line found _ _ Hmatch)
    as (token & description & [= <- <-] & Hstep).
  exact Hstep.
Qed.

(** X9. Under a commands section every well-formed command line
    (indentation of two or more white-space characters, a token that is
    a word character followed by word characters and dashes, white space,
    a description that does not begin with white space) adds exactly one
    record, with the token as name and the trailing text as description;
    such a line is never taken for a header or a blank line. So the parse
    of the header of the commands section followed by such lines has one
    command per line, in their order, and no flag. *)
Theorem help_command_lines :
  (forall (found : result) (l : CommandLine.t),
      CommandLine.well_formed l ->
      step (Some "commands", found) (CommandLine.text l)
      = (Some "commands", push_command found (CommandLine.record l)))
  /\ (forall (header : string) (ls : list CommandLine.t),
         no_line_feed header ->
         header_of "commands" (trim header) ->
         Forall CommandLine.well_formed ls ->
         Forall (fun l => no_line_feed (CommandLine.text l)) ls ->
         parseHelpOutput
           (join (String LF EmptyString) (header :: map CommandLine.text ls))
         = {| commands := map CommandLine.record ls; flags := [] |}).
Proof.
  split; [exact command_line_step|].
  intros header ls Hheader Hsection Hls Hfree.
  unfold parseHelpOutput. rewrite split_join_lines; [|discriminate|].
  - cbn [run fold_left].
    rewrite (header_step _ _ "commands" (or_introl eq_refl) Hsection).
    cbn [snd].
    assert (Hrun : forall found : result,
               fold_left step (map CommandLine.text ls) (Some "commands", found)
               = (Some "commands",
                  {| commands := commands found ++ map CommandLine.record ls;
                     flags := flags found |})).
    { clear Hfree. induction Hls as [|l ls Hl _ IH]; intros found.
      - simpl. rewrite app_nil_r. now destruct found.
      - cbn [map fold_left]. rewrite (command_line_step _ _ Hl), IH.
        unfold push_command. cbn [commands flags]. now rewrite <- app_assoc. }
    now rewrite Hrun.
  - constructor; [assumption|]. now apply Forall_map.
Qed.

Lemma build_line_well_formed : CommandLine.well_formed HelpScenario.build_line.
Proof.
  repeat split; try discriminate; try (cbn; lia).
  exists "b"%char, "uild". repeat split.
Defined.

Lemma help_command_lines_witness :
  step (Some "commands", empty) "  build    Build the site"
  = (Some "commands",
     push_command empty {| name := "build"; desc := "Build the site" |})
  /\ parseHelpOutput "Commands:
  build    Build the site"
     = {| commands := [ {| name := "build"; desc := "Build the site" |} ];
          flags := [] |}.
Proof.
  destruct help_command_lines as [Hstep Htext]. split.
  - apply (Hstep empty HelpScenario.build_line build_line_well_formed).
  - apply (Htext "Commands:" [HelpScenario.build_line]).
    + reflexivity.
    + exists "Commands", EmptyString. repeat split.
    + constructor; [apply build_line_well_formed|constructor].
    + constructor; [reflexivity|constructor].
Defined.

End CommandRecords.

(** * Property accesses in a source text *)

Section PropertyAccess.
Import JsString Regex Captures Scanner Shape.



























End PropertyAccess.

(** * More on the repository identifier *)

Section RepositoryMore.
Import JsString Regex Captures Js Repository.

(** The identifier throws exactly when the manifest is [null] or the
    [url] of an object-valued [repository] is neither a string nor
    missing; whatever [.git/config] holds, or fails to, plays no part. *)
Lemma identify_throws_iff (pkg : value) (config : option (option string)) :
  (exists e, identify pkg config = Throw e)
  <-> pkg = VNull \/ pkg = VUndefined
      \/ Manifest.url_readable (Manifest.field pkg "repository") = false.
Proof.
  assert (Hid : (exists e, identify pkg config = Throw e)
                <-> (exists e, from_manifest pkg = Throw e)).
  { unfold identify, bind. destruct (from_manifest pkg) as [[g|]|e].
    - split; intros [e H]; discriminate.
    - split; intros [e H]; discriminate.
    - split; intros _; now exists e. }
  rewrite Hid, from_manifest_throws_iff. split.
  - intros [H|[H|(fields & l & url & -> & Hrepo & Hurl & Hbad)]];
      [now left|right; now left|].
    right; right. simpl. rewrite Hrepo. simpl. rewrite Hurl.
    now rewrite Hbad.
  - intros [H|[H|H]]; [now left|right; now left|].
    right; right. destruct pkg as [| |b|z|s|l|fields]; simpl in H;
      try discriminate.
    destruct (assoc "repository" fields) as [r|] eqn:Hrepo; [|discriminate].
    destruct r as [| |b|z|s|l|l]; simpl in H; try discriminate.
    destruct (assoc "url" l) as [url|] eqn:Hurl; [|discriminate].
    exists fields, l, url. repeat split; try assumption.
    now apply negb_false_iff in H.
Qed.

Lemma from_manifest_inv (pkg : value) (g : RepositoryRef) :
  from_manifest pkg = Ok (Some g) ->
  exists s c, search manifest_pattern s = Some c
              /\ group 1 c = Some (user g) /\ group 2 c = Some (repo g).
Proof.
  unfold from_manifest, bind. intros H.
  destruct (prop pkg "repository") as [r|]; [|discriminate].
  destruct (truthy r); [|discriminate].
  assert (Hstr : forall s,
             match search manifest_pattern s with
             | Some c =>
                 match group 1 c, group 2 c with
                 | Some u, Some r => Ok (Some {| user := u; repo := r |})
                 | _, _ => Ok None
                 end
             | None => Ok None
             end = Ok (Some g) ->
             exists s c, search manifest_pattern s = Some c
                         /\ group 1 c = Some (user g) /\ group 2 c = Some (repo g)).
  { intros s Hs. destruct (search manifest_pattern s) as [c|] eqn:Hsearch;
      [|discriminate].
    destruct (group 1 c) as [u|] eqn:H1; [|discriminate].
    destruct (group 2 c) as [r'|] eqn:H2; [|discriminate].
    injection Hs as <-. now exists s, c. }
  destruct r as [| |b|z|s|l|l]; simpl in H; try discriminate;
    try (now apply Hstr in H).
  destruct (match assoc "url" l with Some x => x | None => VUndefined end)
    as [| |b|z|s|l'|l']; try discriminate.
  now apply Hstr in H.
Qed.

Lemma remove_first_absent (s : string) :
  all_chars (fun a => negb (Ascii.eqb period a)) s = true ->
  remove_first ".git" s = s.
Proof.
  induction s as [|a s IH]; simpl; [reflexivity|].
  intros H. apply andb_true_iff in H. destruct H as [Ha Hs].
  apply negb_true_iff in Ha. unfold period in Ha. rewrite Ha. simpl.
  now rewrite IH.
Qed.

(** X11. A repository reference the identifier gives has a user that is
    not empty and holds no slash, and a repository name that is not empty
    and holds neither a slash nor a period; so no [.git] suffix is left. *)
Theorem repository_names_are_clean
        (pkg : value) (config : option (option string)) (g : RepositoryRef) :
  identify pkg config = Ok (Some g) ->
  user g <> EmptyString
  /\ all_chars (fun a => negb (Ascii.eqb slash a)) (user g) = true
  /\ repo g <> EmptyString
  /\ all_chars (fun a => negb (Ascii.eqb slash a || Ascii.eqb period a))
               (repo g) = true.
Proof.
  unfold identify, bind. intros H.
  destruct (from_manifest pkg) as [[g'|]|e] eqn:Hm; [| |discriminate].
  - injection H as ->. apply from_manifest_inv in Hm.
    destruct Hm as (s & c & Hs & H1 & H2).
    apply search_sound in Hs. destruct Hs as (st & rest & e & Hmatch).
    pose proof (match_at_captured _ _ _ _ _ _ _ Hmatch H1) as Hu.
    pose proof (match_at_captured _ _ _ _ _ _ _ Hmatch H2) as Hr.
    cbn -[Ascii.eqb] in Hu, Hr. split_captured Hu; split_captured Hr;
      try (destruct Hu as (Heq & _); discriminate Heq);
      try (destruct Hr as (Heq & _); discriminate Heq).
    destruct Hu as (_ & i1 & s1 & c1 & c1' & Hu).
    destruct Hr as (_ & i2 & s2 & c2 & c2' & Hr).
    repeat split.
    + apply (derives_nonempty _ _ _ _ _ _ Hu). simpl. lia.
    + apply (derives_within _ _ _ _ _ _ _ Hu). simpl. auto.
    + apply (derives_nonempty _ _ _ _ _ _ Hr). simpl. lia.
    + apply (derives_within _ _ _ _ _ _ _ Hr). simpl. auto.
  - injection H as H. unfold from_git_config in H.
    destruct config as [[text|]|]; try discriminate.
    destruct (search config_pattern text) as [c|] eqn:Hs; [|discriminate].
    destruct (group 1 c) as [u|] eqn:H1; [|discriminate].
    destruct (group 2 c) as [r|] eqn:H2; [|discriminate].
    injection H as <-. simpl.
    apply search_sound in Hs. destruct Hs as (st & rest & e & Hmatch).
    pose proof (match_at_captured _ _ _ _ _ _ _ Hmatch H1) as Hu.
    pose proof (match_at_captured _ _ _ _ _ _ _ Hmatch H2) as Hr.
    cbn -[Ascii.eqb] in Hu, Hr. split_captured Hu; split_captured Hr;
      try (destruct Hu as (Heq & _); discriminate Heq);
      try (destruct Hr as (Heq & _); discriminate Heq).
    destruct Hu as (_ & i1 & s1 & c1 & c1' & Hu).
    destruct Hr as (_ & i2 & s2 & c2 & c2' & Hr).
    assert (Hclean : all_chars (fun a => negb (Ascii.eqb slash a || Ascii.eqb period a))
                               r = true).
    { apply (derives_within _ _ _ _ _ _ _ Hr). simpl.
      split; intros a Ha; apply negb_true_iff in Ha;
        apply orb_false_iff in Ha; destruct Ha as [Ha _];
        now apply negb_true_iff. }
    rewrite remove_first_absent.
    + repeat split.
      * apply (derives_nonempty _ _ _ _ _ _ Hu). simpl. lia.
      * apply (derives_within _ _ _ _ _ _ _ Hu). simpl. auto.
      * apply (derives_nonempty _ _ _ _ _ _ Hr). simpl. lia.
      * exact Hclean.
    + apply (all_chars_impl
               (fun a => negb (Ascii.eqb slash a || Ascii.eqb period a)));
        [|exact Hclean].
      intros a Ha. apply negb_true_iff in Ha. apply orb_false_iff in Ha.
      destruct Ha as [_ Ha]. now apply negb_true_iff.
Qed.

Lemma repository_names_are_clean_witness :
  all_chars (fun a => negb (Ascii.eqb slash a || Ascii.eqb period a)) "widgets"
  = true.
Proof.
  apply (repository_names_are_clean Scenario.acme_pkg None
           {| user := "acme"; repo := "widgets" |}).
  vm_compute. reflexivity.
Defined.

End RepositoryMore.

(** * More on the command line *)

Section CliMore.
Import JsString Js.

Lemma prop_field (pkg : value) (k : string) :
  pkg <> VNull -> pkg <> VUndefined -> prop pkg k = Ok (Manifest.field pkg k).
Proof. destruct pkg; simpl; intros H1 H2; try reflexivity; contradiction. Qed.

Lemma or_else_truthy (a b : value) : truthy b = true -> truthy (or_else a b) = true.
Proof. unfold or_else. destruct (truthy a) eqn:Ha; auto. Qed.

Lemma object_values_truthy (v : value) :
  truthy v = true -> exists l, object_values v = Ok l.
Proof. destruct v; simpl; intros H; try discriminate; eexists; reflexivity. Qed.

Lemma object_keys_truthy (v : value) :
  truthy v = true -> exists l, object_keys v = Ok l.
Proof. destruct v; simpl; intros H; try discriminate; eexists; reflexivity. Qed.

Lemma path_join_ok (dir : string) (v : value) :
  (exists s, Cli.path_join dir v = Ok s) <-> Manifest.is_text v = true.
Proof.
  destruct v; simpl; split; intros H; try discriminate;
    try (destruct H as [s H]; discriminate); try reflexivity.
  eexists; reflexivity.
Qed.

Lemma mapM_path_join_ok (dir : string) (l : list value) :
  (exists r, mapM (Cli.path_join dir) l = Ok r)
  <-> forallb Manifest.is_text l = true.
Proof.
  induction l as [|v l IH]; simpl.
  - split; [reflexivity|]. intros _. now exists [].
  - unfold bind. rewrite andb_true_iff, <- IH, <- (path_join_ok dir). split.
    + intros [r H]. destruct (Cli.path_join dir v) as [s|]; [|discriminate].
      destruct (mapM (Cli.path_join dir) l) as [r'|]; [|discriminate].
      split; eexists; reflexivity.
    + intros [[s ->] [r ->]]. eexists; reflexivity.
Qed.

Lemma identify_ok (pkg : value) (config : option (option string)) :
  pkg <> VNull -> pkg <> VUndefined ->
  (exists g, Repository.identify pkg config = Ok g)
  <-> Manifest.url_readable (Manifest.field pkg "repository") = true.
Proof.
  intros H1 H2.
  pose proof (identify_throws_iff pkg config) as Hthrow. split.
  - intros [g Hg].
    destruct (Manifest.url_readable (Manifest.field pkg "repository")) eqn:Hu;
      [reflexivity|].
    destruct (proj2 Hthrow) as [e He]; [tauto|]. congruence.
  - intros Hu. destruct (Repository.identify pkg config) as [g|e] eqn:Hid;
      [now exists g|].
    destruct (proj1 Hthrow) as [H|[H|H]]; [now exists e| | |]; congruence.
Qed.

Lemma well_formed_unfold (pkg : value) :
  pkg <> VNull -> pkg <> VUndefined ->
  Manifest.well_formed pkg
  = Manifest.url_readable (Manifest.field pkg "repository")
    && Manifest.is_text (or_else (Manifest.field pkg "main") (VStr "index.js"))
    && match object_values (or_else (Manifest.field pkg "bin") (VObj [])) with
       | Ok l => forallb Manifest.is_text l
       | Throw _ => false
       end.
Proof. destruct pkg; intros H1 H2; try reflexivity; contradiction. Qed.

(** The analysis goes through exactly on the well-formed manifests. *)
Lemma analyse_ok_iff (localeCompare : string -> string -> Z)
      (d : Cli.directory) (pkg : value) :
  (exists a, Cli.analyse localeCompare d pkg = Ok a)
  <-> Manifest.well_formed pkg = true.
Proof.
  assert (Hcases : pkg = VNull \/ pkg = VUndefined
                   \/ (pkg <> VNull /\ pkg <> VUndefined))
    by (destruct pkg; try (now left); try (right; now left);
        right; right; split; discriminate).
  destruct Hcases as [-> | [-> | [H1 H2]]].
  - simpl. split; [intros [a H]; discriminate|discriminate].
  - simpl. split; [intros [a H]; discriminate|discriminate].
  - rewrite (well_formed_unfold pkg H1 H2).
    unfold Cli.analyse. rewrite !(prop_field pkg _ H1 H2). cbn [bind].
    pose proof (identify_ok pkg (Cli.git_config d) H1 H2) as Hid.
    pose proof (path_join_ok (Cli.absPath d)
                  (or_else (Manifest.field pkg "main") (VStr "index.js")))
      as Hmain.
    destruct (object_values_truthy (or_else (Manifest.field pkg "bin") (VObj []))
                (or_else_truthy (Manifest.field pkg "bin") (VObj []) eq_refl))
      as [bins Hbins].
    pose proof (mapM_path_join_ok (Cli.absPath d) bins) as Hfiles.
    rewrite Hbins. rewrite !andb_true_iff, <- Hid, <- Hmain, <- Hfiles.
    unfold bind. split.
    + intros [a Ha].
      destruct (Repository.identify pkg (Cli.git_config d)) as [g|]; [|discriminate].
      destruct (Cli.path_join _ _) as [m|]; [|discriminate].
      destruct (mapM (Cli.path_join _) bins) as [fs|]; [|discriminate].
      repeat split; eexists; reflexivity.
    + intros [[[g ->] [m ->]] [fs Hfs]]. rewrite Hfs.
      eexists; reflexivity.
Qed.

Lemma analyse_bin_truthy (localeCompare : string -> string -> Z)
      (d : Cli.directory) (pkg : value) (a : Analysis.t) :
  Cli.analyse localeCompare d pkg = Ok a -> truthy (Analysis.bin a) = true.
Proof.
  unfold Cli.analyse, bind. intros H.
  repeat match type of H with
         | match ?x with Ok _ => _ | Throw _ => _ end = Ok _ =>
             destruct x; [|discriminate H]
         end.
  injection H as <-. simpl. now apply (or_else_truthy _ (VObj [])).
Qed.

Lemma output_json (args : list string) (a : Analysis.t) :
  truthy (Analysis.bin a) = true ->
  Cli.output (Cli.flags args) a = Ok (Cli.Exit 0 (Cli.Json a) None).
Proof.
  intros Hbin. unfold Cli.output.
  destruct (object_keys_truthy _ Hbin) as [keys ->]. reflexivity.
Qed.

(** What the run comes to once the manifest is parsed. *)
Lemma run_analysed (localeCompare : string -> string -> Z)
      (args : list string) (d : Cli.directory) (pkg : value) :
  match (a <- Cli.analyse localeCompare d pkg ;; Cli.output (Cli.flags args) a) with
  | Ok o => o
  | Throw e => Cli.Uncaught e
  end
  = match Cli.analyse localeCompare d pkg with
    | Ok a => Cli.Exit 0 (Cli.Json a) None
    | Throw e => Cli.Uncaught e
    end.
Proof.
  unfold bind. destruct (Cli.analyse localeCompare d pkg) as [a|e] eqn:Ha;
    [|reflexivity].
  now rewrite (output_json args a (analyse_bin_truthy _ _ _ _ Ha)).
Qed.

(** X12. Of the command line only the request for help and the target
    directory matter to [index.js]: two command lines that agree on both
    end alike, whatever [--force], [--stdout], [--json] or [--badges]
    they carry. *)
Theorem options_do_not_matter
        (localeCompare : string -> string -> Z)
        (args args' : list string) (w : Cli.world) :
  truthy (Cli.get (Cli.flags args) "help")
  = truthy (Cli.get (Cli.flags args') "help") ->
  Cli.targetDir args w = Cli.targetDir args' w ->
  Cli.run localeCompare args w = Cli.run localeCompare args' w.
Proof.
  intros Hhelp Htarget. unfold Cli.run. rewrite Hhelp, Htarget.
  destruct (truthy (Cli.get (Cli.flags args') "help")); [reflexivity|].
  destruct (Cli.resolve w (Cli.targetDir args' w)) as [d|]; [|reflexivity].
  rewrite !readme_guard_never.
  destruct (Cli.package_json d) as [[pkg|]|]; reflexivity.
Qed.

Lemma options_do_not_matter_witness :
  Cli.run Merge.collate ["project"; "--force"; "--stdout"; "--badges"]
          (Scenario.world_of Scenario.tool_dir_with_readme)
  = Cli.run Merge.collate ["project"]
            (Scenario.world_of Scenario.tool_dir_with_readme).
Proof.
  apply options_do_not_matter; reflexivity.
Defined.

(** X13. The process of [index.js] ends with status 1 exactly when no
    help is asked for and the target directory does not exist, or has no
    [package.json], or one that does not parse, or one whose manifest is
    not well formed (the run then ends on the exception nobody catches,
    and node ends the process with status 1). In every other case the
    status is 0. An existing README is never a reason. *)
Theorem error_exits
        (localeCompare : string -> string -> Z)
        (args : list string) (w : Cli.world) :
  (Cli.exit_status (Cli.run localeCompare args w) = 1%Z
   <-> truthy (Cli.get (Cli.flags args) "help") = false
       /\ (Cli.resolve w (Cli.targetDir args w) = None
           \/ exists d,
                Cli.resolve w (Cli.targetDir args w) = Some d
                /\ (Cli.package_json d = None
                    \/ Cli.package_json d = Some None
                    \/ exists pkg,
                         Cli.package_json d = Some (Some pkg)
                         /\ Manifest.well_formed pkg = false)))
  /\ (Cli.exit_status (Cli.run localeCompare args w) = 0%Z
      \/ Cli.exit_status (Cli.run localeCompare args w) = 1%Z).
Proof.
  unfold Cli.run.
  destruct (truthy (Cli.get (Cli.flags args) "help")).
  - split; [|now left].
    split; [discriminate|intros [H _]; discriminate].
  - destruct (Cli.resolve w (Cli.targetDir args w)) as [d|].
    + rewrite readme_guard_never.
      destruct (Cli.package_json d) as [[pkg|]|] eqn:Hpkg.
      * rewrite run_analysed.
        pose proof (analyse_ok_iff localeCompare d pkg) as Hok.
        destruct (Cli.analyse localeCompare d pkg) as [a|e] eqn:Ha; simpl.
        -- split; [|now left]. split; [discriminate|].
           intros [_ [H|(d' & [= <-] & [H|[H|(pkg' & Hp & Hwf)]])]];
             try congruence.
           rewrite Hpkg in Hp. injection Hp as <-.
           rewrite (proj1 Hok (ex_intro _ a eq_refl)) in Hwf. discriminate.
        -- split; [|now right]. split; [|reflexivity].
           intros _. split; [reflexivity|]. right. exists d.
           split; [reflexivity|]. right. right. exists pkg.
           split; [exact Hpkg|].
           destruct (Manifest.well_formed pkg); [|reflexivity].
           destruct (proj2 Hok eq_refl) as [a Ha']. discriminate.
      * split; [|now right]. split; [|reflexivity].
        intros _. split; [reflexivity|]. right. exists d. tauto.
      * split; [|now right]. split; [|reflexivity].
        intros _. split; [reflexivity|]. right. exists d. tauto.
    + split; [|now right]. split; [|reflexivity].
      intros _. split; [reflexivity|now left].
Qed.

Lemma error_exits_witness :
  Cli.exit_status
    (Cli.run Merge.collate []
             {| Cli.cwd := "/work"; Cli.resolve := fun _ => None |}) = 1%Z
  /\ Cli.exit_status
       (Cli.run Merge.collate [] (Scenario.world_of Scenario.numeric_url_dir))
     = 1%Z.
Proof.
  split.
  - apply error_exits. split; [reflexivity|]. now left.
  - apply error_exits. split; [reflexivity|]. right.
    exists Scenario.numeric_url_dir. split; [reflexivity|]. right. right.
    exists Scenario.numeric_url_pkg. split; reflexivity.
Defined.

(** X14. The run ends on an exception nobody catches exactly when the
    manifest parses but is not well formed: it is [null], or the [url] of
    its repository object is not a string, or a truthy [main] or a value
    of [bin] is not a string. *)
Theorem crashes_iff_manifest_ill_formed
        (localeCompare : string -> string -> Z)
        (args : list string) (w : Cli.world) :
  (exists e, Cli.run localeCompare args w = Cli.Uncaught e)
  <-> truthy (Cli.get (Cli.flags args) "help") = false
      /\ exists d pkg,
           Cli.resolve w (Cli.targetDir args w) = Some d
           /\ Cli.package_json d = Some (Some pkg)
           /\ Manifest.well_formed pkg = false.
Proof.
  unfold Cli.run.
  destruct (truthy (Cli.get (Cli.flags args) "help")).
  - split; [intros [e H]; discriminate|intros [H _]; discriminate].
  - destruct (Cli.resolve w (Cli.targetDir args w)) as [d|].
    + rewrite readme_guard_never.
      destruct (Cli.package_json d) as [[pkg|]|] eqn:Hpkg.
      * rewrite run_analysed.
        pose proof (analyse_ok_iff localeCompare d pkg) as Hok. split.
        -- intros [e H]. split; [reflexivity|]. exists d, pkg.
           repeat split; try assumption.
           destruct (Manifest.well_formed pkg); [|reflexivity].
           destruct (proj2 Hok eq_refl) as [a Ha]. rewrite Ha in H. discriminate.
        -- intros (_ & d' & pkg' & [= <-] & Hp & Hwf).
           rewrite Hpkg in Hp. injection Hp as <-.
           destruct (Cli.analyse localeCompare d pkg) as [a|e] eqn:Ha.
           ++ rewrite (proj1 Hok (ex_intro _ a eq_refl)) in Hwf. discriminate.
           ++ now exists e.
      * split; [intros [e H]; discriminate|].
        intros (_ & d' & pkg' & [= <-] & Hp & _). congruence.
      * split; [intros [e H]; discriminate|].
        intros (_ & d' & pkg' & [= <-] & Hp & _). congruence.
    + split; [intros [e H]; discriminate|].
      intros (_ & d' & pkg' & H & _). discriminate.
Qed.

Lemma crashes_iff_manifest_ill_formed_witness :
  exists e, Cli.run Merge.collate []
                    (Scenario.world_of Scenario.numeric_url_dir)
            = Cli.Uncaught e.
Proof.
  apply crashes_iff_manifest_ill_formed. split; [reflexivity|].
  exists Scenario.numeric_url_dir, Scenario.numeric_url_pkg.
  repeat split.
Defined.

End CliMore.

(** * The names of an analysis *)

Section AnalysisNames.
Import JsString Js Captures.

(** Where the two sequences of an analysis come from. *)
Lemma analysis_sources (localeCompare : string -> string -> Z)
      (d : Cli.directory) (pkg : value) (a : Analysis.t) :
  Cli.analyse localeCompare d pkg = Ok a ->
  exists files lines,
    Analysis.commands a
    = Merge.merge localeCompare (Scanner.staticCommands (Scanner.scan_files files))
                  (HelpParser.commands (snd (HelpParser.run (None, HelpParser.empty) lines)))
    /\ Analysis.flags a
       = Merge.merge localeCompare (Scanner.staticFlags (Scanner.scan_files files))
                     (HelpParser.flags (snd (HelpParser.run (None, HelpParser.empty) lines))).
Proof.
  unfold Cli.analyse, bind. intros H.
  repeat match type of H with
         | match ?x with Ok _ => _ | Throw _ => _ end = Ok _ =>
             destruct x; [|discriminate H]
         end.
  injection H as <-. simpl.
  match goal with
  | |- context [Scanner.scan_files ?fs] => exists fs
  end.
  unfold Cli.dynamicData.
  match goal with
  | |- context [Cli.exists_file d ?m] =>
      destruct (Cli.exists_file d m);
        [destruct (Cli.help_stdout d m) as [out|];
         [destruct (out =? EmptyString)%string|]|]
  end;
    try (exists []; split; reflexivity).
  unfold HelpParser.parseHelpOutput. eexists. split; reflexivity.
Qed.

Lemma word_name_command_name (s : string) : word_name s -> command_name s.
Proof.
  intros [Hne Hall]. destruct s as [|a s]; [contradiction|].
  simpl in Hall. apply andb_true_iff in Hall. destruct Hall as [Ha Hs].
  exists a, s. repeat split; [assumption|].
  now apply (all_chars_impl _ _ _ word_within).
Qed.

Lemma alnum_within :
  forall a, is_alnum_or_dash a = true -> is_word_or_dash a = true.
Proof. apply forall_ascii. vm_compute. reflexivity. Qed.

(** X15. In every analysis [index.js] builds, a command is named by a word
    character followed by word characters and dashes, and a flag by a
    dash followed by at least one word character or dash: no name holds
    white space, a backtick or a vertical bar. *)
Theorem analysis_names_are_tokens
        (localeCompare : string -> string -> Z)
        (d : Cli.directory) (pkg : value) (a : Analysis.t) :
  Cli.analyse localeCompare d pkg = Ok a ->
  Forall (fun e => command_name (name e)) (Analysis.commands a)
  /\ Forall (fun e => exists rest,
                 name e = String "-"%char rest /\ rest <> EmptyString
                 /\ all_chars is_word_or_dash rest = true)
            (Analysis.flags a).
Proof.
  intros Ha. apply analysis_sources in Ha.
  destruct Ha as (files & lines & -> & ->).
  destruct (scan_files_names files) as [Hsc Hsf].
  destruct (run_keeps_records_good (None, HelpParser.empty) lines) as [Hdc Hdf];
    [split; constructor|].
  rewrite Forall_forall in Hsc, Hsf, Hdc, Hdf.
  split; apply Forall_forall; intros r Hr; apply merge_In_cases in Hr.
  - destruct Hr as [Hr|(Hr & _)].
    + now apply Hdc.
    + apply word_name_command_name. now apply Hsc.
  - destruct Hr as [Hr|(Hr & _)].
    + destruct (Hdf r Hr) as [(rest & -> & Hne & Hall) _].
      exists rest. repeat split; try assumption.
      now apply (all_chars_impl _ _ _ alnum_within).
    + destruct (Hsf _ Hr) as (c & rest & Hc & Hall & [Heq|Heq]); rewrite Heq.
      * exists (String c rest). repeat split; [discriminate|].
        simpl. now rewrite (letter_is_word_or_dash c Hc).
      * exists (String "-"%char (String c rest)). repeat split; [discriminate|].
        simpl. now rewrite (letter_is_word_or_dash c Hc).
Qed.

Lemma analysis_names_are_tokens_witness :
  Forall (fun e => command_name (name e))
         (Analysis.commands Scenario.tool_analysis).
Proof.
  apply (analysis_names_are_tokens Merge.collate Scenario.tool_dir
                                   Scenario.tool_pkg).
  vm_compute. reflexivity.
Defined.

End AnalysisNames.

(** * The rendered text *)

Section TextFacts.
Import JsString.

Lemma startsWith_app (p s : string) : startsWith p (p ++ s) = true.
Proof.
  induction p as [|a p IH]; simpl; [reflexivity|].
  now rewrite Ascii.eqb_refl, IH.
Qed.

Lemma startsWith_app_l (t a b : string) :
  startsWith t a = true -> startsWith t (a ++ b) = true.
Proof.
  revert a. induction t as [|x t IH]; intros a; simpl; [reflexivity|].
  destruct a as [|y a]; simpl; [discriminate|].
  intros H. apply andb_true_iff in H. destruct H as [Hxy Ht].
  now rewrite Hxy, IH.
Qed.

Lemma contains_here (t s : string) : contains t (t ++ s) = true.
Proof.
  destruct (t ++ s)%string eqn:E; simpl; rewrite <- E, startsWith_app; reflexivity.
Qed.

Lemma contains_skip (t p s : string) :
  contains t s = true -> contains t (p ++ s) = true.
Proof.
  intros H. induction p as [|a p IH]; simpl; [assumption|].
  rewrite IH. apply orb_true_r.
Qed.

Lemma contains_app_l (t a b : string) :
  contains t a = true -> contains t (a ++ b) = true.
Proof.
  induction a as [|x a IH]; simpl.
  - rewrite orb_false_r. intros H.
    destruct t; [destruct b; reflexivity|discriminate].
  - intros H. apply orb_true_iff in H. destruct H as [H|H].
    + pose proof (startsWith_app_l t (String x a) b H) as H'.
      simpl in H'. now rewrite H'.
    + rewrite (IH H). apply orb_true_r.
Qed.

Lemma contains_concat (x : string) (l : list string) :
  In x l -> contains x (concat EmptyString l) = true.
Proof.
  induction l as [|y l IH]; [intros []|].
  intros [->|Hin].
  - destruct l as [|z l]; cbn [concat].
    + rewrite <- (append_nil_r x) at 2. apply contains_here.
    + apply contains_here.
  - destruct l as [|z l]; [destruct Hin|]. cbn [concat].
    apply contains_skip. apply (contains_skip x EmptyString). now apply IH.
Qed.

Lemma startsWith_peel (a p s : string) :
  startsWith (a ++ p) (a ++ s) = startsWith p s.
Proof.
  induction a as [|x a IH]; simpl; [reflexivity|].
  now rewrite Ascii.eqb_refl, IH.
Qed.

Lemma contains_prefix (t s : string) : startsWith t s = true -> contains t s = true.
Proof. intros H. destruct s; simpl; now rewrite H. Qed.

End TextFacts.

Section RendererFacts.
Import JsString Js.
Local Open Scope string_scope.

Lemma Ok_injective {A : Type} (x y : A) : Ok x = Ok y -> x = y.
Proof. now intros [= ->]. Qed.

Lemma table_rows (title head rule : string) (l : list entry) (e : entry) :
  In e l -> contains (Renderer.row e) (Renderer.table title head rule l) = true.
Proof.
  intros Hin. unfold Renderer.table. destruct l as [|x l]; [destruct Hin|].
  do 8 apply contains_skip. apply contains_app_l, contains_concat.
  now apply in_map.
Qed.

Lemma contains_refl (t : string) : contains t t = true.
Proof. rewrite <- (append_nil_r t) at 2. apply contains_here. Qed.

Lemma table_rows_under (title head rule : string) (l : list entry) :
  l <> [] ->
  contains (Layout.rows_under rule (map Renderer.row l))
           (Renderer.table title head rule l) = true.
Proof.
  intros Hl. unfold Renderer.table. destruct l as [|x l]; [contradiction|].
  do 6 apply contains_skip. apply contains_refl.
Qed.

(** X16. For an analysis whose printed fields the embedding prints as
    the program does, the text the renderer of [index.js] gives begins
    with the title line of the name, a blank line, the description, a
    blank line, the three badges when they are asked for and the
    repository is known, and the installation block: its fenced block
    holds [npm install -g], [# or] and [npx] with the name when [bin]
    declares commands, and [npm install] with the name alone when it
    declares none. The rows of the commands and of the flags stand in the
    text under the rule of their table, one after the other in the order
    of the analysis; so every command and every flag has its row. *)
Theorem rendered_text
        (badges : bool) (a : Analysis.t) (binCommands : list string)
        (text : string) :
  Layout.printable a = true ->
  Renderer.readme badges a binCommands = Ok text ->
  startsWith (Layout.head (to_string (Analysis.name a))
                          (to_string (Analysis.description a))
                          (Layout.shown badges (Analysis.github a))
                          (Layout.declares_commands binCommands))
             text = true
  /\ (Analysis.commands a <> [] ->
      contains (Layout.rows_under "|---------|-------------|"
                                  (map Renderer.row (Analysis.commands a)))
               text = true)
  /\ (Analysis.flags a <> [] ->
      contains (Layout.rows_under "|--------|-------------|"
                                  (map Renderer.row (Analysis.flags a)))
               text = true)
  /\ (forall e, In e (Analysis.commands a) ->
                contains (Renderer.row e) text = true)
  /\ (forall e, In e (Analysis.flags a) ->
                contains (Renderer.row e) text = true).
Proof.
  intros _. unfold Renderer.readme, bind. cbv zeta.
  destruct (object_keys (Analysis.scripts a)) as [script_names|]; [|discriminate].
  intros H. apply Ok_injective in H. subst text. repeat split.
  - unfold Layout.head, Layout.installation, Layout.badge_block,
      Layout.shown, Layout.declares_commands. cbv zeta.
    destruct badges, (Analysis.github a) as [g|], binCommands as [|mainBin rest];
      rewrite ?append_assoc, !startsWith_peel; apply startsWith_app.
  - intros Hl. do 22 apply contains_skip. apply contains_app_l.
    now apply table_rows_under.
  - intros Hl. do 23 apply contains_skip. apply contains_app_l.
    now apply table_rows_under.
  - intros e He. do 22 apply contains_skip. apply contains_app_l.
    now apply table_rows.
  - intros e He. do 23 apply contains_skip. apply contains_app_l.
    now apply table_rows.
Qed.

Lemma rendered_text_witness :
  match Renderer.readme false Scenario.tool_analysis ["tool"] with
  | Ok text =>
      startsWith ("# tool" ++ Renderer.nl ++ Renderer.nl
                  ++ "A CLI tool" ++ Renderer.nl ++ Renderer.nl
                  ++ "## Installation" ++ Renderer.nl ++ Renderer.nl
                  ++ Renderer.fence ++ "bash" ++ Renderer.nl
                  ++ "npm install -g tool" ++ Renderer.nl
                  ++ "# or" ++ Renderer.nl
                  ++ "npx tool" ++ Renderer.nl
                  ++ Renderer.fence ++ Renderer.nl ++ Renderer.nl) text = true
      /\ contains (Renderer.row {| name := "build"; desc := EmptyString |}) text
         = true
  | Throw _ => False
  end.
Proof.
  destruct (Renderer.readme false Scenario.tool_analysis ["tool"]) as [text|e]
    eqn:Hrender.
  - apply rendered_text in Hrender; [|reflexivity].
    destruct Hrender as (Hhead & _ & _ & Hrows & _).
    split; [exact Hhead|]. apply Hrows. simpl. now left.
  - vm_compute in Hrender. discriminate Hrender.
Defined.

End RendererFacts.

(** * The earlier variant *)

Section LegacyFacts.
Import JsString Js Captures.
Local Open Scope string_scope.

(** What the earlier variant does once it has an analysis. *)
Lemma legacy_output_cases (fl : list (string * bool)) (a : LegacyCli.analysis)
      (o : LegacyCli.outcome) :
  LegacyCli.output fl a = Ok o ->
  (Legacy.json_gate fl = true /\ o = LegacyCli.Exit 0 (LegacyCli.Json a) None)
  \/ (Legacy.json_gate fl = false
      /\ exists keys text,
           object_keys (LegacyCli.bin a) = Ok keys
           /\ LegacyCli.readme (truthy (Cli.get fl "badges")) a keys = Ok text
           /\ ((truthy (Cli.get fl "stdout") = true
                /\ o = LegacyCli.Exit 0 (LegacyCli.Text text) None)
               \/ (truthy (Cli.get fl "stdout") = false
                   /\ o = LegacyCli.Exit 0
                            (LegacyCli.Summary (String.length text) a)
                            (Some text)))).
Proof.
  unfold LegacyCli.output, bind.
  destruct (object_keys (LegacyCli.bin a)) as [keys|]; [|discriminate].
  destruct (Legacy.json_gate fl).
  - intros [= <-]. now left.
  - destruct (LegacyCli.readme _ a keys) as [text|] eqn:Hr; [|discriminate].
    destruct (truthy (Cli.get fl "stdout")) eqn:Hs; intros [= <-]; right;
      (split; [reflexivity|]); exists keys, text; repeat split; tauto.
Qed.

Lemma legacy_guard_unfold (args : list string) (d : Cli.directory) :
  Legacy.readme_guard (Cli.flags args) d = true
  <-> Cli.readme_md d <> None
      /\ truthy (Cli.get (Cli.flags args) "force") = false
      /\ truthy (Cli.get (Cli.flags args) "stdout") = false
      /\ truthy (Cli.get (Cli.flags args) "json") = false.
Proof.
  unfold Legacy.readme_guard. rewrite !andb_true_iff, !negb_true_iff.
  destruct (Cli.readme_md d); split; intros H; try tauto.
  - repeat split; try tauto. discriminate.
  - destruct H as [[[H _] _] _]. discriminate.
Qed.

(** X17. The guard of the earlier variant: in a directory that exists,
    without a request for help, the run stops with the message that
    README.md already exists, exit code 1 and nothing written, exactly
    when the directory has a README and none of [--force], [--stdout]
    and [--json] (or their short forms) is given. *)
Theorem legacy_guard_fires
        (args : list string) (w : Cli.world) (d : Cli.directory) :
  truthy (Cli.get (Cli.flags args) "help") = false ->
  Cli.resolve w (Cli.targetDir args w) = Some d ->
  LegacyCli.run args w
  = LegacyCli.Exit 1 (LegacyCli.Error LegacyCli.already_exists) None
  <-> Cli.readme_md d <> None
      /\ truthy (Cli.get (Cli.flags args) "force") = false
      /\ truthy (Cli.get (Cli.flags args) "stdout") = false
      /\ truthy (Cli.get (Cli.flags args) "json") = false.
Proof.
  intros Hhelp Hdir. rewrite <- legacy_guard_unfold.
  unfold LegacyCli.run. rewrite Hhelp, Hdir.
  destruct (Legacy.readme_guard (Cli.flags args) d); [tauto|].
  split; [|discriminate]. intros H. exfalso.
  destruct (Cli.package_json d) as [[pkg|]|]; try discriminate H.
  destruct (a <- LegacyCli.analyse d pkg ;; LegacyCli.output (Cli.flags args) a)
    as [o|e] eqn:Hrun; [|discriminate H].
  unfold bind in Hrun.
  destruct (LegacyCli.analyse d pkg) as [a|]; [|discriminate Hrun].
  apply legacy_output_cases in Hrun.
  destruct Hrun as [[_ ->]|(_ & keys & text & _ & _ & [[_ ->]|[_ ->]])];
    discriminate H.
Qed.

Lemma legacy_guard_fires_witness :
  LegacyCli.run [] (Scenario.world_of Scenario.tool_dir_with_readme)
  = LegacyCli.Exit 1 (LegacyCli.Error LegacyCli.already_exists) None.
Proof.
  apply (legacy_guard_fires [] _ Scenario.tool_dir_with_readme);
    try reflexivity.
  repeat split. discriminate.
Defined.

(** X18. The earlier variant writes README.md only in a directory that
    has none, or under [--force], and never under [--stdout] or [--json];
    the run then exits with 0 and reports the length of the very text it
    wrote. *)
Theorem legacy_writes_only_when_allowed
        (args : list string) (w : Cli.world)
        (code : Z) (out : LegacyCli.event) (text : string) :
  LegacyCli.run args w = LegacyCli.Exit code out (Some text) ->
  exists (d : Cli.directory) (a : LegacyCli.analysis),
    Cli.resolve w (Cli.targetDir args w) = Some d
    /\ (Cli.readme_md d = None
        \/ truthy (Cli.get (Cli.flags args) "force") = true)
    /\ truthy (Cli.get (Cli.flags args) "stdout") = false
    /\ truthy (Cli.get (Cli.flags args) "json") = false
    /\ code = 0%Z
    /\ out = LegacyCli.Summary (String.length text) a.
Proof.
  unfold LegacyCli.run.
  destruct (truthy (Cli.get (Cli.flags args) "help")); [discriminate|].
  destruct (Cli.resolve w (Cli.targetDir args w)) as [d|]; [|discriminate].
  destruct (Legacy.readme_guard (Cli.flags args) d) eqn:Hguard; [discriminate|].
  destruct (Cli.package_json d) as [[pkg|]|]; try discriminate.
  destruct (a <- LegacyCli.analyse d pkg ;; LegacyCli.output (Cli.flags args) a)
    as [o|e] eqn:Hrun; [|discriminate].
  intros ->. unfold bind in Hrun.
  destruct (LegacyCli.analyse d pkg) as [a|]; [|discriminate Hrun].
  apply legacy_output_cases in Hrun.
  destruct Hrun as [[_ H]|(Hjson & keys & t & _ & _ & [[_ H]|[Hstdout H]])];
    try discriminate H.
  injection H as -> -> ->.
  exists d, a. repeat split; try assumption.
  unfold Legacy.readme_guard in Hguard. unfold Legacy.json_gate in Hjson.
  rewrite Hstdout, Hjson in Hguard. simpl in Hguard.
  rewrite !andb_true_r in Hguard.
  destruct (Cli.readme_md d); [|now left].
  right. simpl in Hguard. now apply negb_false_iff in Hguard.
Qed.

Lemma legacy_writes_only_when_allowed_witness :
  match LegacyCli.run [] (Scenario.world_of Scenario.tool_dir) with
  | LegacyCli.Exit code _ (Some _) =>
      code = 0%Z /\ truthy (Cli.get (Cli.flags []) "json") = false
  | _ => False
  end.
Proof.
  destruct (LegacyCli.run [] (Scenario.world_of Scenario.tool_dir))
    as [code out [text|]|e] eqn:Hrun.
  - apply legacy_writes_only_when_allowed in Hrun.
    destruct Hrun as (d & a & _ & _ & _ & Hjson & Hcode & _). now split.
  - vm_compute in Hrun. discriminate Hrun.
  - vm_compute in Hrun. discriminate Hrun.
Defined.

Lemma legacy_table_rows (l : list string) (c : string) :
  In c l -> contains (LegacyCli.row c) (concat EmptyString (map LegacyCli.row l))
            = true.
Proof. intros Hin. apply contains_concat. now apply in_map. Qed.

(** X19. For an analysis whose printed fields the embedding prints as
    the program does, the text the renderer of the earlier variant gives
    begins with the title line of the name, a blank line, the
    description, a blank line, the three badges when they are asked for
    and the repository is known, and the installation block: its fenced
    block holds [npm install -g], [# or] and [npx] with the name when
    [bin] declares commands, and [npm install] with the name alone when
    it declares none. The rows of the commands stand in the text under
    the rule of the table, one after the other in the order of the
    analysis; so every command has its row. *)
Theorem legacy_rendered_text
        (badges : bool) (a : LegacyCli.analysis) (binCommands : list string)
        (text : string) :
  Layout.legacy_printable a = true ->
  LegacyCli.readme badges a binCommands = Ok text ->
  startsWith (Layout.head (to_string (LegacyCli.name a))
                          (to_string (LegacyCli.description a))
                          (Layout.shown badges (LegacyCli.github a))
                          (Layout.declares_commands binCommands))
             text = true
  /\ (LegacyCli.commands a <> [] ->
      contains (Layout.rows_under "|---------|-------------|"
                                  (map LegacyCli.row (LegacyCli.commands a)))
               text = true)
  /\ (forall c, In c (LegacyCli.commands a) ->
                contains (LegacyCli.row c) text = true).
Proof.
  intros _. unfold LegacyCli.readme, bind. cbv zeta.
  destruct (object_keys (LegacyCli.scripts a)) as [script_names|]; [|discriminate].
  intros H. apply Ok_injective in H. subst text. repeat split.
  - unfold Layout.head, Layout.installation, Layout.badge_block,
      Layout.shown, Layout.declares_commands. cbv zeta.
    destruct badges, (LegacyCli.github a) as [g|], binCommands as [|mainBin rest];
      rewrite ?append_assoc, !startsWith_peel; apply startsWith_app.
  - intros Hl. do 22 apply contains_skip. apply contains_app_l.
    destruct (LegacyCli.commands a) as [|x l] eqn:Hc; [contradiction|].
    do 5 apply contains_skip. apply contains_refl.
  - intros c Hc. do 22 apply contains_skip. apply contains_app_l.
    destruct (LegacyCli.commands a) as [|x l] eqn:Hl; [destruct Hc|].
    do 7 apply contains_skip. apply contains_app_l.
    now apply legacy_table_rows.
Qed.

Lemma legacy_rendered_text_witness :
  match LegacyCli.readme false LegacyScenario.tool_analysis ["tool"] with
  | Ok text =>
      startsWith ("# tool" ++ Renderer.nl ++ Renderer.nl
                  ++ "A CLI tool" ++ Renderer.nl ++ Renderer.nl
                  ++ "## Installation" ++ Renderer.nl ++ Renderer.nl
                  ++ Renderer.fence ++ "bash" ++ Renderer.nl
                  ++ "npm install -g tool" ++ Renderer.nl
                  ++ "# or" ++ Renderer.nl
                  ++ "npx tool" ++ Renderer.nl
                  ++ Renderer.fence ++ Renderer.nl ++ Renderer.nl) text = true
      /\ contains (LegacyCli.row "build") text = true
  | Throw _ => False
  end.
Proof.
  destruct (LegacyCli.readme false LegacyScenario.tool_analysis ["tool"])
    as [text|e] eqn:Hrender.
  - apply legacy_rendered_text in Hrender; [|reflexivity].
    destruct Hrender as (Hhead & _ & Hrows).
    split; [exact Hhead|]. apply Hrows. simpl. now left.
  - vm_compute in Hrender. discriminate Hrender.
Defined.

Lemma dedupe_NoDup (l : list string) : NoDup (Legacy.dedupe l).
Proof.
  unfold Legacy.dedupe. apply fold_left_invariant; [|constructor].
  intros acc x Hacc. now apply set_add_NoDup.
Qed.

Lemma dedupe_Forall (P : string -> Prop) (l : list string) :
  Forall P l -> Forall P (Legacy.dedupe l).
Proof.
  intros Hl. rewrite Forall_forall in Hl. unfold Legacy.dedupe.
  apply (fold_left_invariant_in (Forall P)); [|constructor].
  intros acc x Hx Hacc. apply set_add_Forall; [now apply Hl|assumption].
Qed.

Lemma legacy_scan_commands_good (acc : list string) (code : string) :
  Forall (fun c => word_name c
                   /\ includes Legacy.command_stoplist (toLowerCase c) = false) acc ->
  Forall (fun c => word_name c
                   /\ includes Legacy.command_stoplist (toLowerCase c) = false)
         (Legacy.scan_commands acc code).
Proof.
  intros Hacc. unfold Legacy.scan_commands.
  apply (fold_left_invariant_in
           (Forall (fun c => word_name c
                             /\ includes Legacy.command_stoplist (toLowerCase c)
                                = false))); [|assumption].
  intros acc1 pattern Hp Hacc1.
  apply (fold_left_invariant_in
           (Forall (fun c => word_name c
                             /\ includes Legacy.command_stoplist (toLowerCase c)
                                = false))); [|assumption].
  intros acc2 c Hc Hacc2. unfold Legacy.add_command.
  destruct (Regex.group 1 c) as [cmd|] eqn:Hg; [|assumption].
  destruct (negb (cmd =? EmptyString)%string
            && negb (includes Legacy.command_stoplist (toLowerCase cmd))) eqn:Hok;
    [|assumption].
  apply Forall_app. split; [assumption|]. constructor; [|constructor].
  apply andb_true_iff in Hok. destruct Hok as [_ Hstop].
  apply negb_true_iff in Hstop. split; [|assumption].
  apply exec_loop_sound in Hc. destruct Hc as (st & rest & e & Hm).
  apply (command_capture pattern); [assumption|].
  now apply (match_at_captured _ _ _ _ _ _ _ Hm).
Qed.

(** X20. In every analysis of the earlier variant the commands are
    distinct, each is a non-empty run of word characters, and none is,
    in lower case, on its stoplist. *)
Theorem legacy_commands_are_clean
        (d : Cli.directory) (pkg : value) (a : LegacyCli.analysis) :
  LegacyCli.analyse d pkg = Ok a ->
  NoDup (LegacyCli.commands a)
  /\ Forall (fun c => word_name c
                      /\ includes Legacy.command_stoplist (toLowerCase c) = false)
            (LegacyCli.commands a).
Proof.
  unfold LegacyCli.analyse, bind. intros H.
  repeat match type of H with
         | match ?x with Ok _ => _ | Throw _ => _ end = Ok _ =>
             destruct x; [|discriminate H]
         end.
  injection H as <-. cbn [LegacyCli.commands]. split; [apply dedupe_NoDup|].
  apply dedupe_Forall.
  apply (fold_left_invariant
           (fun acc => Forall (fun c => word_name c
                                        /\ includes Legacy.command_stoplist
                                                    (toLowerCase c) = false)
                              (fst acc))); [|constructor].
  intros acc file Hacc. destruct file as [[code|]|]; simpl; try assumption.
  now apply legacy_scan_commands_good.
Qed.

Lemma legacy_commands_are_clean_witness :
  NoDup (LegacyCli.commands LegacyScenario.tool_analysis).
Proof.
  apply (legacy_commands_are_clean Scenario.tool_dir Scenario.tool_pkg).
  vm_compute. reflexivity.
Defined.

End LegacyFacts.
